(** * libotr private keys and fingerprint store (src/privkey.c)

    A shallow embedding of [privkey.c]: the human-readable fingerprint
    format, the hexadecimal codec of the fingerprint store, the loader of
    the fingerprint store, the linked registry of private keys with its
    [tous] back-pointers, the key-file loader and key generation.

    Conventions.
    - A C [char] is an [ascii]; an [unsigned char] is a [byte]; a C string
      is a [string] (the characters before the terminating NUL).
    - [unsigned int] arithmetic is done in [Z] / [N]; a store into an
      [unsigned char] reduces modulo 256.
    - Memory allocation is assumed to succeed: the [GPG_ERR_ENOMEM] exits
      are not part of the model.
    - libgcrypt and the operating system are the environment.  The file
      system is a finite map from paths to files, with the permissions
      and the room that decide whether [fopen] and [fprintf] succeed;
      S-expressions are trees, and the parser, the printer and the
      cryptography are parameters ([Gcrypt]).
    - A loop over the linked list runs on fuel, the number of live
      structures; on a well-formed registry it ends by its own test. *)

From Stdlib Require Import ZArith NArith Ascii String.
From Stdlib.Strings Require Import Byte.
From stdpp Require Import base option list gmap strings fin_maps.

Local Open Scope string_scope.
Local Open Scope list_scope.
Local Open Scope nat_scope.

(** ** Characters, bytes and C strings *)

Definition NUL : ascii := Ascii.zero.
Definition TAB : ascii := ascii_of_nat 9.
Definition LF : ascii := ascii_of_nat 10.
Definition CR : ascii := ascii_of_nat 13.
Definition SPACE : ascii := ascii_of_nat 32.

(** The numeric value of a character.  [ctoh] only compares against the
    ranges '0'..'9', 'a'..'f', 'A'..'F', all below 128, so a signed and
    an unsigned [char] give the same outcome. *)
Definition char_code (c : ascii) : Z := Z.of_N (N_of_ascii c).

(** Store of an [unsigned int] into an [unsigned char]. *)
Definition to_uchar (z : Z) : byte :=
  default x00 (Byte.of_N (Z.to_N (z mod 256))).

Fixpoint string_of_chars (l : list ascii) : string :=
  match l with
  | [] => EmptyString
  | c :: l' => String c (string_of_chars l')
  end.

Fixpoint chars_of_string (s : string) : list ascii :=
  match s with
  | EmptyString => []
  | String c s' => c :: chars_of_string s'
  end.

(** The C string held in a character buffer: everything before the first
    NUL. *)
Fixpoint cstring (buf : list ascii) : string :=
  match buf with
  | [] => EmptyString
  | c :: buf' => if decide (c = NUL) then EmptyString else String c (cstring buf')
  end.

(** [strchr s c]: the offset of the first [c] in [s], if any. *)
Fixpoint strchr (s : string) (c : ascii) : option nat :=
  match s with
  | EmptyString => None
  | String d s' => if decide (d = c) then Some 0 else S <$> strchr s' c
  end.

(** [s + n] for a C string [s] of at least [n] characters. *)
Fixpoint drop_chars (n : nat) (s : string) : string :=
  match n, s with
  | S n', String _ s' => drop_chars n' s'
  | _, _ => s
  end.

(** The first [n] characters of [s]: the C string at [s] once
    [s[n] = '\0'] has been stored. *)
Fixpoint take_chars (n : nat) (s : string) : string :=
  match n, s with
  | S n', String c s' => String c (take_chars n' s')
  | _, _ => EmptyString
  end.

(** [hex[i]] for a C string: reading the terminator yields NUL. *)
Definition char_at (s : string) (i : nat) : ascii :=
  default NUL (String.get i s).

(** ** printf's %02X and %02x *)

Definition hex_digit (upper : bool) (d : N) : ascii :=
  if (d <? 10)%N then ascii_of_N (48 + d)
  else ascii_of_N ((if upper then 55 else 87) + d).

Fixpoint hex_digits (upper : bool) (fuel : nat) (n : N) (acc : string) : string :=
  match fuel with
  | O => acc
  | S fuel' =>
      if (n =? 0)%N then acc
      else hex_digits upper fuel' (n / 16)%N (String (hex_digit upper (n mod 16)%N) acc)
  end.

Fixpoint zero_pad (k : nat) (s : string) : string :=
  match k with
  | O => s
  | S k' => String "0"%char (zero_pad k' s)
  end.

(** The text printed for an unsigned value under "%02X" ([upper = true])
    or "%02x": its hexadecimal digits, left-padded with zeros to width 2. *)
Definition fmt_02x (upper : bool) (n : N) : string :=
  let ds := hex_digits upper (N.size_nat n) n EmptyString in
  zero_pad (2 - String.length ds) ds.

(** ** Buffers and loops *)

(** [for (i = 0; i < n; ++i) body]. *)
Fixpoint for_upto {St : Type} (n : nat) (body : nat → St → St) (s : St) : St :=
  match n with
  | O => s
  | S k => body k (for_upto k body s)
  end.

(** Copy the characters of [s] into [buf] from offset [p] on. *)
Fixpoint poke_string (buf : list ascii) (p : nat) (s : string) : list ascii :=
  match s with
  | EmptyString => buf
  | String c s' => poke_string (<[p:=c]> buf) (S p) s'
  end.

(** [sprintf(p, "%02X", value)]: the two digits and the terminating NUL. *)
Definition sprintf_02X (buf : list ascii) (p : nat) (value : byte) : list ascii :=
  let text := fmt_02x true (Byte.to_N value) in
  <[p + String.length text:=NUL]> (poke_string buf p text).

(** ** otrl_privkey_hash_to_human *)

(** The state of the two loops: the [human] buffer and the offset of [p]
    in it.  For a buffer of 45 characters every store is in range (the
    theorem on the result shows the buffer keeps its length). *)
Definition otrl_privkey_hash_to_human (human : list ascii) (hash : list byte)
  : list ascii :=
  let '(buf, p) :=
    for_upto 5 (fun word '(buf, p) =>
      let '(buf, p) :=
        for_upto 4 (fun byte '(buf, p) =>
          (sprintf_02X buf p (default x00 (hash !! (word * 4 + byte))), p + 2))
          (buf, p) in
      (<[p:=SPACE]> buf, p + 1))
      (human, 0) in
  (* Change that last ' ' to a '\0' *)
  let p := p - 1 in
  <[p:=NUL]> buf.

(** ** ctoh and the hexadecimal form of a fingerprint *)

Definition ctoh (c : ascii) : Z :=
  let v := char_code c in
  if (char_code "0" <=? v)%Z && (v <=? char_code "9")%Z then (v - char_code "0")%Z
  else if (char_code "a" <=? v)%Z && (v <=? char_code "f")%Z then (v - char_code "a" + 10)%Z
  else if (char_code "A" <=? v)%Z && (v <=? char_code "F")%Z then (v - char_code "A" + 10)%Z
  else 0%Z.

(** [(ctoh(hex[i]) << 4) + ctoh(hex[i+1])], stored in an unsigned char. *)
Definition hex_pair (hi lo : ascii) : byte :=
  to_uchar (Z.shiftl (ctoh hi) 4 + ctoh lo).

(** [for(j=0, i=0; i<40; i+=2) fingerprint[j++] = ...] with [40 = 2 n]:
    the loop overwrites the first [n] slots of the [fingerprint] buffer. *)
Definition hex_to_bytes (n : nat) (fingerprint : list byte) (hex : string)
  : list byte :=
  for_upto n (fun j fp =>
    <[j:=hex_pair (char_at hex (2 * j)) (char_at hex (2 * j + 1))]> fp) fingerprint.

(** [for(i=0;i<20;++i) fprintf(storef, "%02x", fprint->fingerprint[i])]. *)
Definition bytes_to_hex (n : nat) (fingerprint : list byte) : string :=
  for_upto n (fun i out => out +:+ fmt_02x false (Byte.to_N (default x00 (fingerprint !! i)))) EmptyString.

(** ** The file system and stdio

    A file has contents and owner permission bits.  [w_space] is the
    number of bytes the device can still take ([None]: no limit);
    [w_errno] is the C [errno], which a failing call sets and nothing
    here clears. *)

Record file := File { f_data : string; f_readable : bool; f_writable : bool }.

Record world := World {
  w_files : gmap string file;
  w_dir_writable : bool;   (* may a missing file be created? *)
  w_space : option nat;
  w_errno : N
}.

Definition ENOENT : N := 2.
Definition EACCES : N := 13.
Definition ENOSPC : N := 28.

Definition set_errno (w : world) (e : N) : world :=
  World (w_files w) (w_dir_writable w) (w_space w) e.

(** [fopen(path, "r")] / [fopen(path, "rb")]: the contents to be read, or
    NULL with [errno] set. *)
Definition fopen_read (w : world) (path : string) : option string * world :=
  match w_files w !! path with
  | Some f => if f_readable f then (Some (f_data f), w) else (None, set_errno w EACCES)
  | None => (None, set_errno w ENOENT)
  end.

(** The room on the device once [path] is open for writing: truncating
    an existing file releases its bytes. *)
Definition room_once_open (w : world) (path : string) : option nat :=
  match w_files w !! path with
  | Some f => (λ room, room + String.length (f_data f)) <$> w_space w
  | None => w_space w
  end.

(** [fopen(path, "w")]: truncates an existing writable file, creates a
    missing one (readable and writable by its owner only, the umask being
    077), or fails with [errno] set and the file system as it was. *)
Definition fopen_write (w : world) (path : string) : bool * world :=
  match w_files w !! path with
  | Some f =>
      if f_writable f then
        (true, World (<[path:=File EmptyString (f_readable f) true]> (w_files w))
                     (w_dir_writable w) (room_once_open w path) (w_errno w))
      else (false, set_errno w EACCES)
  | None =>
      if w_dir_writable w then
        (true, World (<[path:=File EmptyString true true]> (w_files w))
                     (w_dir_writable w) (room_once_open w path) (w_errno w))
      else (false, set_errno w EACCES)
  end.

(** [fprintf(f, "%s", text)] on a stream opened for writing on [path].
    The bytes that fit on the device are appended to the file; the
    others are lost, with [errno] set.  (The callers in this file ignore
    the value [fprintf] returns.) *)
Definition fputs (w : world) (path : string) (text : string) : world :=
  match w_files w !! path with
  | Some f =>
      match w_space w with
      | None =>
          World (<[path:=File (f_data f +:+ text) (f_readable f) (f_writable f)]> (w_files w))
                (w_dir_writable w) None (w_errno w)
      | Some room =>
          World (<[path:=File (f_data f +:+ take_chars room text)
                              (f_readable f) (f_writable f)]> (w_files w))
                (w_dir_writable w) (Some (room - String.length text))
                (if decide (String.length text ≤ room) then w_errno w else ENOSPC)
      end
  | None => w
  end.

(** [fgets(line, size, stream)]: at most [size - 1] characters, stopping
    after a newline; NULL at end of file.  Returns the characters stored
    and the rest of the stream. *)
Fixpoint fgets_chars (room : nat) (stream : string) : string * string :=
  match room, stream with
  | S room', String c rest =>
      if decide (c = LF) then (String c EmptyString, rest)
      else let '(line, rest') := fgets_chars room' rest in (String c line, rest')
  | _, _ => (EmptyString, stream)
  end.

Definition fgets (size : nat) (stream : string) : option (string * string) :=
  match stream with
  | EmptyString => None
  | _ => Some (fgets_chars (size - 1) stream)
  end.

(** ** Error codes *)

Inductive gcry_error : Type :=
  | GPG_ERR_NO_ERROR
  | GPG_ERR_UNUSABLE_SECKEY
  | GPG_ERR_SYSTEM (errno : N)        (* gcry_error_from_errno, errno <> 0 *)
  | GPG_ERR_LIBRARY (code : positive). (* an error code of libgcrypt's own *)

Definition gcry_error_from_errno (e : N) : gcry_error :=
  if (e =? 0)%N then GPG_ERR_NO_ERROR else GPG_ERR_SYSTEM e.

Global Instance gcry_error_eq_dec : EqDecision gcry_error.
Proof. solve_decision. Defined.

(** The result of a library call that reports failure by an error code. *)
Inductive outcome (A : Type) : Type :=
  | Done (a : A)
  | Failed (code : positive).
Arguments Done {A} a.
Arguments Failed {A} code.

(** ** The trust store: otrl_privkey_read_fingerprints *)

(** One fingerprint handed to the context module: the arguments of the
    calls [otrl_context_find(us, username, accountname, protocol, 1, ...)]
    and [otrl_context_find_fingerprint(context, fingerprint, 1, NULL)]. *)
Record store_entry := StoreEntry {
  se_username : string;
  se_accountname : string;
  se_protocol : string;
  se_fingerprint : list byte
}.

(** The body of the [while (fgets(...))] loop on one line: [None] is
    [continue] before the context module is called.  [fingerprint] is
    the 20-byte buffer, which lives across iterations. *)
Definition read_fingerprint_line (fingerprint : list byte) (storeline : string)
  : option store_entry * list byte :=
  let storeline := cstring (chars_of_string storeline) in
  let username := storeline in
  match strchr username TAB with
  | None => (None, fingerprint)
  | Some tab =>
  let accountname := drop_chars (tab + 1) username in
  let username := take_chars tab username in
  match strchr accountname TAB with
  | None => (None, fingerprint)
  | Some tab =>
  let protocol := drop_chars (tab + 1) accountname in
  let accountname := take_chars tab accountname in
  match strchr protocol TAB with
  | None => (None, fingerprint)
  | Some tab =>
  let hex := drop_chars (tab + 1) protocol in
  let protocol := take_chars tab protocol in
  let eol := strchr hex CR in
  let eol := if eol is None then strchr hex LF else eol in
  match eol with
  | None => (None, fingerprint)
  | Some eol =>
  let hex := take_chars eol hex in
  if decide (String.length hex ≠ 40) then (None, fingerprint)
  else
    let fingerprint := hex_to_bytes 20 fingerprint hex in
    (Some (StoreEntry username accountname protocol fingerprint), fingerprint)
  end end end end.

(** The [while] loop: every [fgets] consumes at least one character, so
    the length of the stream bounds the number of iterations. *)
Fixpoint read_fingerprint_lines (fuel : nat) (fingerprint : list byte)
    (stream : string) : list store_entry :=
  match fuel with
  | O => []
  | S fuel' =>
      match fgets 1000 stream with
      | None => []
      | Some (storeline, stream') =>
          let '(entry, fingerprint') := read_fingerprint_line fingerprint storeline in
          match entry with
          | Some e => e :: read_fingerprint_lines fuel' fingerprint' stream'
          | None => read_fingerprint_lines fuel' fingerprint' stream'
          end
      end
  end.

(** The whole function: the error code and, in order, the fingerprints
    handed to the context module.  [fingerprint] is the initial (stack)
    content of the 20-byte buffer. *)
Definition otrl_privkey_read_fingerprints (w : world) (filename : string)
    (fingerprint : list byte) : gcry_error * list store_entry * world :=
  match fopen_read w filename with
  | (None, w') => (gcry_error_from_errno (w_errno w'), [], w')
  | (Some stream, w') =>
      (GPG_ERR_NO_ERROR,
       read_fingerprint_lines (String.length stream) fingerprint stream, w')
  end.

(** ** libgcrypt S-expressions

    libgcrypt is an external library.  Its S-expressions are modelled by
    their tree form, and the accessors [privkey.c] calls by what they
    compute on that tree; a [gcry_sexp_t] is a possibly-NULL handle,
    [option sexp].  What depends on the concrete syntax or on the
    cryptography is left to the interface [Gcrypt] below. *)

#[warnings="-register-all"] Inductive sexp : Type :=
  | Data (d : string)
  | SList (l : list sexp).

(** libgcrypt never hands out the empty list: it is returned as NULL. *)
Definition normalize (s : sexp) : option sexp :=
  match s with
  | SList [] => None
  | _ => Some s
  end.

(** [gcry_sexp_length]: the number of elements of the list; 0 for NULL. *)
Definition gcry_sexp_length (list : option sexp) : nat :=
  match list with
  | Some (SList l) => length l
  | _ => 0
  end.

(** [gcry_sexp_nth_data(list, number, &datalen)]: the data of element
    [number] if that element is data, NULL (with [datalen = 0]) if there
    is no such element or it is a list. *)
Definition gcry_sexp_nth_data (list : option sexp) (number : nat) : option string :=
  match list with
  | None => None
  | Some (Data d) => if number is 0 then Some d else None
  | Some (SList l) => if l !! number is Some (Data d) then Some d else None
  end.

(** [gcry_sexp_nth(list, number)]: element [number] as an S-expression
    of its own; a data element comes back as a one-element list. *)
Definition gcry_sexp_nth (list : option sexp) (number : nat) : option sexp :=
  match list with
  | Some (SList l) =>
      match l !! number with
      | Some (Data d) => Some (SList [Data d])
      | Some (SList l') => normalize (SList l')
      | None => None
      end
  | _ => None
  end.

Definition headed_by (tok : string) (l : list sexp) : bool :=
  match l with
  | Data d :: _ => bool_decide (d = tok)
  | _ => false
  end.

(** [gcry_sexp_find_token(list, tok, 0)]: the first sublist, in textual
    order and at any depth, whose first element is the data [tok]. *)
Fixpoint find_token (s : sexp) (tok : string) : option sexp :=
  match s with
  | Data _ => None
  | SList l =>
      if headed_by tok l then Some s
      else
        (fix scan (l : list sexp) : option sexp :=
           match l with
           | [] => None
           | x :: l' => if find_token x tok is Some r then Some r else scan l'
           end) l
  end.

Definition gcry_sexp_find_token (list : option sexp) (tok : string) : option sexp :=
  s ← list; find_token s tok.

(** [gcry_sexp_build(&r, NULL, "(tag %s)", arg)]. *)
Definition gcry_sexp_build_1 (tag arg : string) : sexp :=
  SList [Data tag; Data arg].

(** What [privkey.c] needs from libgcrypt beyond the tree accessors, and
    from [proto.c]: the parser and the printer of the textual form, DSA
    key generation, and the derivation of the public key. *)
Class Gcrypt := {
  (** [gcry_sexp_new(&r, buf, len, 0)] *)
  gcry_sexp_new : string → outcome sexp;
  (** [gcry_sexp_sprint(sexp, GCRYSEXP_FMT_ADVANCED, ...)] *)
  gcry_sexp_sprint : option sexp → string;
  (** [gcry_pk_genkey(&key, parms)] *)
  gcry_pk_genkey : sexp → outcome sexp;
  (** [otrl_proto_make_pubkey(&pubkey_data, &pubkey_datalen, privkey)] *)
  otrl_proto_make_pubkey : option sexp → outcome (list byte)
}.

(** ** The registry of private keys

    The [PrivKey] structures live in a heap; [next] is a possibly-NULL
    pointer to a structure, [tous] the address of the pointer that points
    to this structure: [&us->privkey_root] or [&q->next]. *)

Definition loc := positive.

Inductive slot : Type :=
  | RootSlot
  | NextSlot (q : loc).

Global Instance slot_eq_dec : EqDecision slot.
Proof. solve_decision. Defined.

Record PrivKey := MkPrivKey {
  accountname : string;
  protocol : string;
  privkey : option sexp;
  pubkey_data : option (list byte);   (* None: not yet filled in *)
  next : option loc;
  tous : slot
}.

Record memory := Memory {
  privkey_root : option loc;          (* us->privkey_root *)
  nodes : gmap loc PrivKey
}.

Definition set_next (v : option loc) (k : PrivKey) : PrivKey :=
  MkPrivKey (accountname k) (protocol k) (privkey k) (pubkey_data k) v (tous k).

Definition set_tous (t : slot) (k : PrivKey) : PrivKey :=
  MkPrivKey (accountname k) (protocol k) (privkey k) (pubkey_data k) (next k) t.

Definition set_pubkey (d : list byte) (k : PrivKey) : PrivKey :=
  MkPrivKey (accountname k) (protocol k) (privkey k) (Some d) (next k) (tous k).

(** [*t = v] for a [PrivKey **t]. *)
Definition store_slot (t : slot) (v : option loc) (m : memory) : memory :=
  match t with
  | RootSlot => Memory v (nodes m)
  | NextSlot q => Memory (privkey_root m) (alter (set_next v) q (nodes m))
  end.

(** otrl_privkey_forget.  Called on a pointer that is not a live
    structure the C code is undefined; the model then leaves the memory
    as it is. *)
Definition otrl_privkey_forget (p : loc) (m : memory) : memory :=
  match nodes m !! p with
  | None => m
  | Some k =>
      (* Re-link the list *)
      let m := store_slot (tous k) (next k) m in
      let m :=
        match next k with
        | Some n => Memory (privkey_root m) (alter (set_tous (tous k)) n (nodes m))
        | None => m
        end in
      (* Free the privkey struct *)
      Memory (privkey_root m) (delete p (nodes m))
  end.

(** otrl_privkey_forget_all: [while (us->privkey_root) ...]. *)
Fixpoint forget_all_loop (fuel : nat) (m : memory) : memory :=
  match fuel with
  | O => m
  | S fuel' =>
      match privkey_root m with
      | None => m
      | Some p => forget_all_loop fuel' (otrl_privkey_forget p m)
      end
  end.

Definition otrl_privkey_forget_all (m : memory) : memory :=
  forget_all_loop (size (nodes m)) m.

(** otrl_privkey_find: [for(p=us->privkey_root; p; p=p->next)]. *)
Fixpoint find_loop (fuel : nat) (h : gmap loc PrivKey) (p : option loc)
    (acc proto : string) : option loc :=
  match fuel, p with
  | S fuel', Some l =>
      match h !! l with
      | Some k =>
          if bool_decide (accountname k = acc) && bool_decide (protocol k = proto)
          then Some l
          else find_loop fuel' h (next k) acc proto
      | None => None
      end
  | _, _ => None
  end.

Definition otrl_privkey_find (m : memory) (acc proto : option string) : option loc :=
  match acc, proto with
  | Some acc, Some proto =>
      find_loop (size (nodes m)) (nodes m) (privkey_root m) acc proto
  | _, _ => None      (* if (!accountname || !protocol) return NULL; *)
  end.

(** [malloc] of a [PrivKey]: an address no live structure has. *)
Definition malloc (m : memory) : loc := fresh (dom (nodes m)).

(** ** otrl_privkey_read *)

Section key_files.
Context {G : Gcrypt}.

(** The body of the [for] loop on the i-th "account" S-expression. *)
Definition read_account (accounts : option sexp) (m : memory) : gcry_error * memory :=
  (* It's really an "account" S-exp? *)
  if decide (gcry_sexp_nth_data accounts 0 ≠ Some "account") then
    (GPG_ERR_UNUSABLE_SECKEY, m)
  else
  (* Extract the name, protocol, and privkey S-exps *)
  let names := gcry_sexp_find_token accounts "name" in
  let protos := gcry_sexp_find_token accounts "protocol" in
  let privs := gcry_sexp_find_token accounts "private-key" in
  if decide (names = None ∨ protos = None ∨ privs = None) then
    (GPG_ERR_UNUSABLE_SECKEY, m)
  else
  (* Extract the actual name and protocol *)
  match gcry_sexp_nth_data names 1 with
  | None => (GPG_ERR_UNUSABLE_SECKEY, m)
  | Some token =>
  let name := cstring (chars_of_string token) in
  match gcry_sexp_nth_data protos 1 with
  | None => (GPG_ERR_UNUSABLE_SECKEY, m)
  | Some token =>
  let proto := cstring (chars_of_string token) in
  (* Make a new PrivKey entry *)
  let p := malloc m in
  (* Fill it in and link it up *)
  let k := MkPrivKey name proto privs None (privkey_root m) RootSlot in
  let h := <[p:=k]> (nodes m) in
  let h :=
    match next k with
    | Some n => alter (set_tous (NextSlot p)) n h
    | None => h
    end in
  let m := Memory (Some p) h in
  match otrl_proto_make_pubkey privs with
  | Done d => (GPG_ERR_NO_ERROR, Memory (privkey_root m) (alter (set_pubkey d) p (nodes m)))
  | Failed _ => (GPG_ERR_UNUSABLE_SECKEY, otrl_privkey_forget p m)
  end
  end end.

(** [for(i=1; i<gcry_sexp_length(allkeys); ++i)], with [todo] iterations
    left. *)
Fixpoint read_accounts (allkeys : option sexp) (todo i : nat) (m : memory)
  : gcry_error * memory :=
  match todo with
  | O => (GPG_ERR_NO_ERROR, m)
  | S todo' =>
      match read_account (gcry_sexp_nth allkeys i) m with
      | (GPG_ERR_NO_ERROR, m') => read_accounts allkeys todo' (S i) m'
      | failure => failure
      end
  end.

Definition otrl_privkey_read (w : world) (m : memory) (filename : string)
  : gcry_error * world * memory :=
  (* Release any old ideas we had about our keys *)
  let m := otrl_privkey_forget_all m in
  match fopen_read w filename with
  | (None, w) => (gcry_error_from_errno (w_errno w), w, m)
  | (Some buf, w) =>
  (* fread(buf, st.st_size, 1, privf) != 1: one item of st_size bytes;
     none is read from an empty file, and errno is then a stale one *)
  if decide (buf = EmptyString) then (gcry_error_from_errno (w_errno w), w, m)
  else
  match gcry_sexp_new buf with
  | Failed code => (GPG_ERR_LIBRARY code, w, m)
  | Done allkeys =>
  let allkeys := Some allkeys in
  if decide (gcry_sexp_nth_data allkeys 0 ≠ Some "privkeys") then
    (GPG_ERR_UNUSABLE_SECKEY, w, m)
  else
    (* Get each account *)
    let '(err, m) := read_accounts allkeys (gcry_sexp_length allkeys - 1) 1 m in
    (err, w, m)
  end end.

(** ** otrl_privkey_generate *)

Definition sexp_write (w : world) (privf : string) (s : option sexp) : world :=
  fputs w privf (gcry_sexp_sprint s).

(** [gcry_sexp_build] and [sexp_write] fail only for lack of memory, so
    every step is taken; the caller ignores the value returned. *)
Definition account_write (w : world) (privf : string) (accountname protocol : string)
    (privkey : option sexp) : world :=
  let w := fputs w privf (" (account" +:+ String LF EmptyString) in
  let names := gcry_sexp_build_1 "name" accountname in
  let w := sexp_write w privf (Some names) in
  let protos := gcry_sexp_build_1 "protocol" protocol in
  let w := sexp_write w privf (Some protos) in
  let w := sexp_write w privf privkey in
  fputs w privf (" )" +:+ String LF EmptyString).

(** [for (p=us->privkey_root; p; p=p->next)]: output the other keys we
    know. *)
Fixpoint write_other_keys (fuel : nat) (h : gmap loc PrivKey) (p : option loc)
    (w : world) (privf : string) (acc proto : string) : world :=
  match fuel, p with
  | S fuel', Some l =>
      match h !! l with
      | Some k =>
          (* Skip this one if our new key replaces it *)
          if bool_decide (accountname k = acc) && bool_decide (protocol k = proto)
          then write_other_keys fuel' h (next k) w privf acc proto
          else
            let w := account_write w privf (accountname k) (protocol k) (privkey k) in
            write_other_keys fuel' h (next k) w privf acc proto
      | None => w
      end
  | _, _ => w
  end.

Definition parmstr : string := "(genkey (dsa (nbits 4:1024)))".

Definition otrl_privkey_generate (w : world) (m : memory) (filename : string)
    (acc proto : string) : gcry_error * world * memory :=
  (* Create a DSA key *)
  match gcry_sexp_new parmstr with
  | Failed code => (GPG_ERR_LIBRARY code, w, m)
  | Done parms =>
  match gcry_pk_genkey parms with
  | Failed code => (GPG_ERR_LIBRARY code, w, m)
  | Done key =>
  (* Extract the privkey *)
  let privkey := gcry_sexp_find_token (Some key) "private-key" in
  (* Output the other keys we know *)
  match fopen_write w filename with
  | (false, w) => (gcry_error_from_errno (w_errno w), w, m)
  | (true, w) =>
  let w := fputs w filename ("(privkeys" +:+ String LF EmptyString) in
  let w := write_other_keys (size (nodes m)) (nodes m) (privkey_root m) w filename acc proto in
  let w := account_write w filename acc proto privkey in
  let w := fputs w filename (")" +:+ String LF EmptyString) in
  otrl_privkey_read w m filename
  end end end.

End key_files.

(** ** A reference instance of the interface

    A small implementation of [Gcrypt], used to run the model on concrete
    key files: the textual form restricted to parentheses and unquoted
    tokens separated by white space, a key generator that returns a fixed
    key, and a public-key derivation that wants the p, q, g and y values
    of a DSA key. *)

Module RefGcrypt.

Inductive token : Type :=
  | TOpen
  | TClose
  | TAtom (a : string).

Definition flush (cur : list ascii) (ts : list token) : list token :=
  if cur is [] then ts else TAtom (string_of_chars (rev cur)) :: ts.

Definition is_space (c : ascii) : bool :=
  bool_decide (c = SPACE) || bool_decide (c = LF) || bool_decide (c = TAB) || bool_decide (c = CR).

Fixpoint tokenize (s : string) (cur : list ascii) : list token :=
  match s with
  | EmptyString => flush cur []
  | String c s' =>
      if bool_decide (c = "("%char) then flush cur (TOpen :: tokenize s' [])
      else if bool_decide (c = ")"%char) then flush cur (TClose :: tokenize s' [])
      else if is_space c then flush cur (tokenize s' [])
      else tokenize s' (c :: cur)
  end.

(** [cur] holds the elements of the list being read, last first; [stack]
    the enclosing lists. *)
Fixpoint parse_tokens (ts : list token) (stack : list (list sexp)) (cur : list sexp)
  : option (list sexp) :=
  match ts with
  | [] => if stack is [] then Some (rev cur) else None
  | TOpen :: ts' => parse_tokens ts' (cur :: stack) []
  | TClose :: ts' =>
      match stack with
      | [] => None
      | parent :: stack' => parse_tokens ts' stack' (SList (rev cur) :: parent)
      end
  | TAtom a :: ts' => parse_tokens ts' stack (Data a :: cur)
  end.

Definition sexp_new (buf : string) : outcome sexp :=
  match parse_tokens (tokenize buf []) [] [] with
  | Some [SList (x :: l)] => Done (SList (x :: l))
  | _ => Failed 1
  end.

Fixpoint print (s : sexp) : string :=
  match s with
  | Data d => d
  | SList l =>
      "(" +:+
      (fix items (l : list sexp) : string :=
         match l with
         | [] => EmptyString
         | x :: l' => print x +:+ (if l' is [] then EmptyString else " ") +:+ items l'
         end) l
      +:+ ")"
  end.

Definition sexp_sprint (s : option sexp) : string :=
  match s with
  | Some s => print s +:+ String LF EmptyString
  | None => EmptyString
  end.

(** A DSA key with public value [y]; the secret [x] comes last. *)
Definition dsa_key (y : string) (secret : bool) : sexp :=
  SList ([Data "dsa";
          SList [Data "p"; Data "#00F1#"]; SList [Data "q"; Data "#00E3#"];
          SList [Data "g"; Data "#5A#"]; SList [Data "y"; Data y]]
         ++ if secret then [SList [Data "x"; Data "#2B#"]] else []).

Definition pk_genkey (parms : sexp) : outcome sexp :=
  Done (SList [Data "key-data";
               SList [Data "public-key"; dsa_key "#7C#" false];
               SList [Data "private-key"; dsa_key "#7C#" true]]).

Definition bytes_of_string (s : string) : list byte :=
  map byte_of_ascii (chars_of_string s).

(** The public key wants the "dsa" list of the key and its p, q, g and
    y values. *)
Definition make_pubkey (privkey : option sexp) : outcome (list byte) :=
  let dsa := gcry_sexp_find_token privkey "dsa" in
  let value := λ tok, gcry_sexp_nth_data (gcry_sexp_find_token dsa tok) 1 in
  match value "p", value "q", value "g", value "y" with
  | Some p, Some q, Some g, Some y => Done (bytes_of_string (p +:+ q +:+ g +:+ y))
  | _, _, _, _ => Failed 1
  end.

Definition gcrypt : Gcrypt :=
  {| gcry_sexp_new := sexp_new;
     gcry_sexp_sprint := sexp_sprint;
     gcry_pk_genkey := pk_genkey;
     otrl_proto_make_pubkey := make_pubkey |}.

End RefGcrypt.

Definition empty_memory : memory := Memory None ∅.

(** A world with one file, readable and writable, and room to spare. *)
Definition one_file (path data : string) : world :=
  World {[path := File data true true]} true None 0.


(** ** Specification vocabulary *)

Definition hi_digit (upper : bool) (b : byte) : ascii :=
  hex_digit upper (Byte.to_N b / 16).
Definition lo_digit (upper : bool) (b : byte) : ascii :=
  hex_digit upper (Byte.to_N b mod 16).

Definition is_upper_hex (c : ascii) : bool :=
  bool_decide (c ∈ chars_of_string "0123456789ABCDEF").
Definition is_lower_hex (c : ascii) : bool :=
  bool_decide (c ∈ chars_of_string "0123456789abcdef").

Definition has_char (c : ascii) (s : string) : Prop := c ∈ chars_of_string s.

Global Instance has_char_dec c s : Decision (has_char c s).
Proof. unfold has_char. apply _. Defined.

(** A stream that is empty or ends with a newline. *)
Fixpoint lf_terminated (s : string) : bool :=
  match s with
  | EmptyString => true
  | String c EmptyString => bool_decide (c = LF)
  | String _ s' => lf_terminated s'
  end.

Definition tab_line (u a p rest : string) : string :=
  u +:+ String TAB (a +:+ String TAB (p +:+ String TAB rest)).

Definition alice_line : string :=
  tab_line "alice" "bob" "xmpp"
    ("0102030405060708090a0b0c0d0e0f1011121314" +:+ String LF EmptyString).

Definition two_tab_line : string :=
  "alice" +:+ String TAB ("bob" +:+ String TAB
    ("0102030405060708090a0b0c0d0e0f1011121314" +:+ String LF EmptyString)).

Definition short_line : string :=
  tab_line "alice" "bob" "xmpp"
    ("0102030405060708090a0b0c0d0e0f101112131" +:+ String LF EmptyString).

Definition non_hex_line : string :=
  tab_line "alice" "bob" "xmpp"
    ("zzzzzzzzzzzzzzzzzzzzzzzzzzzzzzzzzzzzzzzz" +:+ String LF EmptyString).

Definition unterminated_alice : string :=
  tab_line "alice" "bob" "xmpp" "0102030405060708090a0b0c0d0e0f1011121314".


(** ** The registry as a list of records

    What the registry holds, structure by structure from
    [us->privkey_root] on: the address and the data of each [PrivKey]. *)

Record key_data := KeyData {
  kd_accountname : string;
  kd_protocol : string;
  kd_privkey : option sexp;
  kd_pubkey : option (list byte)
}.

Definition payload (k : PrivKey) : key_data :=
  KeyData (accountname k) (protocol k) (privkey k) (pubkey_data k).

Definition identity (d : key_data) : string * string :=
  (kd_accountname d, kd_protocol d).

(** [chain h t p rs]: from the pointer [p], stored in the slot [t], the
    [next] pointers lead through the structures [rs] and end in NULL, and
    every structure's [tous] is the address of the pointer that leads to
    it. *)
Fixpoint chain (h : gmap loc PrivKey) (t : slot) (p : option loc)
    (rs : list (loc * key_data)) : Prop :=
  match rs with
  | [] => p = None
  | (l, d) :: rs' =>
      p = Some l ∧
      ∃ k, h !! l = Some k ∧ tous k = t ∧ payload k = d ∧
           chain h (NextSlot l) (next k) rs'
  end.

Definition registry (m : memory) (rs : list (loc * key_data)) : Prop :=
  chain (nodes m) RootSlot (privkey_root m) rs ∧
  NoDup rs.*1 ∧
  ∀ l, is_Some (nodes m !! l) ↔ l ∈ rs.*1.

(** The first record of [rs] with the given identity. *)
Fixpoint first_with (acc proto : string) (rs : list (loc * key_data)) : option loc :=
  match rs with
  | [] => None
  | (l, d) :: rs' =>
      if bool_decide (identity d = (acc, proto)) then Some l
      else first_with acc proto rs'
  end.

(** The heap once the structure [k] at [p] has been unlinked and freed. *)
Definition unlinked (h : gmap loc PrivKey) (p : loc) (k : PrivKey) : gmap loc PrivKey :=
  let h := if tous k is NextSlot q then alter (set_next (next k)) q h else h in
  let h := if next k is Some n then alter (set_tous (tous k)) n h else h in
  delete p h.


(** ** What a key file holds *)

Section key_file.
Context {G : Gcrypt}.

(** The name, protocol and key of an "account" S-expression that passes
    the structural checks of the loop body. *)
Definition account_entry (accounts : option sexp)
  : option (string * string * option sexp) :=
  if decide (gcry_sexp_nth_data accounts 0 = Some "account") then
    let names := gcry_sexp_find_token accounts "name" in
    let protos := gcry_sexp_find_token accounts "protocol" in
    let privs := gcry_sexp_find_token accounts "private-key" in
    if decide (is_Some names ∧ is_Some protos ∧ is_Some privs) then
      name ← gcry_sexp_nth_data names 1;
      proto ← gcry_sexp_nth_data protos 1;
      Some (cstring (chars_of_string name), cstring (chars_of_string proto), privs)
    else None
  else None.

(** The record the loop body links for an "account" S-expression, when
    it links one. *)
Definition account_record (accounts : option sexp) : option key_data :=
  '(name, proto, privs) ← account_entry accounts;
  match otrl_proto_make_pubkey privs with
  | Done d => Some (KeyData name proto privs (Some d))
  | Failed _ => None
  end.

(** The same, as the list of conditions the loop body tests. *)
Definition entry_usable (accounts : option sexp) : Prop :=
  gcry_sexp_nth_data accounts 0 = Some "account" ∧
  is_Some (gcry_sexp_find_token accounts "name") ∧
  is_Some (gcry_sexp_find_token accounts "protocol") ∧
  is_Some (gcry_sexp_find_token accounts "private-key") ∧
  is_Some (gcry_sexp_nth_data (gcry_sexp_find_token accounts "name") 1) ∧
  is_Some (gcry_sexp_nth_data (gcry_sexp_find_token accounts "protocol") 1) ∧
  ∃ d, otrl_proto_make_pubkey (gcry_sexp_find_token accounts "private-key") = Done d.

(** The records of the entries that precede the first unusable one. *)
Fixpoint usable_prefix (entries : list (option sexp)) : list key_data :=
  match entries with
  | [] => []
  | e :: entries' =>
      match account_record e with
      | Some d => d :: usable_prefix entries'
      | None => []
      end
  end.

(** Elements [i], [i+1], ... ([n] of them) of the document. *)
Definition accounts_from (allkeys : option sexp) (i n : nat) : list (option sexp) :=
  gcry_sexp_nth allkeys <$> seq i n.

(** The elements after the "privkeys" token. *)
Definition accounts_of (allkeys : option sexp) : list (option sexp) :=
  accounts_from allkeys 1 (gcry_sexp_length allkeys - 1).

(** The document of a key file, when the file can be opened, is not
    empty and parses. *)
Definition key_file_sexp (w : world) (filename : string) : option sexp :=
  match fopen_read w filename with
  | (Some buf, _) =>
      if decide (buf = EmptyString) then None
      else if gcry_sexp_new buf is Done allkeys then Some allkeys else None
  | (None, _) => None
  end.

(** The entries of a key file as the loader takes them: the text is
    parsed, the outer token checked, and the name, protocol and key of
    each entry extracted.  [None] when the text does not parse or a
    structural check fails. *)
Definition key_file_entries (buf : string)
  : option (list (string * string * option sexp)) :=
  match gcry_sexp_new buf with
  | Done allkeys =>
      if decide (gcry_sexp_nth_data (Some allkeys) 0 = Some "privkeys")
      then mapM account_entry (accounts_of (Some allkeys))
      else None
  | Failed _ => None
  end.

(** The records [otrl_privkey_read] leaves in the registry: those of the
    entries before the first unusable one, when the document is a
    "privkeys" list, and none otherwise. *)
Definition loaded_records (w : world) (filename : string) : list key_data :=
  match key_file_sexp w filename with
  | Some allkeys =>
      if decide (gcry_sexp_nth_data (Some allkeys) 0 = Some "privkeys")
      then usable_prefix (accounts_of (Some allkeys))
      else []
  | None => []
  end.

End key_file.

(** ** What key generation writes *)

Section key_file_text.
Context {G : Gcrypt}.

(** The name, protocol and key written for a record. *)
Definition entry_of (d : key_data) : string * string * option sexp :=
  (kd_accountname d, kd_protocol d, kd_privkey d).

(** The text [account_write] emits. *)
Definition account_text (e : string * string * option sexp) : string :=
  let '(acc, proto, key) := e in
  (" (account" +:+ String LF EmptyString) +:+
  gcry_sexp_sprint (Some (gcry_sexp_build_1 "name" acc)) +:+
  gcry_sexp_sprint (Some (gcry_sexp_build_1 "protocol" proto)) +:+
  gcry_sexp_sprint key +:+
  (" )" +:+ String LF EmptyString).

Fixpoint texts (l : list string) : string :=
  match l with
  | [] => EmptyString
  | t :: l' => t +:+ texts l'
  end.

(** The text of a whole key file. *)
Definition key_file_text (entries : list (string * string * option sexp)) : string :=
  ("(privkeys" +:+ String LF EmptyString) +:+
  texts (account_text <$> entries) +:+
  (")" +:+ String LF EmptyString).

(** The S-expression that text stands for. *)
Definition account_tree (e : string * string * option sexp) : sexp :=
  let '(acc, proto, key) := e in
  SList ([Data "account"; gcry_sexp_build_1 "name" acc;
          gcry_sexp_build_1 "protocol" proto] ++ option_list key).

Definition key_file_tree (entries : list (string * string * option sexp)) : sexp :=
  SList (Data "privkeys" :: (account_tree <$> entries)).

(** The records generation writes before the new one: those with another
    identity. *)
Definition other_entries (acc proto : string) (rs : list (loc * key_data))
  : list (string * string * option sexp) :=
  entry_of <$> filter (λ d, identity d ≠ (acc, proto)) rs.*2.

(** What is in a file when [text] has been written to it from its
    start: all of it, or what the device had room for. *)
Definition fit (space : option nat) (text : string) : string :=
  match space with
  | None => text
  | Some room => take_chars room text
  end.

(** The world when [text] has been written to the truncated file
    [path], starting from the world [w]. *)
Definition written (w : world) (path : string) (r wr : bool) (text : string) : world :=
  World (<[path:=File (fit (room_once_open w path) text) r wr]> (w_files w))
        (w_dir_writable w)
        (if room_once_open w path is Some room
         then Some (room - String.length text) else None)
        (if room_once_open w path is Some room
         then if decide (String.length text ≤ room) then w_errno w else ENOSPC
         else w_errno w).

(** A key as [otrl_privkey_read] stores it: a "private-key" list; and
    names as C strings. *)
Definition record_wellformed (d : key_data) : Prop :=
  (∃ l, kd_privkey d = Some (SList (Data "private-key" :: l))) ∧
  ¬ has_char NUL (kd_accountname d) ∧ ¬ has_char NUL (kd_protocol d).

End key_file_text.

(** ** Example key files *)

Definition key_path : string := "otr.private_key".

Definition dsa_text (y : string) : string :=
  "(dsa (p #00F1#) (q #00E3#) (g #5A#) (y " +:+ y +:+ ") (x #2B#))".

Definition account_of (name proto y : string) : string :=
  "(account (name " +:+ name +:+ ") (protocol " +:+ proto +:+ ") (private-key "
    +:+ dsa_text y +:+ "))".

Definition alice_account : string := account_of "alice" "xmpp" "#12#".

Definition bob_account : string := account_of "bob" "irc" "#34#".

(** Two usable entries with different identities. *)
Definition two_keys_file : string :=
  "(privkeys " +:+ alice_account +:+ " " +:+ bob_account +:+ ")".

(** A usable entry followed by one without a key. *)
Definition bad_second_file : string :=
  "(privkeys " +:+ alice_account +:+ " (account (name bob) (protocol irc)))".

(** Two usable entries with the same accountname and protocol. *)
Definition duplicates_file : string :=
  "(privkeys " +:+ alice_account +:+ " " +:+ account_of "alice" "xmpp" "#56#" +:+ ")".

(** An entry with all three elements, whose name element has no value. *)
Definition valueless_name_file : string :=
  "(privkeys (account (name) (protocol xmpp) (private-key " +:+ dsa_text "#12#" +:+ ")))".

(** An entry complete in form, whose key lacks the q, g and y values. *)
Definition unusable_key_file : string :=
  "(privkeys (account (name alice) (protocol xmpp) (private-key (dsa (p #00F1#)))))".

Definition load_file (data : string) : gcry_error * world * memory :=
  otrl_privkey_read (G := RefGcrypt.gcrypt) (one_file key_path data) (Memory None ∅) key_path.

Definition key_of (y : string) : option sexp :=
  Some (SList [Data "private-key"; RefGcrypt.dsa_key y true]).

Definition pubkey_of (y : string) : option (list byte) :=
  Some (RefGcrypt.bytes_of_string ("#00F1#" +:+ "#00E3#" +:+ "#5A#" +:+ y)).

Definition alice_data : key_data := KeyData "alice" "xmpp" (key_of "#12#") (pubkey_of "#12#").

Definition bob_data : key_data := KeyData "bob" "irc" (key_of "#34#") (pubkey_of "#34#").

(** The registry after loading [two_keys_file]: bob, loaded last, first. *)
Definition two_keys_memory : memory := (load_file two_keys_file).2.

Definition two_keys_records : list (loc * key_data) :=
  [(2%positive, bob_data); (1%positive, alice_data)].

(** A full device, holding alice's key file. *)
Definition full_disk : world :=
  World {[key_path := File ("(privkeys " +:+ alice_account +:+ ")") true true]} true (Some 0) 0.

Definition generate_in (w : world) (m : memory) (acc proto : string)
  : gcry_error * world * memory :=
  otrl_privkey_generate (G := RefGcrypt.gcrypt) w m key_path acc proto.

(** What the reference key generator returns. *)
Definition new_key : sexp :=
  SList [Data "key-data";
         SList [Data "public-key"; RefGcrypt.dsa_key "#7C#" false];
         SList [Data "private-key"; RefGcrypt.dsa_key "#7C#" true]].

Definition genkey_parms : sexp :=
  SList [Data "genkey"; SList [Data "dsa"; SList [Data "nbits"; Data "4:1024"]]].
(** ** otrl_privkey_write_fingerprints

    [ConnContext] and [Fingerprint] are declared in context.h.  What
    this file reads of them is modelled: the contexts from
    [us->context_root] on, as a list, and of each its username,
    accountname and protocol and the fingerprints that follow the
    fingerprintless head of its list ([fingerprint_root.next] and on),
    each an array of 20 bytes. *)

Module ConnContext.
Record t := Make {
  username : string;
  accountname : string;
  protocol : string;
  fingerprints : list (list byte)
}.
End ConnContext.

(** One fingerprint: the names and tabs, twenty "%02x", a newline. *)
Definition write_fingerprint (w : world) (storef : string) (context : ConnContext.t)
    (fprint : list byte) : world :=
  let w := fputs w storef
    (ConnContext.username context +:+ String TAB
       (ConnContext.accountname context +:+ String TAB
          (ConnContext.protocol context +:+ String TAB EmptyString))) in
  let w := for_upto 20 (fun i w =>
    fputs w storef (fmt_02x false (Byte.to_N (default x00 (fprint !! i))))) w in
  fputs w storef (String LF EmptyString).

(** [for (fprint = context->fingerprint_root.next; fprint; fprint = fprint->next)] *)
Fixpoint write_context_fingerprints (w : world) (storef : string)
    (context : ConnContext.t) (fprints : list (list byte)) : world :=
  match fprints with
  | [] => w
  | fprint :: fprints' =>
      write_context_fingerprints (write_fingerprint w storef context fprint)
        storef context fprints'
  end.

(** [for(context = us->context_root; context; context = context->next)] *)
Fixpoint write_contexts (w : world) (storef : string) (contexts : list ConnContext.t)
  : world :=
  match contexts with
  | [] => w
  | context :: contexts' =>
      (* Don't both with the first (fingerprintless) entry. *)
      let w := write_context_fingerprints w storef context
                 (ConnContext.fingerprints context) in
      write_contexts w storef contexts'
  end.

Definition otrl_privkey_write_fingerprints (w : world) (context_root : list ConnContext.t)
    (filename : string) : gcry_error * world :=
  match fopen_write w filename with
  | (false, w) => (gcry_error_from_errno (w_errno w), w)
  | (true, w) => (GPG_ERR_NO_ERROR, write_contexts w filename context_root)
  end.

(** May the file at [path] be read once it has been opened for writing?
    An existing file keeps its permissions, a new one is the owner's. *)
Definition readable_once_open (w : world) (path : string) : bool :=
  from_option f_readable true (w_files w !! path).

(** The line written for one fingerprint, the text of a whole store,
    and the entries a store holds, in the order they are written. *)
Definition store_line (context : ConnContext.t) (fprint : list byte) : string :=
  tab_line (ConnContext.username context) (ConnContext.accountname context)
    (ConnContext.protocol context) (bytes_to_hex 20 fprint +:+ String LF EmptyString).

Definition store_text (contexts : list ConnContext.t) : string :=
  texts (contexts ≫= λ context, store_line context <$> ConnContext.fingerprints context).

Definition store_entries (contexts : list ConnContext.t) : list store_entry :=
  contexts ≫= λ context,
    StoreEntry (ConnContext.username context) (ConnContext.accountname context)
      (ConnContext.protocol context) <$> ConnContext.fingerprints context.

(** A field as the loader can hand it over: no tab, no NUL, no newline. *)
Definition field_clean (name : string) : Prop :=
  ¬ has_char TAB name ∧ ¬ has_char NUL name ∧ ¬ has_char LF name.

(** A name the store format can carry: no tab, no line end, no NUL. *)
Definition plain_name (s : string) : Prop :=
  ¬ has_char TAB s ∧ ¬ has_char CR s ∧ ¬ has_char LF s ∧ ¬ has_char NUL s.

(** A context whose lines survive the store: plain names, 20-byte
    fingerprints, and lines that fit the 1000-byte line buffer. *)
Definition context_storable (context : ConnContext.t) : Prop :=
  plain_name (ConnContext.username context) ∧
  plain_name (ConnContext.accountname context) ∧
  plain_name (ConnContext.protocol context) ∧
  Forall (λ fprint, length fprint = 20) (ConnContext.fingerprints context) ∧
  String.length (ConnContext.username context) +
  String.length (ConnContext.accountname context) +
  String.length (ConnContext.protocol context) + 44 ≤ 999.

(** The content of the loader's buffer after the fingerprints [fprints]
    have been decoded into it, one after the other. *)
Definition last_default (fingerprint : list byte) (fprints : list (list byte))
  : list byte :=
  default fingerprint (last fprints).

(** Two contexts, the first with two fingerprints. *)
Definition two_contexts : list ConnContext.t :=
  [ConnContext.Make "alice" "bob" "xmpp"
     [[x01; x02; x03; x04; x05; x06; x07; x08; x09; x0a;
       x0b; x0c; x0d; x0e; x0f; x10; x11; x12; x13; x14];
      replicate 20 xff];
   ConnContext.Make "carol" "bob" "irc" [replicate 20 x00]].

(** ** otrl_privkey_fingerprint *)

(** [gcry_md_hash_buffer(GCRY_MD_SHA1, hash, data, len)]: the digest of
    a buffer, a parameter as the rest of the cryptography. *)
Class GcryptMd := {
  gcry_md_hash_buffer : list byte → list byte
}.

(** The result is the pointer returned (NULL as [None]) and the
    [fingerprint] buffer as the call leaves it.  [otrl_privkey_find]
    returns NULL or a live structure; for an address that is not live
    the model returns NULL. *)
Definition otrl_privkey_fingerprint {Md : GcryptMd} (m : memory) (fingerprint : list ascii)
    (acc proto : option string) : option (list ascii) * list ascii :=
  match otrl_privkey_find m acc proto with
  | Some p =>
      match nodes m !! p with
      | Some k =>
          (* Calculate the hash *)
          let hash := gcry_md_hash_buffer (default [] (pubkey_data k)) in
          (* Now convert it to a human-readable format *)
          let fingerprint := otrl_privkey_hash_to_human fingerprint hash in
          (Some fingerprint, fingerprint)
      | None => (None, fingerprint)
      end
  | None => (None, fingerprint)
  end.

(** A stand-in digest to run the model on examples: the first 20 bytes
    of the data, padded with zeros. *)
Definition ref_md : GcryptMd :=
  {| gcry_md_hash_buffer := λ data, take 20 (data ++ replicate 20 x00) |}.

(** An "account" entry complete in form whose key lacks the q, g and y
    values: the loop body links a structure for it and forgets it. *)
Definition keyless_entry : option sexp :=
  Some (SList [Data "account"; SList [Data "name"; Data "alice"];
               SList [Data "protocol"; Data "xmpp"];
               SList [Data "private-key";
                      SList [Data "dsa"; SList [Data "p"; Data "#00F1#"]]]]).

(** ** Reading a slot *)

(** [*t] for a [PrivKey **t]. *)
Definition load_slot (t : slot) (m : memory) : option loc :=
  match t with
  | RootSlot => privkey_root m
  | NextSlot q => k ← nodes m !! q; next k
  end.

(** Every live structure is the target of the pointer its [tous]
    designates. *)
Definition back_pointers (m : memory) : Prop :=
  ∀ l k, nodes m !! l = Some k → load_slot (tous k) m = Some l.

(** No pointer leads to freed memory: [us->privkey_root] and every
    [next] are NULL or the address of a live structure. *)
Definition heap_closed (m : memory) : Prop :=
  (∀ p, privkey_root m = Some p → is_Some (nodes m !! p)) ∧
  ∀ l k n, nodes m !! l = Some k → next k = Some n → is_Some (nodes m !! n).

(** The public key a record caches is the one derived from its key. *)
Definition record_consistent `{Gcrypt} (d : key_data) : Prop :=
  ∃ pub, kd_pubkey d = Some pub ∧ otrl_proto_make_pubkey (kd_privkey d) = Done pub.

(** ** The text of an S-expression

    [privkey.c] writes the frame of the key file by hand: "(privkeys",
    " (account", " )" and ")", each followed by a newline, around what
    libgcrypt prints.  [sexp_text s t]: the string [t] is a text of the
    S-expression [s], either what [gcry_sexp_sprint] gave for [s], or a
    list written out as an open parenthesis, a token, white space, the
    texts of the other elements and a close parenthesis, with white
    space allowed before and after the parentheses. *)

Definition is_white (c : ascii) : bool :=
  bool_decide (c = SPACE) || bool_decide (c = LF).

Definition white (s : string) : Prop :=
  Forall (λ c, is_white c = true) (chars_of_string s).

(** A token that needs no quoting: lowercase letters and hyphens. *)
Definition is_token_char (c : ascii) : bool :=
  ((97 <=? N_of_ascii c)%N && (N_of_ascii c <=? 122)%N) || bool_decide (c = "-"%char).

Definition plain_token (tok : string) : Prop :=
  tok ≠ EmptyString ∧ Forall (λ c, is_token_char c = true) (chars_of_string tok).

Section sexp_texts.
Context {G : Gcrypt}.

#[warnings="-register-all"] Inductive sexp_text : sexp → string → Prop :=
  | text_printed (s : sexp) : sexp_text s (gcry_sexp_sprint (Some s))
  | text_list (tok : string) (items : list sexp) (item_texts : list string)
      (before after_token before_close after : string) :
      plain_token tok →
      white before → white after_token → after_token ≠ EmptyString →
      white before_close → white after →
      Forall2 sexp_text items item_texts →
      sexp_text (SList (Data tok :: items))
        (before +:+ "(" +:+ tok +:+ after_token +:+ texts item_texts +:+
         before_close +:+ ")" +:+ after).

End sexp_texts.

(** * Proofs *)

(** ** The fingerprint formats *)

Lemma fmt_02x_byte upper b :
  fmt_02x upper (Byte.to_N b) = String (hi_digit upper b) (String (lo_digit upper b) EmptyString).
Proof. destruct upper, b; reflexivity. Qed.

Lemma hex_pair_digits upper b : hex_pair (hi_digit upper b) (lo_digit upper b) = b.
Proof. destruct upper, b; reflexivity. Qed.

Lemma hi_digit_upper b : is_upper_hex (hi_digit true b) = true.
Proof. destruct b; reflexivity. Qed.

Lemma lo_digit_upper b : is_upper_hex (lo_digit true b) = true.
Proof. destruct b; reflexivity. Qed.

Lemma hi_digit_lower b : is_lower_hex (hi_digit false b) = true.
Proof. destruct b; reflexivity. Qed.

Lemma lo_digit_lower b : is_lower_hex (lo_digit false b) = true.
Proof. destruct b; reflexivity. Qed.

Lemma upper_hex_plain c : is_upper_hex c = true → c ≠ NUL ∧ c ≠ SPACE.
Proof.
  unfold is_upper_hex. intros Hc%bool_decide_eq_true.
  split; intros ->; revert Hc; apply (bool_decide_eq_false_1 _); reflexivity.
Qed.

Lemma cstring_cons c buf : c ≠ NUL → cstring (c :: buf) = String c (cstring buf).
Proof. intros Hc. simpl. by destruct (decide (c = NUL)). Qed.

Lemma cstring_hi b buf :
  cstring (hi_digit true b :: buf) = String (hi_digit true b) (cstring buf).
Proof. apply cstring_cons, upper_hex_plain, hi_digit_upper. Qed.

Lemma cstring_lo b buf :
  cstring (lo_digit true b :: buf) = String (lo_digit true b) (cstring buf).
Proof. apply cstring_cons, upper_hex_plain, lo_digit_upper. Qed.

Lemma hash_to_human_buffer (human : list ascii) (hash : list byte) :
  length human = 45 → length hash = 20 →
  ∃ b0 b1 b2 b3 b4 b5 b6 b7 b8 b9 b10 b11 b12 b13 b14 b15 b16 b17 b18 b19,
    hash = [b0; b1; b2; b3; b4; b5; b6; b7; b8; b9; b10; b11; b12; b13; b14;
            b15; b16; b17; b18; b19] ∧
    otrl_privkey_hash_to_human human hash =
      let d := λ b, [hi_digit true b; lo_digit true b] in
      d b0 ++ d b1 ++ d b2 ++ d b3 ++ [SPACE] ++
      d b4 ++ d b5 ++ d b6 ++ d b7 ++ [SPACE] ++
      d b8 ++ d b9 ++ d b10 ++ d b11 ++ [SPACE] ++
      d b12 ++ d b13 ++ d b14 ++ d b15 ++ [SPACE] ++
      d b16 ++ d b17 ++ d b18 ++ d b19 ++ [NUL].
Proof.
  intros Hhuman Hhash.
  do 20 (destruct hash as [| ? hash]; [discriminate |]).
  destruct hash; [| discriminate].
  do 45 (destruct human as [| ? human]; [discriminate |]).
  destruct human; [| discriminate].
  do 20 eexists. split; [reflexivity |].
  unfold otrl_privkey_hash_to_human, sprintf_02X.
  cbn [for_upto]. cbn [lookup list_lookup default Nat.mul Nat.add from_option id].
  rewrite !fmt_02x_byte. reflexivity.
Qed.

(** C8. For every 20-byte hash (and whatever the 45-byte buffer held
    before), the string left in [human] by [otrl_privkey_hash_to_human]
    has 44 characters; its only spaces are at offsets 8, 17, 26 and 35;
    each of the five 8-character groups between them consists of
    uppercase hexadecimal digits and decodes, with [ctoh], to the
    corresponding four bytes of the hash.  The function is total and the
    buffer keeps its 45 bytes. *)
Theorem hash_to_human_format (human : list ascii) (hash : list byte) :
  length human = 45 → length hash = 20 →
  let buffer := otrl_privkey_hash_to_human human hash in
  let s := cstring buffer in
  length buffer = 45 ∧
  String.length s = 44 ∧
  (∀ i, i < 44 → String.get i s = Some SPACE ↔ i ∈ [8; 17; 26; 35]) ∧
  (∀ word, word < 5 →
     let group := String.substring (9 * word) 8 s in
     String.length group = 8 ∧
     Forall (λ c, is_upper_hex c = true) (chars_of_string group) ∧
     hex_to_bytes 4 (replicate 4 x00) group = take 4 (drop (4 * word) hash)).
Proof.
  intros Hhuman Hhash.
  destruct (hash_to_human_buffer human hash Hhuman Hhash)
    as (b0 & b1 & b2 & b3 & b4 & b5 & b6 & b7 & b8 & b9 & b10 & b11 & b12
        & b13 & b14 & b15 & b16 & b17 & b18 & b19 & -> & ->).
  cbv beta zeta. cbn [app].
  repeat first [ rewrite cstring_hi | rewrite cstring_lo
               | rewrite (cstring_cons SPACE) by done ].
  cbn [cstring].
  split; [reflexivity |]. split; [reflexivity |]. split.
  - intros i Hi.
    do 44 (destruct i as [| i]; [
      cbn [String.get];
      first [ split; [intros _; set_solver | reflexivity]
            | split; [intros [= Hc]; exfalso;
                      first [ eapply (upper_hex_plain _ (hi_digit_upper _)), Hc
                            | eapply (upper_hex_plain _ (lo_digit_upper _)), Hc ]
                     | intros Hin; exfalso; revert Hin;
                       apply (bool_decide_eq_false_1 _); reflexivity ] ] |]).
    lia.
  - intros word Hword.
    do 5 (destruct word as [| word]; [
      cbn [Nat.mul Nat.add String.substring take drop chars_of_string String.length];
      split; [reflexivity |]; split;
      [ repeat constructor; auto using hi_digit_upper, lo_digit_upper
      | unfold hex_to_bytes, char_at; cbn [for_upto String.get default Nat.mul Nat.add from_option id];
        rewrite !hex_pair_digits; reflexivity ] |]).
    lia.
Qed.

Lemma hash_to_human_format_witness :
  cstring (otrl_privkey_hash_to_human (replicate 45 "?"%char)
             [x01;x23;x45;x67;x89;xab;xcd;xef;x00;x11;x22;x33;x44;x55;x66;x77;x88;x99;xaa;xff])
    = "01234567 89ABCDEF 00112233 44556677 8899AAFF"
  ∧ String.length
      (cstring (otrl_privkey_hash_to_human (replicate 45 "?"%char)
         [x01;x23;x45;x67;x89;xab;xcd;xef;x00;x11;x22;x33;x44;x55;x66;x77;x88;x99;xaa;xff])) = 44.
Proof.
  split; [reflexivity |].
  apply (hash_to_human_format (replicate 45 "?"%char)
    [x01;x23;x45;x67;x89;xab;xcd;xef;x00;x11;x22;x33;x44;x55;x66;x77;x88;x99;xaa;xff]);
    reflexivity.
Defined.

Lemma ctoh_hex_digit upper (d : N) : (d < 16)%N → ctoh (hex_digit upper d) = Z.of_N d.
Proof.
  intros Hd.
  assert (Hcases : d ∈ (N.of_nat <$> seq 0 16)).
  { apply list_elem_of_fmap. exists (N.to_nat d). split; [lia |].
    apply elem_of_seq. lia. }
  cbn in Hcases. destruct upper;
    repeat (apply elem_of_cons in Hcases as [-> | Hcases]; [reflexivity |]);
    by apply elem_of_nil in Hcases.
Qed.

Lemma ctoh_not_hex c : is_lower_hex c = false → is_upper_hex c = false → ctoh c = 0%Z.
Proof.
  destruct c as [[] [] [] [] [] [] [] []]; intros Hl Hu;
    first [reflexivity | discriminate Hl | discriminate Hu].
Qed.

Lemma bytes_to_hex_20 b0 b1 b2 b3 b4 b5 b6 b7 b8 b9 b10 b11 b12 b13 b14 b15 b16 b17 b18 b19 :
  bytes_to_hex 20 [b0; b1; b2; b3; b4; b5; b6; b7; b8; b9; b10; b11; b12; b13;
                   b14; b15; b16; b17; b18; b19] =
  string_of_chars
    (concat ((λ b, [hi_digit false b; lo_digit false b]) <$>
       [b0; b1; b2; b3; b4; b5; b6; b7; b8; b9; b10; b11; b12; b13;
        b14; b15; b16; b17; b18; b19])).
Proof.
  unfold bytes_to_hex. cbn [for_upto lookup list_lookup default from_option id].
  rewrite !fmt_02x_byte. reflexivity.
Qed.

(** C7. Writing a 20-byte fingerprint with "%02x" and reading it back
    with [ctoh] gives the fingerprint again; the text is exactly 40
    lowercase hexadecimal characters; [ctoh] reads a digit of either case
    as its value, and any other character as 0. *)
Theorem fingerprint_hex_roundtrip (h fingerprint : list byte) :
  length h = 20 → length fingerprint = 20 →
  let hex := bytes_to_hex 20 h in
  hex_to_bytes 20 fingerprint hex = h ∧
  String.length hex = 40 ∧
  Forall (λ c, is_lower_hex c = true) (chars_of_string hex) ∧
  (∀ upper (d : N), (d < 16)%N → ctoh (hex_digit upper d) = Z.of_N d) ∧
  (∀ c, is_lower_hex c = false → is_upper_hex c = false → ctoh c = 0%Z).
Proof.
  intros Hh Hfp hex.
  split; [| split; [| split; [| split; [apply ctoh_hex_digit | apply ctoh_not_hex]]]];
    subst hex;
    do 20 (destruct h as [| ? h]; [discriminate |]); destruct h; try discriminate;
    rewrite bytes_to_hex_20; cbn [fmap list_fmap concat app string_of_chars].
  - do 20 (destruct fingerprint as [| ? fingerprint]; [discriminate |]).
    destruct fingerprint; [| discriminate].
    unfold hex_to_bytes, char_at.
    cbn [for_upto String.get default Nat.mul Nat.add from_option id].
    rewrite !hex_pair_digits. reflexivity.
  - reflexivity.
  - cbn [chars_of_string]. repeat constructor; auto using hi_digit_lower, lo_digit_lower.
Qed.

Lemma fingerprint_hex_roundtrip_witness :
  bytes_to_hex 20 [x01;x23;x45;x67;x89;xab;xcd;xef;x00;x11;x22;x33;x44;x55;x66;x77;x88;x99;xaa;xff]
    = "0123456789abcdef00112233445566778899aaff"
  ∧ hex_to_bytes 20 (replicate 20 x00)
      (bytes_to_hex 20 [x01;x23;x45;x67;x89;xab;xcd;xef;x00;x11;x22;x33;x44;x55;x66;x77;x88;x99;xaa;xff])
    = [x01;x23;x45;x67;x89;xab;xcd;xef;x00;x11;x22;x33;x44;x55;x66;x77;x88;x99;xaa;xff].
Proof.
  split; [reflexivity |].
  apply (fingerprint_hex_roundtrip
    [x01;x23;x45;x67;x89;xab;xcd;xef;x00;x11;x22;x33;x44;x55;x66;x77;x88;x99;xaa;xff]
    (replicate 20 x00)); reflexivity.
Defined.

(** ** The trust store *)

Lemma string_app_cons c s t : String c s +:+ t = String c (s +:+ t).
Proof. reflexivity. Qed.

Lemma chars_of_string_app s t :
  chars_of_string (s +:+ t) = chars_of_string s ++ chars_of_string t.
Proof. induction s as [| c s IH]; simpl; [done | by rewrite IH]. Qed.

Lemma has_char_app c s t : has_char c (s +:+ t) ↔ has_char c s ∨ has_char c t.
Proof. unfold has_char. rewrite chars_of_string_app. apply elem_of_app. Qed.

Lemma has_char_cons c d s : has_char c (String d s) ↔ c = d ∨ has_char c s.
Proof. unfold has_char. simpl. apply elem_of_cons. Qed.

Lemma has_char_nil c : ¬ has_char c EmptyString.
Proof. unfold has_char. simpl. apply not_elem_of_nil. Qed.

Lemma cstring_no_nul s : ¬ has_char NUL s → cstring (chars_of_string s) = s.
Proof.
  induction s as [| c s IH]; [done |].
  rewrite has_char_cons. intros Hn. simpl.
  destruct (decide (c = NUL)) as [-> | _]; [tauto |]. rewrite IH; tauto.
Qed.

Lemma strchr_None s c : strchr s c = None ↔ ¬ has_char c s.
Proof.
  induction s as [| d s IH]; simpl.
  - split; [intros _; apply has_char_nil | done].
  - rewrite has_char_cons. destruct (decide (d = c)) as [-> | Hne].
    + split; [done | tauto].
    + destruct (strchr s c) as [k |]; simpl.
      * split; [done |]. intros Hn. exfalso. apply Hn. right.
        destruct IH as [_ IH].
        destruct (decide (c ∈ chars_of_string s)) as [| Hc]; [done |].
        by specialize (IH Hc).
      * split; [| done]. intros _ [-> | Hc]; [done |]. by apply IH in Hc.
Qed.

(** [strchr] splits a string at the first occurrence of the character. *)
Lemma strchr_split pre c post :
  ¬ has_char c pre →
  strchr (pre +:+ String c post) c = Some (String.length pre) ∧
  take_chars (String.length pre) (pre +:+ String c post) = pre ∧
  drop_chars (String.length pre + 1) (pre +:+ String c post) = post.
Proof.
  induction pre as [| d pre IH]; simpl.
  - intros _. by destruct (decide (c = c)).
  - rewrite has_char_cons. intros Hn.
    destruct (decide (d = c)) as [-> | _]; [tauto |].
    destruct IH as (-> & -> & ->); tauto.
Qed.

Lemma strchr_Some s c n :
  strchr s c = Some n →
  s = take_chars n s +:+ String c (drop_chars (n + 1) s) ∧
  ¬ has_char c (take_chars n s) ∧ String.length (take_chars n s) = n.
Proof.
  revert n. induction s as [| d s IH]; simpl; [done |].
  intros n. destruct (decide (d = c)) as [-> | Hne].
  - intros [= <-]. simpl. split; [done |]. split; [apply has_char_nil | done].
  - destruct (strchr s c) as [k |] eqn:Hk; simpl; [| done].
    intros [= <-]. destruct (IH k eq_refl) as (Hs & Hpre & Hlen).
    split; [simpl; rewrite string_app_cons; by f_equal |].
    split; [| simpl; by rewrite Hlen]. simpl. rewrite has_char_cons. intros [-> | ?]; done.
Qed.

Lemma read_fingerprint_line_accepts fingerprint u a p hex eol tail :
  ¬ has_char TAB u → ¬ has_char TAB a → ¬ has_char TAB p →
  ¬ has_char CR hex →
  eol = CR ∨ (eol = LF ∧ ¬ has_char LF hex ∧ ¬ has_char CR tail) →
  ¬ has_char NUL (tab_line u a p (hex +:+ String eol tail)) →
  read_fingerprint_line fingerprint (tab_line u a p (hex +:+ String eol tail)) =
    if decide (String.length hex ≠ 40) then (None, fingerprint)
    else (Some (StoreEntry u a p (hex_to_bytes 20 fingerprint hex)),
          hex_to_bytes 20 fingerprint hex).
Proof.
  intros Hu Ha Hp Hcr Heol Hnul. unfold read_fingerprint_line.
  rewrite (cstring_no_nul _ Hnul). unfold tab_line.
  destruct (strchr_split u TAB (a +:+ String TAB (p +:+ String TAB (hex +:+ String eol tail))) Hu)
    as (-> & -> & ->).
  destruct (strchr_split a TAB (p +:+ String TAB (hex +:+ String eol tail)) Ha)
    as (-> & -> & ->).
  destruct (strchr_split p TAB (hex +:+ String eol tail) Hp) as (-> & -> & ->).
  assert (Hcut : (if strchr (hex +:+ String eol tail) CR is None
                  then strchr (hex +:+ String eol tail) LF
                  else strchr (hex +:+ String eol tail) CR) = Some (String.length hex)
                 ∧ take_chars (String.length hex) (hex +:+ String eol tail) = hex).
  { destruct Heol as [-> | (-> & Hlf & Htail)].
    - destruct (strchr_split hex CR tail Hcr) as (-> & -> & _). done.
    - destruct (strchr_split hex LF tail Hlf) as (-> & -> & _).
      assert (strchr (hex +:+ String LF tail) CR = None) as ->; [| done].
      apply strchr_None. rewrite has_char_app, has_char_cons.
      intros [? | [[=] | ?]]; done. }
  destruct Hcut as [-> ->]. done.
Qed.

Lemma read_fingerprint_line_accepted fingerprint storeline e :
  (read_fingerprint_line fingerprint storeline).1 = Some e →
  ∃ u a p hex eol tail,
    cstring (chars_of_string storeline) = tab_line u a p (hex +:+ String eol tail) ∧
    ¬ has_char TAB u ∧ ¬ has_char TAB a ∧ ¬ has_char TAB p ∧
    ¬ has_char CR hex ∧
    (eol = CR ∨ (eol = LF ∧ ¬ has_char LF hex ∧ ¬ has_char CR tail)) ∧
    String.length hex = 40 ∧
    e = StoreEntry u a p (hex_to_bytes 20 fingerprint hex).
Proof.
  unfold read_fingerprint_line.
  set (line := cstring (chars_of_string storeline)).
  destruct (strchr line TAB) as [t1 |] eqn:H1; [| done].
  destruct (strchr_Some _ _ _ H1) as (E1 & N1 & _).
  set (r1 := drop_chars (t1 + 1) line) in *.
  destruct (strchr r1 TAB) as [t2 |] eqn:H2; [| done].
  destruct (strchr_Some _ _ _ H2) as (E2 & N2 & _).
  set (r2 := drop_chars (t2 + 1) r1) in *.
  destruct (strchr r2 TAB) as [t3 |] eqn:H3; [| done].
  destruct (strchr_Some _ _ _ H3) as (E3 & N3 & _).
  set (r3 := drop_chars (t3 + 1) r2) in *.
  assert (Hline : line = tab_line (take_chars t1 line) (take_chars t2 r1)
                            (take_chars t3 r2) r3).
  { unfold tab_line. rewrite <- E3, <- E2. exact E1. }
  destruct (strchr r3 CR) as [c |] eqn:Hc.
  - destruct (strchr_Some _ _ _ Hc) as (Ec & Nc & _).
    destruct (decide (String.length (take_chars c r3) ≠ 40)) as [| Hlen]; [done |].
    intros [= <-]. exists (take_chars t1 line), (take_chars t2 r1), (take_chars t3 r2),
      (take_chars c r3), CR, (drop_chars (c + 1) r3).
    rewrite <- Ec.
    split_and!; first [done | by left
      | destruct (decide (String.length (take_chars c r3) = 40)); [done | lia]].
  - destruct (strchr r3 LF) as [c |] eqn:Hl; [| done].
    destruct (strchr_Some _ _ _ Hl) as (El & Nl & _).
    destruct (decide (String.length (take_chars c r3) ≠ 40)) as [| Hlen]; [done |].
    apply strchr_None in Hc. rewrite El, has_char_app, has_char_cons in Hc.
    intros [= <-]. exists (take_chars t1 line), (take_chars t2 r1), (take_chars t3 r2),
      (take_chars c r3), LF, (drop_chars (c + 1) r3).
    rewrite <- El.
    split_and!; first [done | tauto | right; tauto
      | destruct (decide (String.length (take_chars c r3) = 40)); [done | lia]].
Qed.

Lemma cstring_has_no_nul buf : ¬ has_char NUL (cstring buf).
Proof.
  induction buf as [| c buf IH]; simpl; [apply has_char_nil |].
  destruct (decide (c = NUL)); [apply has_char_nil |].
  rewrite has_char_cons. intros [? | ?]; done.
Qed.

Lemma read_fingerprint_line_cstring fingerprint storeline :
  read_fingerprint_line fingerprint (cstring (chars_of_string storeline)) =
  read_fingerprint_line fingerprint storeline.
Proof.
  unfold read_fingerprint_line.
  by rewrite (cstring_no_nul _ (cstring_has_no_nul _)).
Qed.

(** C3, as the code has it.  The loop body decodes the C string that
    one [fgets] read leaves in the line buffer: at most 999 characters of
    a line of the file, up to the first NUL.  That string is accepted
    exactly when it has three tabs and the text between the third tab
    and the first carriage return (or, when the rest of the string has
    none, the first newline) is 40 characters long; the fields are the
    texts between the tabs and the fingerprint is that text read by
    [ctoh] two characters at a time, hexadecimal digits or not.  The
    documented line decodes to alice, bob, xmpp and the bytes
    0x01..0x14; a line with two tabs and a line with a 39-character
    fingerprint are skipped. *)
Theorem trust_line_decoding (fingerprint : list byte) (storeline : string) :
  length fingerprint = 20 →
  (∀ e, (read_fingerprint_line fingerprint storeline).1 = Some e ↔
     ∃ u a p hex eol tail,
       cstring (chars_of_string storeline) = tab_line u a p (hex +:+ String eol tail) ∧
       ¬ has_char TAB u ∧ ¬ has_char TAB a ∧ ¬ has_char TAB p ∧
       ¬ has_char CR hex ∧
       (eol = CR ∨ (eol = LF ∧ ¬ has_char LF hex ∧ ¬ has_char CR tail)) ∧
       String.length hex = 40 ∧
       e = StoreEntry u a p (hex_to_bytes 20 fingerprint hex)) ∧
  (read_fingerprint_line fingerprint alice_line).1 =
    Some (StoreEntry "alice" "bob" "xmpp"
            [x01; x02; x03; x04; x05; x06; x07; x08; x09; x0a;
             x0b; x0c; x0d; x0e; x0f; x10; x11; x12; x13; x14]) ∧
  (read_fingerprint_line fingerprint two_tab_line).1 = None ∧
  (read_fingerprint_line fingerprint short_line).1 = None.
Proof.
  intros Hfp. split; [| split; [| split]].
  - intros e. split; [apply read_fingerprint_line_accepted |].
    intros (u & a & p & hex & eol & tail & Hline & Hu & Ha & Hp & Hcr & Heol & Hlen & ->).
    rewrite <- read_fingerprint_line_cstring, Hline.
    rewrite read_fingerprint_line_accepts; try done.
    + destruct (decide (String.length hex ≠ 40)); [lia | done].
    + rewrite <- Hline. apply cstring_has_no_nul.
  - do 20 (destruct fingerprint as [| ? fingerprint]; [discriminate |]).
    destruct fingerprint; [| discriminate]. reflexivity.
  - reflexivity.
  - reflexivity.
Qed.

Lemma trust_line_decoding_witness :
  (read_fingerprint_line (replicate 20 x00) alice_line).1 =
    Some (StoreEntry "alice" "bob" "xmpp"
            [x01; x02; x03; x04; x05; x06; x07; x08; x09; x0a;
             x0b; x0c; x0d; x0e; x0f; x10; x11; x12; x13; x14]).
Proof.
  apply (trust_line_decoding (replicate 20 x00) alice_line). reflexivity.
Defined.

(** C3 as stated fails: a line whose fourth field is forty characters
    none of which is a hexadecimal digit is accepted, with an all-zero
    fingerprint. *)
Lemma trust_line_non_hex_accepted :
  (read_fingerprint_line (replicate 20 xff) non_hex_line).1 =
    Some (StoreEntry "alice" "bob" "xmpp" (replicate 20 x00))
  ∧ Forall (λ c, is_lower_hex c = false ∧ is_upper_hex c = false)
      (chars_of_string "zzzzzzzzzzzzzzzzzzzzzzzzzzzzzzzzzzzzzzzz").
Proof. split; [reflexivity |]. repeat constructor. Qed.

Lemma read_fingerprint_line_skip fingerprint storeline :
  (read_fingerprint_line fingerprint storeline).1 = None →
  read_fingerprint_line fingerprint storeline = (None, fingerprint).
Proof.
  unfold read_fingerprint_line.
  repeat match goal with
         | |- context [match ?x with _ => _ end] => destruct x; try done
         end.
Qed.

Lemma has_char_cstring c s : has_char c (cstring (chars_of_string s)) → has_char c s.
Proof.
  induction s as [| d s IH]; simpl; [done |].
  destruct (decide (d = NUL)); [by intros ?%has_char_nil |].
  rewrite !has_char_cons. tauto.
Qed.

Lemma line_without_eol_skipped fingerprint storeline :
  ¬ has_char CR storeline → ¬ has_char LF storeline →
  read_fingerprint_line fingerprint storeline = (None, fingerprint).
Proof.
  intros Hcr Hlf. apply read_fingerprint_line_skip.
  destruct (read_fingerprint_line fingerprint storeline).1 as [e |] eqn:He; [| done].
  apply read_fingerprint_line_accepted in He
    as (u & a & p & hex & eol & tail & Hline & _ & _ & _ & _ & Heol & _).
  assert (Hin : has_char eol storeline).
  { apply has_char_cstring. rewrite Hline. unfold tab_line.
    rewrite has_char_app, has_char_cons, has_char_app, has_char_cons,
      has_char_app, has_char_cons, has_char_app, has_char_cons. tauto. }
  destruct Heol as [-> | (-> & _)]; done.
Qed.

Lemma fgets_chars_app room stream line rest :
  fgets_chars room stream = (line, rest) → stream = line +:+ rest.
Proof.
  revert stream line rest. induction room as [| room IH]; intros [| c s] line rest; simpl;
    try (intros [= <- <-]; done).
  destruct (decide (c = LF)); [by intros [= <- <-] |].
  destruct (fgets_chars room s) as [l r] eqn:Hs. intros [= <- <-].
  rewrite string_app_cons. f_equal. by apply IH.
Qed.

Lemma string_length_app s t :
  String.length (s +:+ t) = String.length s + String.length t.
Proof. induction s as [| c s IH]; simpl; [done | by rewrite IH]. Qed.

Lemma fgets_shorter stream line rest :
  fgets 1000 stream = Some (line, rest) → (String.length rest < String.length stream)%nat.
Proof.
  destruct stream as [| c s]; [done |]. unfold fgets.
  change (1000 - 1) with (S 998). generalize 998. intros room. cbn [fgets_chars].
  destruct (decide (c = LF)); [intros [= <- <-]; simpl; lia |].
  destruct (fgets_chars room s) as [l r] eqn:Hs. intros [= <- <-].
  apply fgets_chars_app in Hs as ->. cbn [String.length]. rewrite string_length_app. lia.
Qed.

Lemma read_fingerprint_lines_fuel fuel1 fuel2 fingerprint stream :
  (String.length stream ≤ fuel1)%nat → (String.length stream ≤ fuel2)%nat →
  read_fingerprint_lines fuel1 fingerprint stream =
  read_fingerprint_lines fuel2 fingerprint stream.
Proof.
  revert fuel2 fingerprint stream.
  induction fuel1 as [| fuel1 IH]; intros fuel2 fingerprint stream H1 H2.
  - destruct stream; [| simpl in H1; lia]. by destruct fuel2.
  - destruct fuel2 as [| fuel2].
    { destruct stream; [done | simpl in H2; lia]. }
    simpl. destruct (fgets 1000 stream) as [[line rest] |] eqn:Hg; [| done].
    apply fgets_shorter in Hg.
    destruct (read_fingerprint_line fingerprint line) as [[e |] fp'];
      [f_equal |]; apply IH; lia.
Qed.

Lemma read_fingerprint_lines_no_eol fuel fingerprint stream :
  ¬ has_char CR stream → ¬ has_char LF stream →
  read_fingerprint_lines fuel fingerprint stream = [].
Proof.
  revert stream. induction fuel as [| fuel IH]; intros stream Hcr Hlf; [done |].
  simpl. destruct stream as [| c s]; [done |]. unfold fgets.
  destruct (fgets_chars (1000 - 1) (String c s)) as [line rest] eqn:Hg.
  apply fgets_chars_app in Hg. rewrite Hg, has_char_app in Hcr, Hlf.
  rewrite line_without_eol_skipped by tauto. apply IH; tauto.
Qed.

Lemma fgets_chars_terminated room body last :
  lf_terminated body = true → body ≠ EmptyString →
  ∃ line rest, fgets_chars room body = (line, rest) ∧
    fgets_chars room (body +:+ last) = (line, rest +:+ last) ∧
    lf_terminated rest = true.
Proof.
  revert body. induction room as [| room IH]; intros body Hb Hne.
  - destruct body; [done |]. by exists EmptyString, (String a body).
  - destruct body as [| c s]; [done |]. rewrite string_app_cons. cbn [fgets_chars].
    destruct (decide (c = LF)) as [-> | Hc].
    + exists (String LF EmptyString), s. split_and!; try done.
      destruct s; [done |]. exact Hb.
    + destruct s as [| d s].
      { simpl in Hb. by apply bool_decide_eq_true in Hb. }
      destruct (IH (String d s)) as (line & rest & -> & -> & Hr); [exact Hb | done |].
      by exists (String c line), rest.
Qed.

Lemma read_fingerprint_lines_last fuel fingerprint body last :
  lf_terminated body = true → ¬ has_char CR last → ¬ has_char LF last →
  (String.length (body +:+ last) ≤ fuel)%nat →
  read_fingerprint_lines fuel fingerprint (body +:+ last) =
  read_fingerprint_lines fuel fingerprint body.
Proof.
  intros Hb Hcr Hlf. revert fingerprint body Hb.
  induction fuel as [| fuel IH]; intros fingerprint body Hb Hlen; [done |].
  destruct (decide (body = EmptyString)) as [-> | Hne].
  { change (EmptyString +:+ last) with last. by rewrite read_fingerprint_lines_no_eol. }
  destruct (fgets_chars_terminated (1000 - 1) body last Hb Hne)
    as (line & rest & Hg1 & Hg2 & Hr).
  assert (fgets 1000 body = Some (line, rest)) as Hf1.
  { destruct body; [done |]. unfold fgets. by rewrite Hg1. }
  assert (fgets 1000 (body +:+ last) = Some (line, rest +:+ last)) as Hf2.
  { destruct body; [done |]. rewrite string_app_cons. unfold fgets.
    rewrite <- string_app_cons. by rewrite Hg2. }
  cbn [read_fingerprint_lines]. rewrite Hf1, Hf2.
  apply fgets_shorter in Hf2.
  destruct (read_fingerprint_line fingerprint line) as [[e |] fp'];
    [f_equal |]; apply IH; try done; lia.
Qed.

(** C10. A line with neither a carriage return nor a newline is skipped
    whatever its fields are; in particular when such a line ends a file
    whose earlier lines are newline-terminated, the loader hands over
    exactly the fingerprints it hands over for the file without it. *)
Theorem unterminated_line_skipped (fingerprint : list byte) (filename body last : string) :
  lf_terminated body = true → ¬ has_char CR last → ¬ has_char LF last →
  read_fingerprint_line fingerprint last = (None, fingerprint) ∧
  (otrl_privkey_read_fingerprints (one_file filename (body +:+ last)) filename fingerprint).1 =
  (otrl_privkey_read_fingerprints (one_file filename body) filename fingerprint).1.
Proof.
  intros Hb Hcr Hlf. split; [by apply line_without_eol_skipped |].
  unfold otrl_privkey_read_fingerprints, fopen_read, one_file. cbn [w_files].
  rewrite !lookup_singleton_eq. cbn [f_readable f_data fst]. f_equal.
  rewrite read_fingerprint_lines_last by done.
  apply read_fingerprint_lines_fuel; [| done].
  rewrite string_length_app. lia.
Qed.

Lemma unterminated_line_skipped_witness :
  read_fingerprint_line (replicate 20 x00) unterminated_alice = (None, replicate 20 x00) ∧
  (otrl_privkey_read_fingerprints (one_file "fp" (alice_line +:+ unterminated_alice))
     "fp" (replicate 20 x00)).1 =
  (otrl_privkey_read_fingerprints (one_file "fp" alice_line) "fp" (replicate 20 x00)).1.
Proof.
  apply (unterminated_line_skipped (replicate 20 x00) "fp" alice_line unterminated_alice).
  - reflexivity.
  - apply (bool_decide_eq_false_1 _). reflexivity.
  - apply (bool_decide_eq_false_1 _). reflexivity.
Defined.

(** ** The registry: unlinking and searching *)

Lemma chain_frame h h' t p rs :
  chain h t p rs → (∀ l, l ∈ rs.*1 → h' !! l = h !! l) → chain h' t p rs.
Proof.
  revert t p. induction rs as [| [l d] rs IH]; intros t p; simpl; [done |].
  intros (-> & k & Hk & Ht & Hd & Hc) Hsame. split; [done |].
  exists k. split_and!; try done.
  - rewrite Hsame; [done | set_solver].
  - apply IH; [done |]. intros l' Hl'. apply Hsame. set_solver.
Qed.

(** Pointing the head's [tous] at another slot re-homes a chain. *)
Lemma chain_retarget h h' t0 t p rs :
  chain h t0 p rs → NoDup rs.*1 →
  (∀ n, p = Some n → h' !! n = set_tous t <$> h !! n) →
  (∀ l, l ∈ rs.*1 → p ≠ Some l → h' !! l = h !! l) →
  chain h' t p rs.
Proof.
  destruct rs as [| [l d] rs]; simpl; [done |].
  intros (-> & k & Hk & Ht & Hd & Hc) Hnd Hhead Hrest.
  apply NoDup_cons in Hnd as [Hl Hnd].
  split; [done |]. exists (set_tous t k). split_and!; try done.
  - by rewrite (Hhead l eq_refl), Hk.
  - apply (chain_frame h); [done |]. intros l' Hl'. apply Hrest; [set_solver |].
    intros [= ->]. done.
Qed.

Lemma chain_lookup h t p rs l d :
  chain h t p rs → (l, d) ∈ rs → ∃ k, h !! l = Some k ∧ payload k = d.
Proof.
  revert t p. induction rs as [| [l' d'] rs IH]; intros t p; simpl.
  - by intros _ ?%elem_of_nil.
  - intros (-> & k & Hk & _ & Hd & Hc) [[= -> ->] | Hin]%elem_of_cons; eauto.
Qed.

Lemma forget_unlinked p m k :
  nodes m !! p = Some k →
  otrl_privkey_forget p m =
    Memory (if tous k is RootSlot then next k else privkey_root m)
           (unlinked (nodes m) p k).
Proof.
  intros Hk. unfold otrl_privkey_forget, unlinked, store_slot. rewrite Hk.
  destruct (tous k), (next k); reflexivity.
Qed.

Lemma unlinked_lookup_other h p k l :
  l ≠ p → tous k ≠ NextSlot l → next k ≠ Some l →
  unlinked h p k !! l = h !! l.
Proof.
  intros Hlp Ht Hn. unfold unlinked. rewrite lookup_delete_ne by done.
  destruct (next k) as [n |], (tous k) as [| q];
    rewrite ?lookup_alter_ne; try done; congruence.
Qed.

Lemma unlinked_lookup_next h p k n :
  next k = Some n → n ≠ p → tous k ≠ NextSlot n →
  unlinked h p k !! n = set_tous (tous k) <$> h !! n.
Proof.
  intros Hn Hnp Ht. unfold unlinked. rewrite lookup_delete_ne by done.
  rewrite Hn, lookup_alter_eq. destruct (tous k) as [| q]; [done |].
  rewrite lookup_alter_ne; [done | congruence].
Qed.

Lemma unlinked_lookup_prev h p k q :
  tous k = NextSlot q → q ≠ p → next k ≠ Some q →
  unlinked h p k !! q = set_next (next k) <$> h !! q.
Proof.
  intros Ht Hqp Hn. unfold unlinked. rewrite lookup_delete_ne by done.
  rewrite Ht. destruct (next k) as [n |].
  - rewrite lookup_alter_ne by congruence. by rewrite lookup_alter_eq.
  - by rewrite lookup_alter_eq.
Qed.

(** Inside a chain, a structure's [tous] is its predecessor's [next]
    field, and its [next] is the address of its successor. *)
Lemma chain_inside h t start pre q dq p d rs k :
  chain h t start (pre ++ (q, dq) :: (p, d) :: rs) → h !! p = Some k →
  tous k = NextSlot q ∧ payload k = d ∧ chain h (NextSlot p) (next k) rs.
Proof.
  revert t start. induction pre as [| [a da] pre IH]; intros t start; cbn [app chain].
  - intros (_ & kq & _ & _ & _ & _ & kp & Hp & Htp & Hd & Hc) Hk.
    assert (kp = k) as -> by congruence. done.
  - intros (_ & ka & _ & _ & _ & Hc) Hk. by apply (IH _ _ Hc).
Qed.

Lemma chain_next_in h t p rs n : chain h t p rs → p = Some n → n ∈ rs.*1.
Proof.
  destruct rs as [| [l d] rs]; simpl; [congruence |].
  intros (-> & _) [= ->]. set_solver.
Qed.

(** Unlinking a structure from the inside of a chain: the records
    before it stay, its predecessor's [next] skips it, and its successor's
    [tous] points back at the predecessor. *)
Lemma chain_unlink h t start pre q dq p d rs k :
  chain h t start (pre ++ (q, dq) :: (p, d) :: rs) →
  NoDup (pre ++ (q, dq) :: (p, d) :: rs).*1 →
  h !! p = Some k →
  chain (unlinked h p k) t start (pre ++ (q, dq) :: rs).
Proof.
  intros Hchain Hnd Hk.
  destruct (chain_inside _ _ _ _ _ _ _ _ _ _ Hchain Hk) as (Htp & Hdp & Hc).
  assert (Hnext : ∀ n, next k = Some n → n ∈ rs.*1).
  { intros n. by apply chain_next_in with (1 := Hc). }
  rewrite fmap_app in Hnd. cbn [fmap list_fmap fst] in Hnd.
  apply NoDup_app in Hnd as (Hpre & Hdisj & Hnd).
  apply NoDup_cons in Hnd as [Hq Hnd]. apply NoDup_cons in Hnd as [Hp Hnd].
  assert (q ≠ p) as Hqp by set_solver.
  revert t start Hchain. induction pre as [| [a da] pre IH]; intros t start.
  - cbn [app chain].
    intros (-> & kq & Hq' & Htq & Hdq & _). split; [done |].
    exists (set_next (next k) kq). split_and!; try done.
    + rewrite (unlinked_lookup_prev h p k q), Hq'; try done.
      intros Hn%Hnext. set_solver.
    + cbn [set_next next]. apply (chain_retarget h _ (NextSlot p)); try done.
      * intros n Hn. rewrite <- Htp. apply unlinked_lookup_next; try done.
        -- intros ->. by apply Hnext in Hn.
        -- rewrite Htp. intros [= ->]. apply Hnext in Hn. set_solver.
      * intros l Hl Hnl. apply unlinked_lookup_other; try done.
        -- by intros ->.
        -- rewrite Htp. intros [= ->]. set_solver.
  - cbn [app chain].
    intros (-> & ka & Ha & Hta & Hda & Hc'). split; [done |].
    assert (a ∉ q :: p :: rs.*1) as Ha_out.
    { intros Hin. apply (Hdisj a); set_solver. }
    exists ka. split_and!; try done.
    + rewrite unlinked_lookup_other; try done.
      * intros ->. set_solver.
      * rewrite Htp. intros [= ->]. set_solver.
      * intros Hn%Hnext. set_solver.
    + apply IH; try done.
      * by apply NoDup_cons in Hpre as [_ ?].
      * intros x Hx. apply Hdisj. set_solver.
Qed.

Lemma unlinked_is_Some h p k l :
  is_Some (unlinked h p k !! l) ↔ l ≠ p ∧ is_Some (h !! l).
Proof.
  unfold unlinked. rewrite lookup_delete_is_Some.
  destruct (next k), (tous k); rewrite ?lookup_alter_is_Some; naive_solver.
Qed.

Lemma filter_all {A} (P : A → Prop) `{∀ x, Decision (P x)} (l : list A) :
  Forall P l → filter P l = l.
Proof.
  induction 1 as [| x l Hx _ IH]; [done |]. by rewrite filter_cons_True, IH.
Qed.

Lemma filter_other_app (p : loc) (pre post : list (loc * key_data)) d :
  p ∉ pre.*1 → p ∉ post.*1 →
  filter (λ r, r.1 ≠ p) (pre ++ (p, d) :: post) = pre ++ post.
Proof.
  intros Hpre Hpost. rewrite filter_app, filter_cons_False by (simpl; auto).
  f_equal; apply filter_all, Forall_forall; intros [l dl] Hin; simpl;
    intros ->; [apply Hpre | apply Hpost]; apply list_elem_of_fmap; by exists (p, dl).
Qed.

(** Forgetting a member of the registry takes exactly that structure out
    of the list; the other structures keep their place and their data. *)
Lemma forget_registry m rs p d :
  registry m rs → (p, d) ∈ rs →
  registry (otrl_privkey_forget p m) (filter (λ r, r.1 ≠ p) rs).
Proof.
  intros (Hchain & Hnd & Hdom) Hin.
  apply list_elem_of_split in Hin as (pre & post & ->).
  destruct (chain_lookup _ _ _ _ p d Hchain) as (k & Hk & Hd).
  { apply elem_of_app. right. left. }
  assert (Hnd' := Hnd). rewrite fmap_app in Hnd'. cbn [fmap list_fmap fst] in Hnd'.
  apply NoDup_app in Hnd' as (Hpre & Hdisj & Hpost).
  apply NoDup_cons in Hpost as [Hp Hpost].
  assert (p ∉ pre.*1) as Hp_pre by (intros Hx; apply (Hdisj p Hx); set_solver).
  rewrite filter_other_app by done.
  rewrite (forget_unlinked p m k Hk).
  split_and!.
  - cbn [nodes privkey_root].
    destruct pre as [| r pre] using rev_ind.
    + cbn [app chain] in *. destruct Hchain as (Hroot & k' & Hk' & Ht & _ & Hc).
      assert (k' = k) as -> by congruence. rewrite Ht.
      apply (chain_retarget (nodes m) _ (NextSlot p)); try done.
      * intros n Hn. rewrite <- Ht at 1. apply unlinked_lookup_next; try done.
        -- intros ->. apply (chain_next_in _ _ _ _ _ Hc) in Hn. done.
        -- by rewrite Ht.
      * intros l Hl Hnl. apply unlinked_lookup_other; try done.
        -- by intros ->.
        -- by rewrite Ht.
    + destruct r as [q dq]. clear IHpre.
      rewrite <- app_assoc in Hchain, Hnd |- *. cbn [app] in Hchain, Hnd |- *.
      destruct (chain_inside _ _ _ _ _ _ _ _ _ _ Hchain Hk) as (-> & _).
      by apply (chain_unlink _ _ _ _ _ _ _ d).
  - rewrite fmap_app. apply NoDup_app. split_and!; try done.
    intros x Hx Hx'. apply (Hdisj x Hx). set_solver.
  - intros l. cbn [nodes]. rewrite unlinked_is_Some, Hdom, !fmap_app.
    cbn [fmap list_fmap fst]. rewrite !elem_of_app, elem_of_cons.
    split; [| intros [? | ?]; split; [by intros -> | tauto | by intros -> | tauto]].
    intros (? & [? | [? | ?]]); tauto.
Qed.

Lemma registry_size m rs : registry m rs → length rs ≤ size (nodes m).
Proof.
  intros (_ & Hnd & Hdom).
  rewrite <- (length_fmap fst), <- (size_list_to_set (C := gset loc)) by done.
  rewrite <- size_dom. apply subseteq_size. intros l Hl.
  apply elem_of_list_to_set in Hl. by apply elem_of_dom, Hdom.
Qed.

Lemma registry_empty m : registry m [] → m = Memory None ∅.
Proof.
  intros (Hroot & _ & Hdom). destruct m as [root h]. simpl in *. subst root.
  f_equal. apply map_eq. intros l. rewrite lookup_empty.
  apply eq_None_not_Some. intros Hl%Hdom. by apply elem_of_nil in Hl.
Qed.

Lemma registry_empty_memory : registry (Memory None ∅) [].
Proof.
  split_and!; [done | constructor |]. intros l. cbn [nodes].
  rewrite lookup_empty. split; [by intros [? ?] | by intros ?%elem_of_nil].
Qed.

Lemma identity_match k acc proto :
  bool_decide (accountname k = acc) && bool_decide (protocol k = proto) =
  bool_decide (identity (payload k) = (acc, proto)).
Proof.
  unfold identity, payload. cbn [kd_accountname kd_protocol].
  repeat case_bool_decide; simplify_eq; done.
Qed.

Lemma find_loop_chain fuel h t s rs acc proto :
  chain h t s rs → length rs ≤ fuel →
  find_loop fuel h s acc proto = first_with acc proto rs.
Proof.
  revert fuel t s. induction rs as [| [l d] rs IH]; intros fuel t s; simpl.
  - intros -> _. by destruct fuel.
  - intros (-> & k & Hk & _ & <- & Hc) Hfuel.
    destruct fuel as [| fuel]; [lia |]. simpl. rewrite Hk, identity_match.
    destruct (bool_decide _); [done |]. apply (IH _ _ _ Hc). lia.
Qed.

(** On a registry the search loop is the search of the list. *)
Lemma find_registry m rs acc proto :
  registry m rs →
  otrl_privkey_find m (Some acc) (Some proto) = first_with acc proto rs.
Proof.
  intros Hreg. unfold otrl_privkey_find.
  apply (find_loop_chain _ _ RootSlot); [apply Hreg | by apply registry_size].
Qed.

Lemma first_with_None acc proto rs :
  (∀ r, r ∈ rs → identity r.2 ≠ (acc, proto)) → first_with acc proto rs = None.
Proof.
  induction rs as [| [l d] rs IH]; [done |]. intros Hall. simpl.
  rewrite bool_decide_eq_false_2; [| apply (Hall (l, d)); left].
  apply IH. intros r Hr. apply Hall. by right.
Qed.

Lemma forget_all_loop_registry fuel m rs :
  registry m rs → length rs ≤ fuel → registry (forget_all_loop fuel m) [].
Proof.
  revert fuel m. induction rs as [| [l d] rs IH]; intros fuel m Hreg Hfuel.
  - destruct fuel; [done |]. simpl.
    destruct Hreg as (Hroot & ?). simpl in Hroot. by rewrite Hroot.
  - destruct fuel as [| fuel]; [simpl in Hfuel; lia |]. simpl.
    assert (privkey_root m = Some l) as -> by (by destruct Hreg as ((? & _) & _)).
    apply IH; [| simpl in Hfuel; lia].
    assert (Hnd : NoDup ((l, d) :: rs).*1) by apply Hreg.
    apply NoDup_cons in Hnd as [Hl _].
    assert (Hf : registry (otrl_privkey_forget l m) (filter (λ r, r.1 ≠ l) ((l, d) :: rs))).
    { apply (forget_registry m _ l d Hreg). left. }
    pose proof (filter_other_app l [] rs d) as E. cbn [app] in E.
    rewrite E in Hf; [done | by intros ?%elem_of_nil | done].
Qed.

(** Forgetting all keys of a registry ends with no key and an empty heap:
    the loop stops because the root is NULL, not for lack of fuel. *)
Lemma forget_all_registry m rs :
  registry m rs → otrl_privkey_forget_all m = Memory None ∅.
Proof.
  intros Hreg. apply registry_empty.
  apply (forget_all_loop_registry _ _ rs Hreg), (registry_size _ _ Hreg).
Qed.

Lemma forget_all_empty m : privkey_root m = None → otrl_privkey_forget_all m = m.
Proof.
  intros Hroot. unfold otrl_privkey_forget_all.
  destruct (size (nodes m)); simpl; [done | by rewrite Hroot].
Qed.

(** C9, as the code has it.  Forgetting a member of the registry unlinks
    exactly that record: the others stay members with their data.  A
    search for its identity afterwards finds the first remaining record
    with that identity, and so nothing when no other record shares it.
    Forgetting all records leaves the empty registry, and does nothing to
    a registry that is already empty. *)
Theorem forget_removes_record (m : memory) (rs : list (loc * key_data))
    (p : loc) (d : key_data) :
  registry m rs → (p, d) ∈ rs →
  let m' := otrl_privkey_forget p m in
  let rs' := filter (λ r, r.1 ≠ p) rs in
  registry m' rs' ∧
  (∀ r, r ∈ rs → r.1 ≠ p → r ∈ rs') ∧
  otrl_privkey_find m' (Some (kd_accountname d)) (Some (kd_protocol d)) =
    first_with (kd_accountname d) (kd_protocol d) rs' ∧
  ((∀ r, r ∈ rs → r.1 ≠ p → identity r.2 ≠ identity d) →
   otrl_privkey_find m' (Some (kd_accountname d)) (Some (kd_protocol d)) = None) ∧
  otrl_privkey_forget_all m = Memory None ∅ ∧
  (∀ m0, privkey_root m0 = None → otrl_privkey_forget_all m0 = m0).
Proof.
  intros Hreg Hin m' rs'.
  assert (Hreg' : registry m' rs') by by apply (forget_registry m rs p d).
  split_and!.
  - done.
  - intros r Hr Hne. by apply list_elem_of_filter.
  - by apply find_registry.
  - intros Hothers. rewrite (find_registry m' rs') by done.
    apply first_with_None. intros r [Hne Hr]%list_elem_of_filter.
    by apply Hothers.
  - by apply (forget_all_registry m rs).
  - apply forget_all_empty.
Qed.

(** ** The loader *)

Section read_proofs.
Context {G : Gcrypt}.

Lemma account_record_usable accounts :
  is_Some (account_record accounts) ↔ entry_usable accounts.
Proof.
  unfold account_record, account_entry, entry_usable.
  destruct (decide (gcry_sexp_nth_data accounts 0 = Some "account")) as [Ht | Ht];
    [| split; [by intros [? [=]] | tauto]].
  destruct (decide (is_Some (gcry_sexp_find_token accounts "name") ∧
                    is_Some (gcry_sexp_find_token accounts "protocol") ∧
                    is_Some (gcry_sexp_find_token accounts "private-key")))
    as [(Hn & Hp & Hk) | Hmiss]; [| split; [by intros [? [=]] | tauto]].
  destruct (gcry_sexp_nth_data (gcry_sexp_find_token accounts "name") 1) as [name |];
    [| split; [by intros [? [=]] | intros (_ & _ & _ & _ & [? [=]] & _)]].
  destruct (gcry_sexp_nth_data (gcry_sexp_find_token accounts "protocol") 1) as [proto |];
    [| split; [by intros [? [=]] | intros (_ & _ & _ & _ & _ & [? [=]] & _)]].
  cbn [mbind option_bind].
  destruct (otrl_proto_make_pubkey (gcry_sexp_find_token accounts "private-key")) as [d | c].
  - split; [intros _ | by eauto]. split_and!; eauto.
  - split; [by intros [? [=]] | intros (_ & _ & _ & _ & _ & _ & [? [=]])].
Qed.

Lemma malloc_fresh m : nodes m !! malloc m = None.
Proof. unfold malloc. apply not_elem_of_dom. apply is_fresh. Qed.

(** Linking a new structure at the head of the list. *)
Lemma link_registry m rs name proto privs :
  registry m rs →
  let p := malloc m in
  let k := MkPrivKey name proto privs None (privkey_root m) RootSlot in
  let h := <[p:=k]> (nodes m) in
  let h := if next k is Some n then alter (set_tous (NextSlot p)) n h else h in
  registry (Memory (Some p) h) ((p, KeyData name proto privs None) :: rs).
Proof.
  intros (Hchain & Hnd & Hdom) p k h0 h.
  assert (Hp : nodes m !! p = None) by apply malloc_fresh.
  assert (Hp_out : p ∉ rs.*1).
  { intros Hin%Hdom. rewrite Hp in Hin. by destruct Hin. }
  assert (Hroot : ∀ n, privkey_root m = Some n → n ≠ p).
  { intros n Hn ->. apply Hp_out. by apply (chain_next_in _ _ _ _ _ Hchain). }
  split_and!.
  - cbn [chain privkey_root nodes]. split; [done |]. exists k. split_and!; try done.
    + subst h h0. cbn [next k]. destruct (privkey_root m) as [n |] eqn:Hn.
      * rewrite lookup_alter_ne by (by apply Hroot). apply lookup_insert_eq.
      * apply lookup_insert_eq.
    + cbn [next k]. apply (chain_retarget (nodes m) _ RootSlot); try done.
      * intros n Hn. subst h h0. cbn [next k]. rewrite Hn, lookup_alter_eq.
        rewrite lookup_insert_ne; [done |]. intros <-. by apply (Hroot _ Hn).
      * intros l Hl Hnl. subst h h0. cbn [next k].
        destruct (privkey_root m) as [n |].
        -- rewrite lookup_alter_ne by congruence.
           apply lookup_insert_ne. by intros <-.
        -- apply lookup_insert_ne. by intros <-.
  - cbn [fmap list_fmap fst]. by apply NoDup_cons.
  - intros l. cbn [nodes fmap list_fmap fst]. rewrite elem_of_cons, <- Hdom.
    subst h h0. cbn [next k].
    destruct (privkey_root m) as [n |];
      rewrite ?lookup_alter_is_Some, lookup_insert_is_Some; naive_solver.
Qed.

(** Filling in the public key of the head. *)
Lemma set_pubkey_registry root h p d0 rs data :
  registry (Memory root h) ((p, d0) :: rs) →
  registry (Memory root (alter (set_pubkey data) p h))
    ((p, KeyData (kd_accountname d0) (kd_protocol d0) (kd_privkey d0) (Some data)) :: rs).
Proof.
  intros (Hchain & Hnd & Hdom). cbn [chain privkey_root nodes] in *.
  destruct Hchain as (-> & k & Hk & Ht & <- & Hc).
  cbn [fmap list_fmap fst] in Hnd. apply NoDup_cons in Hnd as Hnd'. destruct Hnd' as [Hp _].
  split_and!; [| done |].
  - cbn [chain privkey_root nodes]. split; [done |]. exists (set_pubkey data k).
    split_and!; try done.
    + by rewrite lookup_alter_eq, Hk.
    + cbn [set_pubkey next]. apply (chain_frame h); [done |].
      intros l Hl. apply lookup_alter_ne. by intros <-.
  - intros l. cbn [nodes]. by rewrite lookup_alter_is_Some.
Qed.

(** One iteration of the loop: a usable entry puts its record at the
    head of the list; an unusable one leaves the list as it was and ends
    the load with [GPG_ERR_UNUSABLE_SECKEY]. *)
Lemma read_account_registry accounts m rs :
  registry m rs →
  ∃ m', match account_record accounts with
        | Some d =>
            read_account accounts m = (GPG_ERR_NO_ERROR, m') ∧
            ∃ p, registry m' ((p, d) :: rs)
        | None =>
            read_account accounts m = (GPG_ERR_UNUSABLE_SECKEY, m') ∧
            registry m' rs
        end.
Proof.
  intros Hreg. unfold account_record, account_entry, read_account.
  destruct (decide (gcry_sexp_nth_data accounts 0 = Some "account")) as [Ht | Ht].
  2: { rewrite decide_True by done. by exists m. }
  rewrite (decide_False (P := gcry_sexp_nth_data accounts 0 ≠ Some "account"))
    by (intros Hne; exact (Hne Ht)).
  set (names := gcry_sexp_find_token accounts "name").
  set (protos := gcry_sexp_find_token accounts "protocol").
  set (privs := gcry_sexp_find_token accounts "private-key").
  destruct (decide (is_Some names ∧ is_Some protos ∧ is_Some privs))
    as [(Hn & Hp & Hk) | Hmiss].
  2: { rewrite (decide_True (P := names = None ∨ protos = None ∨ privs = None)).
       - by exists m.
       - destruct names, protos, privs; try tauto; exfalso; apply Hmiss; eauto. }
  rewrite (decide_False (P := names = None ∨ protos = None ∨ privs = None)).
  2: { destruct Hn, Hp, Hk. intros [? | [? | ?]]; congruence. }
  destruct (gcry_sexp_nth_data names 1) as [name |]; [| by exists m].
  destruct (gcry_sexp_nth_data protos 1) as [proto |]; [| by exists m].
  cbn [mbind option_bind].
  pose proof (link_registry m rs (cstring (chars_of_string name))
                (cstring (chars_of_string proto)) privs Hreg) as Hlink.
  cbv zeta in Hlink |- *. cbn [next privkey_root nodes] in Hlink |- *.
  destruct (otrl_proto_make_pubkey privs) as [data | code].
  - eexists. split; [done |]. eexists.
    apply (set_pubkey_registry _ _ _ _ _ data) in Hlink. exact Hlink.
  - eexists. split; [done |].
    set (d0 := KeyData (cstring (chars_of_string name))
                 (cstring (chars_of_string proto)) privs None) in *.
    apply (forget_registry _ _ (malloc m) d0) in Hlink; [| left].
    pose proof (filter_other_app (malloc m) [] rs d0) as E.
    cbn [app] in E. rewrite E in Hlink; [done | by intros ?%elem_of_nil |].
    intros Hin. destruct Hreg as (_ & _ & Hdom). apply Hdom in Hin.
    rewrite malloc_fresh in Hin. by destruct Hin.
Qed.

Lemma accounts_from_S allkeys i n :
  accounts_from allkeys i (S n) = gcry_sexp_nth allkeys i :: accounts_from allkeys (S i) n.
Proof. reflexivity. Qed.

(** The loop: the records of the usable entries are linked one by one,
    each at the head, until an entry is unusable. *)
Lemma read_accounts_registry allkeys todo i m rs :
  registry m rs →
  ∃ err m' news,
    read_accounts allkeys todo i m = (err, m') ∧
    registry m' (news ++ rs) ∧
    news.*2 = reverse (usable_prefix (accounts_from allkeys i todo)) ∧
    ((err = GPG_ERR_NO_ERROR ∧ Forall entry_usable (accounts_from allkeys i todo)) ∨
     (err = GPG_ERR_UNUSABLE_SECKEY ∧ ¬ Forall entry_usable (accounts_from allkeys i todo))).
Proof.
  revert i m rs. induction todo as [| todo IH]; intros i m rs Hreg.
  - exists GPG_ERR_NO_ERROR, m, []. split_and!; try done. left. by split.
  - rewrite accounts_from_S. cbn [read_accounts usable_prefix].
    destruct (read_account_registry (gcry_sexp_nth allkeys i) m rs Hreg) as [m1 Hstep].
    destruct (account_record (gcry_sexp_nth allkeys i)) as [d |] eqn:Hrec.
    + destruct Hstep as (-> & p & Hreg1).
      destruct (IH (S i) m1 _ Hreg1) as (err & m' & news & -> & Hreg' & Hnews & Herr).
      exists err, m', (news ++ [(p, d)]). split_and!; try done.
      * by rewrite <- app_assoc.
      * by rewrite fmap_app, reverse_cons, Hnews.
      * assert (entry_usable (gcry_sexp_nth allkeys i)) as Hu.
        { apply account_record_usable. by rewrite Hrec. }
        destruct Herr as [[-> Hall] | [-> Hbad]]; [left | right]; split; try done.
        -- by constructor.
        -- intros Hall. apply Hbad. by apply Forall_cons in Hall as [_ ?].
    + destruct Hstep as (-> & Hreg1).
      exists GPG_ERR_UNUSABLE_SECKEY, m1, []. split_and!; try done.
      right. split; [done |]. intros [Hu _]%Forall_cons.
      apply account_record_usable in Hu. rewrite Hrec in Hu. by destruct Hu.
Qed.

(** The whole load, from any registry: the old records are gone; the
    new list is that of the usable entries before the first unusable one,
    last loaded first. *)
Lemma read_registry w m rs0 filename :
  registry m rs0 →
  ∃ err w' m' rs,
    otrl_privkey_read w m filename = (err, w', m') ∧
    registry m' rs ∧
    rs.*2 = reverse (loaded_records w filename) ∧
    match key_file_sexp w filename with
    | Some allkeys =>
        if decide (gcry_sexp_nth_data (Some allkeys) 0 = Some "privkeys") then
          (err = GPG_ERR_NO_ERROR ∧ Forall entry_usable (accounts_of (Some allkeys))) ∨
          (err = GPG_ERR_UNUSABLE_SECKEY ∧ ¬ Forall entry_usable (accounts_of (Some allkeys)))
        else err = GPG_ERR_UNUSABLE_SECKEY
    | None =>
        m' = Memory None ∅ ∧
        match fopen_read w filename with
        | (Some buf, w1) =>
            if decide (buf = EmptyString) then err = gcry_error_from_errno (w_errno w1)
            else ∃ code, gcry_sexp_new buf = Failed code ∧ err = GPG_ERR_LIBRARY code
        | (None, w1) => err = gcry_error_from_errno (w_errno w1)
        end
    end.
Proof.
  intros Hreg. unfold otrl_privkey_read, loaded_records, key_file_sexp.
  rewrite (forget_all_registry m rs0 Hreg).
  destruct (fopen_read w filename) as [[buf |] w1].
  2: { exists (gcry_error_from_errno (w_errno w1)), w1, (Memory None ∅), [].
       split_and!; try done. apply registry_empty_memory. }
  destruct (decide (buf = EmptyString)) as [-> | Hbuf].
  { exists (gcry_error_from_errno (w_errno w1)), w1, (Memory None ∅), [].
    split_and!; try done. apply registry_empty_memory. }
  destruct (gcry_sexp_new buf) as [allkeys | code].
  2: { exists (GPG_ERR_LIBRARY code), w1, (Memory None ∅), [].
       split_and!; try done; [apply registry_empty_memory | by exists code]. }
  destruct (decide (gcry_sexp_nth_data (Some allkeys) 0 = Some "privkeys")) as [Ht | Ht].
  2: { rewrite decide_True by done.
       exists GPG_ERR_UNUSABLE_SECKEY, w1, (Memory None ∅), [].
       split_and!; try done. apply registry_empty_memory. }
  rewrite (decide_False (P := gcry_sexp_nth_data (Some allkeys) 0 ≠ Some "privkeys"))
    by (intros Hne; exact (Hne Ht)).
  destruct (read_accounts_registry (Some allkeys) (gcry_sexp_length (Some allkeys) - 1) 1
              (Memory None ∅) [] registry_empty_memory)
    as (err & m' & news & -> & Hreg' & Hnews & Herr).
  rewrite app_nil_r in Hreg'. by exists err, w1, m', news.
Qed.

End read_proofs.

(** ** Key generation *)

Lemma string_app_assoc s t u : (s +:+ t) +:+ u = s +:+ (t +:+ u).
Proof. induction s as [| c s IH]; [done |]. rewrite !string_app_cons. by rewrite IH. Qed.

Lemma string_app_nil_r s : s +:+ EmptyString = s.
Proof. induction s as [| c s IH]; [done |]. rewrite string_app_cons. by rewrite IH. Qed.

Lemma take_chars_app n s t :
  take_chars n (s +:+ t) = take_chars n s +:+ take_chars (n - String.length s) t.
Proof.
  revert n. induction s as [| c s IH]; intros n.
  - change (EmptyString +:+ t) with t. rewrite Nat.sub_0_r. by destruct n.
  - rewrite string_app_cons. destruct n as [| n]; [by destruct t |].
    simpl. rewrite string_app_cons. by rewrite IH.
Qed.

Lemma take_chars_all n s : String.length s ≤ n → take_chars n s = s.
Proof.
  revert n. induction s as [| c s IH]; intros [| n] Hn; simpl in *; try done; [lia |].
  rewrite IH; [done | lia].
Qed.

Lemma texts_app l1 l2 : texts (l1 ++ l2) = texts l1 +:+ texts l2.
Proof.
  induction l1 as [| t l1 IH]; [done |]. cbn [app texts].
  by rewrite IH, string_app_assoc.
Qed.

(** With room for all of it, the whole text is in the file. *)
Lemma fit_enough_room space text :
  (∀ room, space = Some room → String.length text ≤ room) → fit space text = text.
Proof.
  destruct space as [room |]; [| done]. intros Hroom. by apply take_chars_all, Hroom.
Qed.

Section generate_proofs.
Context {G : Gcrypt}.

(** Writing more text to a file that has been written from its start. *)
Lemma fputs_written w path r wr text more :
  fputs (written w path r wr text) path more = written w path r wr (text +:+ more).
Proof.
  unfold fputs, written. cbn [w_files w_space w_dir_writable w_errno].
  rewrite lookup_insert_eq. cbn [f_data f_readable f_writable].
  destruct (room_once_open w path) as [room |]; cbn [fit].
  - rewrite insert_insert_eq, take_chars_app, string_length_app. f_equal.
    + f_equal. lia.
    + repeat case_decide; try done; lia.
  - by rewrite insert_insert_eq.
Qed.

Lemma account_write_written w path r wr text acc proto key :
  account_write (written w path r wr text) path acc proto key =
  written w path r wr (text +:+ account_text (acc, proto, key)).
Proof.
  unfold account_write, sexp_write, account_text.
  rewrite !fputs_written. by rewrite !string_app_assoc.
Qed.

Lemma write_other_keys_written fuel h t s rs w path r wr text acc proto :
  chain h t s rs → length rs ≤ fuel →
  write_other_keys fuel h s (written w path r wr text) path acc proto =
  written w path r wr (text +:+ texts (account_text <$> other_entries acc proto rs)).
Proof.
  unfold other_entries.
  revert fuel t s text. induction rs as [| [l d] rs IH]; intros fuel t s text; simpl.
  - intros -> _. rewrite string_app_nil_r. by destruct fuel.
  - intros (-> & k & Hk & _ & <- & Hc) Hfuel.
    destruct fuel as [| fuel]; [lia |]. simpl. rewrite Hk, identity_match.
    destruct (decide (identity (payload k) = (acc, proto))) as [Hid | Hid].
    + rewrite bool_decide_eq_true_2 by done. rewrite filter_cons_False by tauto.
      apply (IH _ _ _ _ Hc). lia.
    + rewrite bool_decide_eq_false_2 by done. rewrite filter_cons_True by done.
      rewrite account_write_written, (IH _ _ _ _ Hc) by lia.
      cbn [fmap list_fmap texts]. by rewrite string_app_assoc.
Qed.

Lemma fopen_write_written w path w1 :
  fopen_write w path = (true, w1) →
  ∃ r, w1 = written w path r true EmptyString.
Proof.
  assert (Hw : ∀ r, World (<[path:=File EmptyString r true]> (w_files w))
                      (w_dir_writable w) (room_once_open w path) (w_errno w) =
                    written w path r true EmptyString).
  { intros r. unfold written. destruct (room_once_open w path) as [room |]; [| done].
    cbn [fit String.length]. rewrite Nat.sub_0_r, decide_True by lia. by destruct room. }
  unfold fopen_write. destruct (w_files w !! path) as [f |].
  - destruct (f_writable f); [| done]. intros [= <-]. eexists. apply Hw.
  - destruct (w_dir_writable w); [| done]. intros [= <-]. eexists. apply Hw.
Qed.

Lemma fopen_write_failed w path w1 :
  fopen_write w path = (false, w1) → w1 = set_errno w EACCES.
Proof.
  unfold fopen_write. destruct (w_files w !! path) as [f |].
  - destruct (f_writable f); [done | by intros [= <-]].
  - destruct (w_dir_writable w); [done | by intros [= <-]].
Qed.

(** The loader reads the file system and writes nothing to it. *)
Lemma read_keeps_files w m filename :
  w_files (otrl_privkey_read w m filename).1.2 = w_files w.
Proof.
  unfold otrl_privkey_read, fopen_read.
  destruct (w_files w !! filename) as [f |]; [| done].
  destruct (f_readable f); [| done].
  destruct (decide (f_data f = EmptyString)); [done |].
  destruct (gcry_sexp_new (f_data f)); [| done].
  destruct (decide _); [done |].
  by destruct (read_accounts _ _ _ _).
Qed.

(** Key generation, once the key is made and the file is open: the file
    is rewritten from its start with the other records and the new key,
    and then loaded. *)
Lemma generate_written w m rs filename acc proto parms key w1 :
  registry m rs →
  gcry_sexp_new parmstr = Done parms → gcry_pk_genkey parms = Done key →
  fopen_write w filename = (true, w1) →
  ∃ r, otrl_privkey_generate w m filename acc proto =
       otrl_privkey_read
         (written w filename r true
            (key_file_text (other_entries acc proto rs ++
               [(acc, proto, gcry_sexp_find_token (Some key) "private-key")])))
         m filename.
Proof.
  intros Hreg Hparms Hkey Hopen. unfold otrl_privkey_generate.
  rewrite Hparms, Hkey, Hopen.
  apply fopen_write_written in Hopen as (r & ->). exists r.
  rewrite fputs_written.
  rewrite (write_other_keys_written _ _ RootSlot _ rs);
    [| apply Hreg | by apply registry_size].
  rewrite account_write_written, fputs_written. f_equal. f_equal.
  unfold key_file_text. rewrite fmap_app, texts_app. cbn [fmap list_fmap texts].
  change (EmptyString +:+ ("(privkeys" +:+ String LF EmptyString)) with ("(privkeys" +:+ String LF EmptyString).
  by rewrite string_app_nil_r, !string_app_assoc.
Qed.

End generate_proofs.

(** ** Reading back what was written *)

Lemma sexp_induction (P : sexp → Prop) :
  (∀ d, P (Data d)) → (∀ l, Forall P l → P (SList l)) → ∀ s, P s.
Proof.
  intros Hd Hl. fix IH 1. intros [d | l]; [apply Hd |].
  apply Hl. induction l as [| x l IHl]; constructor; [apply IH | exact IHl].
Qed.

(** What [gcry_sexp_find_token] returns is a list that starts with the
    token. *)
Lemma find_token_headed s tok r :
  find_token s tok = Some r → ∃ l, r = SList (Data tok :: l).
Proof.
  revert r. induction s as [d | l IH] using sexp_induction; intros r; [done |].
  cbn [find_token]. destruct (headed_by tok l) eqn:Hhead.
  - intros [= <-]. destruct l as [| [d |] l]; try done.
    apply bool_decide_eq_true in Hhead as ->. by exists l.
  - clear Hhead. induction IH as [| x l Hx _ IHl]; [done |].
    destruct (find_token x tok) as [r' |] eqn:Hr'; [| exact IHl].
    intros [= <-]. by apply Hx.
Qed.

Section decode_proofs.
Context {G : Gcrypt}.

Lemma account_entry_tree acc proto l :
  ¬ has_char NUL acc → ¬ has_char NUL proto →
  account_entry (Some (account_tree (acc, proto, Some (SList (Data "private-key" :: l))))) =
  Some (acc, proto, Some (SList (Data "private-key" :: l))).
Proof.
  intros Ha Hp. unfold account_entry, account_tree, gcry_sexp_build_1.
  cbn [app option_list gcry_sexp_nth_data lookup list_lookup].
  rewrite decide_True by done.
  cbn [gcry_sexp_find_token mbind option_bind find_token headed_by].
  rewrite !bool_decide_eq_false_2 by done.
  cbn [find_token headed_by]. rewrite !bool_decide_eq_true_2 by done.
  rewrite !bool_decide_eq_false_2 by done.
  cbn [find_token headed_by]. rewrite !bool_decide_eq_true_2 by done.
  rewrite decide_True by eauto.
  cbn [gcry_sexp_nth_data lookup list_lookup mbind option_bind].
  by rewrite !cstring_no_nul.
Qed.

Lemma accounts_from_trees pre (entries : list (string * string * option sexp)) :
  accounts_from (Some (SList (pre ++ (account_tree <$> entries))))
    (length pre) (length entries) =
  (λ e, Some (account_tree e)) <$> entries.
Proof.
  revert pre. induction entries as [| e entries IH]; intros pre; [done |].
  cbn [length]. rewrite accounts_from_S. cbn [fmap list_fmap]. f_equal.
  - cbn [gcry_sexp_nth]. rewrite list_lookup_middle by done.
    by destruct e as [[acc proto] key].
  - specialize (IH (pre ++ [account_tree e])).
    rewrite <- app_assoc, length_app in IH. cbn [app length] in IH.
    by rewrite Nat.add_1_r in IH.
Qed.

(** The tree of a key file yields its entries again under the
    structural checks of the loader. *)
Lemma key_file_tree_entries (entries : list (string * string * option sexp)) :
  Forall (λ e, (∃ l, e.2 = Some (SList (Data "private-key" :: l))) ∧
               ¬ has_char NUL e.1.1 ∧ ¬ has_char NUL e.1.2) entries →
  gcry_sexp_nth_data (Some (key_file_tree entries)) 0 = Some "privkeys" ∧
  account_entry <$> accounts_of (Some (key_file_tree entries)) = Some <$> entries.
Proof.
  intros Hwf. split; [done |]. unfold accounts_of, key_file_tree.
  cbn [gcry_sexp_length length]. rewrite Nat.sub_succ, Nat.sub_0_r, length_fmap.
  pose proof (accounts_from_trees [Data "privkeys"] entries) as E.
  cbn [app length] in E. rewrite E, <- list_fmap_compose. clear E.
  induction Hwf as [| [[acc proto] key] entries ((l & Hkey) & Ha & Hp) _ IH]; [done |].
  cbn [fmap list_fmap]. f_equal; [| exact IH].
  cbn [fst snd] in *. subst key. cbn [compose]. by apply account_entry_tree.
Qed.

End decode_proofs.

(** ** The frame of the key file *)

Lemma string_app_nil_l s : EmptyString +:+ s = s.
Proof. reflexivity. Qed.

Section frame_proofs.
Context {G : Gcrypt}.

(** What [account_write] writes for a record with a key is a text of
    the "account" list of its name, protocol and key. *)
Lemma account_text_is_text acc proto k :
  sexp_text (account_tree (acc, proto, Some k)) (account_text (acc, proto, Some k)).
Proof.
  unfold account_tree, account_text. cbn [app option_list].
  replace ((" (account" +:+ String LF EmptyString) +:+
           gcry_sexp_sprint (Some (gcry_sexp_build_1 "name" acc)) +:+
           gcry_sexp_sprint (Some (gcry_sexp_build_1 "protocol" proto)) +:+
           gcry_sexp_sprint (Some k) +:+ (" )" +:+ String LF EmptyString))
    with (" " +:+ "(" +:+ "account" +:+ String LF EmptyString +:+
          texts [gcry_sexp_sprint (Some (gcry_sexp_build_1 "name" acc));
                 gcry_sexp_sprint (Some (gcry_sexp_build_1 "protocol" proto));
                 gcry_sexp_sprint (Some k)] +:+
          " " +:+ ")" +:+ String LF EmptyString).
  - apply text_list.
    + split; [done |]. repeat constructor.
    + repeat constructor.
    + repeat constructor.
    + done.
    + repeat constructor.
    + repeat constructor.
    + repeat constructor.
  - cbn [texts].
    repeat first [rewrite string_app_assoc | rewrite string_app_cons
                 | rewrite string_app_nil_l | rewrite string_app_nil_r].
    reflexivity.
Qed.

(** The text of a key file whose entries all have a key is a text of
    the "privkeys" list of their "account" lists. *)
Lemma key_file_text_is_text (entries : list (string * string * option sexp)) :
  Forall (λ e, is_Some e.2) entries →
  sexp_text (key_file_tree entries) (key_file_text entries).
Proof.
  intros Hkeys. unfold key_file_tree, key_file_text.
  replace (("(privkeys" +:+ String LF EmptyString) +:+
           texts (account_text <$> entries) +:+ (")" +:+ String LF EmptyString))
    with (EmptyString +:+ "(" +:+ "privkeys" +:+ String LF EmptyString +:+
          texts (account_text <$> entries) +:+
          EmptyString +:+ ")" +:+ String LF EmptyString).
  - apply text_list.
    + split; [done |]. repeat constructor.
    + constructor.
    + repeat constructor.
    + done.
    + constructor.
    + repeat constructor.
    + induction Hkeys as [| [[acc proto] key] entries [k Hk] _ IH]; cbn [fmap list_fmap];
        constructor; [| exact IH].
      cbn [snd] in Hk. subst key. apply account_text_is_text.
  - repeat first [rewrite string_app_assoc | rewrite string_app_cons
                 | rewrite string_app_nil_l | rewrite string_app_nil_r].
    reflexivity.
Qed.

End frame_proofs.

(** The list a memory represents is determined by the memory. *)
Lemma chain_records_unique h t p rs1 rs2 :
  chain h t p rs1 → chain h t p rs2 → rs1 = rs2.
Proof.
  revert t p rs2. induction rs1 as [| [l d] rs1 IH]; intros t p [| [l' d'] rs2]; simpl.
  - done.
  - by intros -> [[=] _].
  - by intros [-> _] [=].
  - intros (-> & k & Hk & _ & Hd & Hc) ([= <-] & k' & Hk' & _ & Hd' & Hc').
    rewrite Hk in Hk'. injection Hk' as <-. subst d d'. f_equal.
    by apply (IH _ _ _ Hc Hc').
Qed.

(** ** What the loader leaves in the registry *)

Lemma first_with_None_iff acc proto rs :
  first_with acc proto rs = None ↔ (acc, proto) ∉ identity <$> rs.*2.
Proof.
  induction rs as [| [l d] rs IH]; simpl.
  - split; [intros _ ?%elem_of_nil | ]; done.
  - rewrite not_elem_of_cons, <- IH. case_bool_decide; naive_solver.
Qed.

Section load_theorems.
Context {G : Gcrypt}.

Lemma not_all_usable (l : list (option sexp)) :
  ¬ Forall entry_usable l ↔ Exists (λ e, ¬ entry_usable e) l.
Proof.
  induction l as [| e l IH].
  - split; [intros Hn; destruct Hn; constructor | by intros ?%Exists_nil].
  - rewrite Forall_cons, Exists_cons, <- IH.
    destruct (decide (is_Some (account_record e))) as [Hu%account_record_usable | Hu].
    + tauto.
    + rewrite account_record_usable in Hu. tauto.
Qed.

Lemma unusable_entry_index allkeys :
  ¬ Forall entry_usable (accounts_of allkeys) ↔
  ∃ i, 1 ≤ i < gcry_sexp_length allkeys ∧ ¬ entry_usable (gcry_sexp_nth allkeys i).
Proof.
  rewrite not_all_usable. unfold accounts_of, accounts_from.
  rewrite Exists_exists. split.
  - intros (e & (i & -> & Hi%elem_of_seq)%list_elem_of_fmap & Hbad).
    exists i. split; [lia | exact Hbad].
  - intros (i & Hi & Hbad). exists (gcry_sexp_nth allkeys i). split; [| exact Hbad].
    apply list_elem_of_fmap. exists i. split; [done |]. apply elem_of_seq. lia.
Qed.

Lemma account_record_wellformed accounts d :
  account_record accounts = Some d → record_wellformed d.
Proof.
  unfold account_record, account_entry.
  destruct (decide _); [| done]. destruct (decide _) as [(_ & _ & [k Hk]) |]; [| done].
  destruct (gcry_sexp_nth_data (gcry_sexp_find_token accounts "name") 1) as [name |];
    cbn [mbind option_bind]; [| done].
  destruct (gcry_sexp_nth_data (gcry_sexp_find_token accounts "protocol") 1) as [proto |];
    cbn [mbind option_bind]; [| done].
  destruct (otrl_proto_make_pubkey _); [| done].
  intros [= <-]. unfold record_wellformed. cbn [kd_privkey kd_accountname kd_protocol].
  split_and!; [| apply cstring_has_no_nul | apply cstring_has_no_nul].
  rewrite Hk. unfold gcry_sexp_find_token in Hk.
  destruct accounts as [s |]; [| done]. cbn [mbind option_bind] in Hk.
  apply find_token_headed in Hk as [l ->]. by exists l.
Qed.

(** Every record the loader leaves holds a "private-key" list and C
    strings. *)
Lemma loaded_records_wellformed w filename :
  Forall record_wellformed (loaded_records w filename).
Proof.
  unfold loaded_records. destruct (key_file_sexp w filename); [| constructor].
  destruct (decide _); [| constructor].
  induction (accounts_of (Some s)) as [| a l IH]; [constructor |].
  cbn [usable_prefix]. destruct (account_record a) eqn:Ha; [| constructor].
  constructor; [by apply (account_record_wellformed a) | exact IH].
Qed.

(** C1, as the code has it.  A load starts by forgetting every key.
    When it fails, the registry holds the records of the entries that
    precede the first unusable one (the last of them first), and no
    others: a search finds nothing exactly for the identities that are
    not among those entries.  It is empty when the failure comes before
    the first entry: the file cannot be opened or is empty, the text does
    not parse, or the outer token is wrong. *)
Theorem failed_load_keeps_prefix (w : world) (m : memory) (rs0 : list (loc * key_data))
    (filename : string) (err : gcry_error) (w' : world) (m' : memory) :
  registry m rs0 →
  otrl_privkey_read w m filename = (err, w', m') →
  err ≠ GPG_ERR_NO_ERROR →
  ∃ rs,
    registry m' rs ∧
    rs.*2 = reverse (loaded_records w filename) ∧
    (∀ acc proto,
       otrl_privkey_find m' (Some acc) (Some proto) = None ↔
       (acc, proto) ∉ identity <$> loaded_records w filename) ∧
    (loaded_records w filename = [] → m' = Memory None ∅) ∧
    (err ≠ GPG_ERR_UNUSABLE_SECKEY → loaded_records w filename = []) ∧
    (∀ allkeys, key_file_sexp w filename = Some allkeys →
       gcry_sexp_nth_data (Some allkeys) 0 ≠ Some "privkeys" →
       loaded_records w filename = []).
Proof.
  intros Hreg Hread Herr.
  destruct (read_registry w m rs0 filename Hreg)
    as (err1 & w1 & m1 & rs & Hread1 & Hreg' & Hrs & Hstatus).
  rewrite Hread in Hread1. injection Hread1 as <- <- <-.
  exists rs. split_and!; try done.
  - intros acc proto. rewrite (find_registry m' rs) by done.
    rewrite first_with_None_iff, Hrs, fmap_reverse, elem_of_reverse. done.
  - intros Hnone. rewrite Hnone in Hrs. destruct rs; [| done].
    by apply registry_empty.
  - intros Hne. unfold loaded_records in *.
    destruct (key_file_sexp w filename); [| done].
    destruct (decide _); [| done]. destruct Hstatus as [[? _] | [? _]]; done.
  - intros allkeys Hk Htok. unfold loaded_records. rewrite Hk.
    by rewrite decide_False.
Qed.

(** C5, as the code has it.  For a key file that can be read and is not
    empty, the load fails exactly when the text does not parse, or the
    outer token is not "privkeys", or some entry is unusable: its outer
    token is not "account", or it lacks a "name", "protocol" or
    "private-key" element, or its "name" or "protocol" element has no
    value, or no public key can be derived from its key.  When the text
    does not parse the error is the parser's own code and the registry
    is empty; when it parses, a failure is [GPG_ERR_UNUSABLE_SECKEY].
    The records of the entries before the first unusable one stay in the
    registry. *)
Theorem read_fails_exactly_when (w : world) (m : memory) (rs0 : list (loc * key_data))
    (filename buf : string) (w1 : world) (err : gcry_error) (w' : world) (m' : memory) :
  registry m rs0 →
  fopen_read w filename = (Some buf, w1) → buf ≠ EmptyString →
  otrl_privkey_read w m filename = (err, w', m') →
  (err ≠ GPG_ERR_NO_ERROR ↔
     (∃ code, gcry_sexp_new buf = Failed code) ∨
     (∃ allkeys, gcry_sexp_new buf = Done allkeys ∧
        (gcry_sexp_nth_data (Some allkeys) 0 ≠ Some "privkeys" ∨
         ∃ i, 1 ≤ i < gcry_sexp_length (Some allkeys) ∧
              ¬ entry_usable (gcry_sexp_nth (Some allkeys) i)))) ∧
  match gcry_sexp_new buf with
  | Failed code => err = GPG_ERR_LIBRARY code ∧ m' = Memory None ∅
  | Done _ => err = GPG_ERR_NO_ERROR ∨ err = GPG_ERR_UNUSABLE_SECKEY
  end ∧
  ∃ rs, registry m' rs ∧ rs.*2 = reverse (loaded_records w filename).
Proof.
  intros Hreg Hopen Hbuf Hread.
  destruct (read_registry w m rs0 filename Hreg)
    as (err1 & w2 & m1 & rs & Hread1 & Hreg' & Hrs & Hstatus).
  rewrite Hread in Hread1. injection Hread1 as <- <- <-.
  unfold key_file_sexp in Hstatus. rewrite Hopen in Hstatus.
  destruct (decide (buf = EmptyString)) as [| _]; [done |].
  split_and!; [| | by exists rs].
  - destruct (gcry_sexp_new buf) as [allkeys | code].
    + destruct (decide (gcry_sexp_nth_data (Some allkeys) 0 = Some "privkeys")) as [Ht | Ht].
      * destruct Hstatus as [[-> Hall] | [-> Hbad]].
        -- split; [done |]. intros [[? [=]] | (? & [= <-] & [? | Hi])]; [done |].
           by apply unusable_entry_index in Hi.
        -- split; [| done]. intros _. right. exists allkeys. split; [done |].
           right. by apply unusable_entry_index.
      * subst err. split; [| done]. intros _. right. exists allkeys. eauto.
    + destruct Hstatus as (_ & code' & [= <-] & ->). split; [| done]. eauto.
  - destruct (gcry_sexp_new buf) as [allkeys | code].
    + destruct (decide _); [destruct Hstatus as [[-> _] | [-> _]] |]; eauto.
    + destruct Hstatus as (-> & code' & [= <-] & ->). done.
Qed.

End load_theorems.

Lemma filter_fmap_snd (p : loc) (rs : list (loc * key_data)) :
  sublist (filter (λ r, r.1 ≠ p) rs).*2 rs.*2.
Proof. apply fmap_sublist, sublist_filter. Qed.

Lemma length_filter_unique {A B} `{EqDecision B} (f : A → B) (x : B) (l : list A) :
  NoDup (f <$> l) → x ∈ f <$> l →
  S (length (filter (λ a, f a ≠ x) l)) = length l.
Proof.
  induction l as [| a l IH]; cbn [fmap list_fmap]; [by intros _ ?%elem_of_nil |].
  intros [Ha Hnd]%NoDup_cons Hin. destruct (decide (f a = x)) as [<- | Hne].
  - rewrite filter_cons_False by tauto. cbn [length]. f_equal.
    f_equal. apply filter_all, Forall_forall. intros b Hb Heq.
    apply Ha. rewrite <- Heq. apply list_elem_of_fmap. by exists b.
  - rewrite filter_cons_True by done. cbn [length]. f_equal.
    apply IH; [done |]. apply elem_of_cons in Hin as [-> | ?]; done.
Qed.

Lemma mapM_fmap_Some {A B} (f : A → option B) (l : list A) (k : list B) :
  f <$> l = Some <$> k → mapM f l = Some k.
Proof.
  intros Heq. apply mapM_Some. revert k Heq.
  induction l as [| x l IH]; intros [| y k]; cbn [fmap list_fmap]; try done.
  intros [= Hx Hl]. constructor; [done | by apply IH].
Qed.

Lemma filter_nil_all {A} (P : A → Prop) `{∀ x, Decision (P x)} (l : list A) :
  Forall (λ x, ¬ P x) l → filter P l = [].
Proof.
  induction 1 as [| x l Hx _ IH]; [done |]. by rewrite filter_cons_False.
Qed.

Lemma length_filter_split {A} (P : A → Prop) `{∀ x, Decision (P x)} (l : list A) :
  length (filter (λ x, ¬ P x) l) + length (filter P l) = length l.
Proof.
  induction l as [| x l IH]; [done |]. destruct (decide (P x)).
  - rewrite (filter_cons_True P), (filter_cons_False (λ x, ¬ P x)) by tauto.
    cbn [length]. lia.
  - rewrite (filter_cons_False P), (filter_cons_True (λ x, ¬ P x)) by done.
    cbn [length]. lia.
Qed.

Section generate_theorems.
Context {G : Gcrypt}.

(** Once the key is made and the path is open, the file at the path
    holds the new document (what fits of it) when the call returns,
    whatever it returns, and the other files are as they were. *)
Lemma generate_file_content w m rs filename acc proto parms key err w' m' :
  registry m rs →
  gcry_sexp_new parmstr = Done parms → gcry_pk_genkey parms = Done key →
  (fopen_write w filename).1 = true →
  otrl_privkey_generate w m filename acc proto = (err, w', m') →
  ∃ r, w_files w' =
       <[filename:=File (fit (room_once_open w filename)
                           (key_file_text
                              (other_entries acc proto rs ++
                               [(acc, proto, gcry_sexp_find_token (Some key) "private-key")])))
                        r true]> (w_files w).
Proof.
  intros Hreg Hparms Hkey Hopen Hgen.
  destruct (fopen_write w filename) as [[] w1] eqn:Hopen'; [| done].
  destruct (generate_written w m rs filename acc proto parms key w1 Hreg Hparms Hkey Hopen')
    as (r & Hwritten).
  rewrite Hwritten in Hgen.
  pose proof (read_keeps_files
    (written w filename r true
       (key_file_text (other_entries acc proto rs ++
          [(acc, proto, gcry_sexp_find_token (Some key) "private-key")]))) m filename)
    as Hfiles.
  rewrite Hgen in Hfiles. cbn [fst snd written w_files] in Hfiles. by exists r.
Qed.

Lemma usable_prefix_records (l : list (option sexp)) :
  Forall entry_usable l → account_record <$> l = Some <$> usable_prefix l.
Proof.
  induction 1 as [| e l He _ IH]; [done |].
  apply account_record_usable in He as [d Hd].
  cbn [usable_prefix fmap list_fmap]. rewrite Hd. cbn [fmap list_fmap]. by rewrite IH.
Qed.

Lemma usable_prefix_identities (l : list (option sexp))
    (entries : list (string * string * option sexp)) :
  account_entry <$> l = Some <$> entries → Forall entry_usable l →
  identity <$> usable_prefix l = fst <$> entries.
Proof.
  revert entries. induction l as [| e l IH]; intros [| [[name proto] privs] entries];
    try done.
  cbn [fmap list_fmap]. intros [= He Hl] [Hu Hall]%Forall_cons.
  apply account_record_usable in Hu as [d Hd].
  cbn [usable_prefix]. rewrite Hd. cbn [fmap list_fmap]. f_equal; [| by apply IH].
  unfold account_record in Hd. rewrite He in Hd. cbn [mbind option_bind] in Hd.
  destruct (otrl_proto_make_pubkey privs); [| done]. by injection Hd as <-.
Qed.

(** A successful load of a file that holds the text of [entries], read
    by the parser as their tree, leaves records with the identities of
    the entries, the last first. *)
Lemma written_file_identities w m rs0 filename r entries w' m' rs :
  registry m rs0 →
  Forall (λ e, (∃ l, e.2 = Some (SList (Data "private-key" :: l))) ∧
               ¬ has_char NUL e.1.1 ∧ ¬ has_char NUL e.1.2) entries →
  fit (room_once_open w filename) (key_file_text entries) = key_file_text entries →
  gcry_sexp_new (key_file_text entries) = Done (key_file_tree entries) →
  otrl_privkey_read (written w filename r true (key_file_text entries)) m filename =
    (GPG_ERR_NO_ERROR, w', m') →
  registry m' rs →
  identity <$> rs.*2 = reverse (fst <$> entries).
Proof.
  intros Hreg Hwf Hroom Hparse Hread Hreg'.
  set (w1 := written w filename r true (key_file_text entries)) in *.
  destruct (read_registry w1 m rs0 filename Hreg)
    as (err1 & w2 & m1 & rs1 & Hread1 & Hreg1 & Hrs1 & Hstatus).
  rewrite Hread in Hread1. injection Hread1 as <- <- <-.
  assert (rs = rs1) as <-.
  { apply (chain_records_unique (nodes m') RootSlot (privkey_root m'));
      [apply Hreg' | apply Hreg1]. }
  destruct (key_file_tree_entries entries Hwf) as [Htok Hentries].
  assert (Hopen : fopen_read w1 filename =
                  if r then (Some (key_file_text entries), w1)
                  else (None, set_errno w1 EACCES)).
  { unfold fopen_read, w1, written. cbn [w_files]. rewrite lookup_insert_eq.
    cbn [f_readable f_data]. rewrite Hroom. by destruct r. }
  unfold loaded_records, key_file_sexp in Hrs1, Hstatus. rewrite Hopen in Hrs1, Hstatus.
  destruct r; [| by destruct Hstatus as [_ [=]]].
  rewrite decide_False, Hparse in Hrs1, Hstatus by done.
  cbv beta iota in Hrs1, Hstatus.
  rewrite decide_True in Hrs1 by done. rewrite decide_True in Hstatus by done.
  destruct Hstatus as [[_ Hall] | [[=] _]].
  rewrite Hrs1, fmap_reverse. f_equal. by apply usable_prefix_identities.
Qed.

(** C4, as the code has it.  After a successful load the registry holds
    one record per entry of the key file, the last entry first, so no two
    records share an identity exactly when no two entries of the file do:
    the loader neither merges nor rejects entries with the same
    accountname and protocol.  Forgetting a record keeps identities
    distinct.  A successful generation is a successful load of the file
    it has just written, the entries of the records with another
    identity followed by the new entry; when that text fits on the
    device and the parser reads it, a well-formed text, as the tree it
    is a text of, the registry then holds one record with the requested
    identity followed by records with the identities of the other old
    records in reverse order, so that generation keeps identities
    distinct. *)
Theorem registry_identities_follow_file (m : memory) (rs : list (loc * key_data)) :
  registry m rs →
  (∀ w filename w' m',
     otrl_privkey_read w m filename = (GPG_ERR_NO_ERROR, w', m') →
     ∃ rs', registry m' rs' ∧
            rs'.*2 = reverse (loaded_records w filename) ∧
            (NoDup (identity <$> rs'.*2) ↔
             NoDup (identity <$> loaded_records w filename)) ∧
            match key_file_sexp w filename with
            | Some allkeys =>
                gcry_sexp_nth_data (Some allkeys) 0 = Some "privkeys" ∧
                account_record <$> accounts_of (Some allkeys) =
                  Some <$> loaded_records w filename ∧
                length rs' = gcry_sexp_length (Some allkeys) - 1
            | None => rs' = []
            end) ∧
  (∀ p d, (p, d) ∈ rs → NoDup (identity <$> rs.*2) →
     registry (otrl_privkey_forget p m) (filter (λ r, r.1 ≠ p) rs) ∧
     NoDup (identity <$> (filter (λ r, r.1 ≠ p) rs).*2)) ∧
  (∀ w filename acc proto w' m',
     otrl_privkey_generate w m filename acc proto = (GPG_ERR_NO_ERROR, w', m') →
     ∃ parms key r rs',
       gcry_sexp_new parmstr = Done parms ∧ gcry_pk_genkey parms = Done key ∧
       let entries :=
         other_entries acc proto rs ++
         [(acc, proto, gcry_sexp_find_token (Some key) "private-key")] in
       let w1 := written w filename r true (key_file_text entries) in
       otrl_privkey_read w1 m filename = (GPG_ERR_NO_ERROR, w', m') ∧
       registry m' rs' ∧
       rs'.*2 = reverse (loaded_records w1 filename) ∧
       (Forall record_wellformed rs.*2 →
        ¬ has_char NUL acc → ¬ has_char NUL proto →
        is_Some (gcry_sexp_find_token (Some key) "private-key") →
        fit (room_once_open w filename) (key_file_text entries) = key_file_text entries →
        (sexp_text (key_file_tree entries) (key_file_text entries) →
         gcry_sexp_new (key_file_text entries) = Done (key_file_tree entries)) →
        identity <$> rs'.*2 =
          (acc, proto) ::
          reverse (identity <$> filter (λ d, identity d ≠ (acc, proto)) rs.*2) ∧
        (NoDup (identity <$> rs.*2) → NoDup (identity <$> rs'.*2)))).
Proof.
  intros Hreg.
  assert (Hload : ∀ w filename w' m',
     otrl_privkey_read w m filename = (GPG_ERR_NO_ERROR, w', m') →
     ∃ rs', registry m' rs' ∧ rs'.*2 = reverse (loaded_records w filename) ∧
            match key_file_sexp w filename with
            | Some allkeys =>
                gcry_sexp_nth_data (Some allkeys) 0 = Some "privkeys" ∧
                Forall entry_usable (accounts_of (Some allkeys))
            | None => True
            end).
  { intros w filename w' m' Hread.
    destruct (read_registry w m rs filename Hreg)
      as (err1 & w1 & m1 & rs' & Hread1 & Hreg' & Hrs & Hstatus).
    rewrite Hread in Hread1. injection Hread1 as <- <- <-.
    exists rs'. split; [done |]. split; [done |].
    destruct (key_file_sexp w filename) as [allkeys |]; [| done].
    destruct (decide _) as [Htok |]; [| done].
    by destruct Hstatus as [[_ Hall] | [[=] _]]. }
  split; [| split].
  - intros w filename w' m' Hread.
    destruct (Hload _ _ _ _ Hread) as (rs' & Hreg' & Hrs & Hdoc).
    exists rs'. split; [done |]. split; [done |]. split.
    { by rewrite Hrs, fmap_reverse, reverse_Permutation. }
    unfold loaded_records in Hrs |- *.
    destruct (key_file_sexp w filename) as [allkeys |].
    + destruct Hdoc as [Htok Hall]. rewrite decide_True in Hrs |- * by done.
      split; [done |]. split; [by apply usable_prefix_records |].
      rewrite <- (length_fmap snd), Hrs, length_reverse.
      rewrite <- (length_fmap Some), <- (usable_prefix_records _ Hall), length_fmap.
      unfold accounts_of, accounts_from. by rewrite length_fmap, length_seq.
    + by destruct rs'.
  - intros p d Hin Hnd. split; [by apply (forget_registry m rs p d) |].
    eapply sublist_NoDup; [exact Hnd |]. apply fmap_sublist, filter_fmap_snd.
  - intros w filename acc proto w' m' Hgen.
    destruct (gcry_sexp_new parmstr) as [parms |] eqn:Hparms;
      [| unfold otrl_privkey_generate in Hgen; by rewrite Hparms in Hgen].
    destruct (gcry_pk_genkey parms) as [key |] eqn:Hkey;
      [| unfold otrl_privkey_generate in Hgen; by rewrite Hparms, Hkey in Hgen].
    destruct (fopen_write w filename) as [[] w1] eqn:Hopen.
    2: { unfold otrl_privkey_generate in Hgen. rewrite Hparms, Hkey, Hopen in Hgen.
         apply fopen_write_failed in Hopen as ->. done. }
    destruct (generate_written w m rs filename acc proto parms key w1 Hreg Hparms Hkey Hopen)
      as (r & Hwritten).
    rewrite Hwritten in Hgen.
    destruct (Hload _ _ _ _ Hgen) as (rs' & Hreg' & Hrs & _).
    exists parms, key, r, rs'. split; [done |]. split; [done |]. cbv zeta.
    split; [done |]. split; [done |]. split; [done |].
    intros Hwf Ha Hp [newkey Hnew] Hroom Hparse. rewrite Hnew in *.
    cbn [gcry_sexp_find_token mbind option_bind] in Hnew.
    destruct (find_token_headed _ _ _ Hnew) as [elements ->].
    set (others := filter (λ d, identity d ≠ (acc, proto)) rs.*2).
    set (entries := other_entries acc proto rs ++
                    [(acc, proto, Some (SList (Data "private-key" :: elements)))]) in *.
    assert (Hids : identity <$> rs'.*2 = (acc, proto) :: reverse (identity <$> others)).
    { rewrite (written_file_identities w m rs filename r entries w' m' rs' Hreg); try done.
      - unfold entries, other_entries. fold others.
        rewrite fmap_app, reverse_app, <- list_fmap_compose. done.
      - unfold entries, other_entries. apply Forall_app. split.
        + apply Forall_fmap, Forall_forall. intros d [_ Hd]%list_elem_of_filter.
          by apply (proj1 (Forall_forall _ _) Hwf).
        + repeat constructor; cbn; eauto.
      - apply Hparse, key_file_text_is_text. unfold entries, other_entries.
        apply Forall_app. split; [| by repeat constructor].
        apply Forall_fmap, Forall_forall. intros d [_ Hd]%list_elem_of_filter.
        destruct (proj1 (Forall_forall _ _) Hwf d Hd) as [[l Hl] _].
        cbn. rewrite Hl. done. }
    split; [exact Hids |]. intros Hnd. rewrite Hids. apply NoDup_cons. split.
    + rewrite elem_of_reverse. intros (d & Hd & [Hne _]%list_elem_of_filter)%list_elem_of_fmap.
      by apply Hne.
    + rewrite reverse_Permutation. eapply sublist_NoDup; [exact Hnd |].
      apply fmap_sublist, sublist_filter.
Qed.

(** C2, as the code has it.  Key generation opens the target path itself
    for writing and rewrites it from its start; no other path is touched:
    there is no temporary file and no rename.  When the key cannot be
    generated or the path cannot be opened, the call fails with the file
    system and the registry as they were.  Once the path is open, the
    file holds the new document, or the part of it the device had room
    for, whatever the call returns. *)
Theorem generate_rewrites_in_place (w : world) (m : memory) (rs : list (loc * key_data))
    (filename acc proto : string) (err : gcry_error) (w' : world) (m' : memory) :
  registry m rs →
  otrl_privkey_generate w m filename acc proto = (err, w', m') →
  (∀ path, path ≠ filename → w_files w' !! path = w_files w !! path) ∧
  ((∃ code, gcry_sexp_new parmstr = Failed code) ∨
   (∃ parms code, gcry_sexp_new parmstr = Done parms ∧ gcry_pk_genkey parms = Failed code) ∨
   (fopen_write w filename).1 = false →
   err ≠ GPG_ERR_NO_ERROR ∧ w_files w' = w_files w ∧ m' = m) ∧
  (∀ parms key,
     gcry_sexp_new parmstr = Done parms → gcry_pk_genkey parms = Done key →
     (fopen_write w filename).1 = true →
     ∃ r, w_files w' !! filename =
          Some (File (fit (room_once_open w filename)
                        (key_file_text
                           (other_entries acc proto rs ++
                            [(acc, proto, gcry_sexp_find_token (Some key) "private-key")])))
                     r true)).
Proof.
  intros Hreg Hgen.
  destruct (gcry_sexp_new parmstr) as [parms | code] eqn:Hparms.
  2: { unfold otrl_privkey_generate in Hgen. rewrite Hparms in Hgen.
       injection Hgen as <- <- <-. split_and!; [done | done |].
       by intros parms key [=]. }
  destruct (gcry_pk_genkey parms) as [key | code] eqn:Hkey.
  2: { unfold otrl_privkey_generate in Hgen. rewrite Hparms, Hkey in Hgen.
       injection Hgen as <- <- <-. split_and!; [done | done |].
       intros parms' key [= <-]. by rewrite Hkey. }
  destruct (fopen_write w filename) as [[] w1] eqn:Hopen.
  - destruct (generate_file_content w m rs filename acc proto parms key err w' m')
      as (r & Hfiles); try done; [by rewrite Hopen |].
    split_and!.
    + intros path Hpath. rewrite Hfiles. by apply lookup_insert_ne.
    + intros [[? [=]] | [(? & ? & [= <-] & Hk) | [=]]]. by rewrite Hkey in Hk.
    + intros parms' key' [= <-] Hkey' _. rewrite Hkey in Hkey'. injection Hkey' as <-.
      exists r. rewrite Hfiles. apply lookup_insert_eq.
  - unfold otrl_privkey_generate in Hgen. rewrite Hparms, Hkey, Hopen in Hgen.
    apply fopen_write_failed in Hopen as ->. injection Hgen as <- <- <-.
    split_and!; [done | | by intros ? ? _ _ [=]].
    intros _. by split_and!.
Qed.

(** C6, as the code has it.  For a registry and a requested identity, a
    generation that makes its key, opens the file and has room for the
    text leaves a key file whose text is that of the records with another
    identity, unchanged and in registry order, followed by one entry for
    the requested identity with the new key.  That text, the frame
    written by hand around what libgcrypt prints, is a well-formed text
    of the tree of those entries.  When libgcrypt's parser reads this
    well-formed text as the tree it is a text of, the loader's reading of
    the file yields exactly those entries.  Every record with the
    requested identity is left out: exactly one when no two records share
    an identity. *)
Theorem generate_key_file_entries (w : world) (m : memory) (rs : list (loc * key_data))
    (filename acc proto : string) (parms key newkey : sexp)
    (err : gcry_error) (w' : world) (m' : memory) :
  registry m rs →
  Forall record_wellformed rs.*2 →
  ¬ has_char NUL acc → ¬ has_char NUL proto →
  gcry_sexp_new parmstr = Done parms → gcry_pk_genkey parms = Done key →
  find_token key "private-key" = Some newkey →
  (fopen_write w filename).1 = true →
  let entries := other_entries acc proto rs ++ [(acc, proto, Some newkey)] in
  fit (room_once_open w filename) (key_file_text entries) = key_file_text entries →
  (sexp_text (key_file_tree entries) (key_file_text entries) →
   gcry_sexp_new (key_file_text entries) = Done (key_file_tree entries)) →
  otrl_privkey_generate w m filename acc proto = (err, w', m') →
  (∃ f, w_files w' !! filename = Some f ∧
        f_data f = key_file_text entries ∧
        key_file_entries (f_data f) = Some entries) ∧
  (∀ d, d ∈ rs.*2 → identity d ≠ (acc, proto) → entry_of d ∈ entries) ∧
  filter (λ e, e.1 = (acc, proto)) entries = [(acc, proto, Some newkey)] ∧
  length entries + length (filter (λ d, identity d = (acc, proto)) rs.*2) = S (length rs) ∧
  (NoDup (identity <$> rs.*2) → (acc, proto) ∈ identity <$> rs.*2 →
   length entries = length rs) ∧
  sexp_text (key_file_tree entries) (key_file_text entries).
Proof.
  intros Hreg Hwf Ha Hp Hparms Hkey Hpriv Hopen.
  destruct (find_token_headed _ _ _ Hpriv) as [l ->].
  intros entries Hroom Hreads Hgen.
  assert (Hothers : ∀ e, e ∈ other_entries acc proto rs → e.1 ≠ (acc, proto)).
  { intros e (d & -> & [Hid _]%list_elem_of_filter)%list_elem_of_fmap. exact Hid. }
  assert (Hentries_wf :
    Forall (λ e, (∃ l, e.2 = Some (SList (Data "private-key" :: l))) ∧
                 ¬ has_char NUL e.1.1 ∧ ¬ has_char NUL e.1.2) entries).
  { subst entries. unfold other_entries. apply Forall_app. split.
    - apply Forall_fmap, Forall_forall. intros d [_ Hd]%list_elem_of_filter.
      by apply (proj1 (Forall_forall _ _) Hwf).
    - repeat constructor; cbn; eauto. }
  assert (Htext : sexp_text (key_file_tree entries) (key_file_text entries)).
  { apply key_file_text_is_text. eapply Forall_impl; [exact Hentries_wf |].
    intros e [[elements He] _]. rewrite He. done. }
  pose proof (Hreads Htext) as Hparse.
  split; [| split; [| split; [| split; [| split]]]].
  - destruct (generate_file_content w m rs filename acc proto parms key err w' m')
      as (r & Hfiles); try done.
    eexists. rewrite Hfiles, lookup_insert_eq. split; [done |].
    cbn [f_data gcry_sexp_find_token mbind option_bind]. rewrite Hpriv.
    fold entries. rewrite Hroom. split; [done |].
    unfold key_file_entries. rewrite Hparse.
    destruct (key_file_tree_entries entries Hentries_wf) as [Htok Hentries].
    rewrite decide_True by done. by apply mapM_fmap_Some.
  - intros d Hd Hid. subst entries. apply elem_of_app. left.
    apply list_elem_of_fmap. exists d. split; [done |]. by apply list_elem_of_filter.
  - subst entries. rewrite filter_app, filter_cons_True, filter_nil by done.
    rewrite (filter_nil_all _ (other_entries acc proto rs)); [done |].
    apply Forall_forall. intros e He. by apply Hothers.
  - subst entries. unfold other_entries.
    rewrite length_app, length_fmap. cbn [length].
    rewrite <- (length_fmap snd rs).
    pose proof (length_filter_split (λ d, identity d = (acc, proto)) rs.*2). lia.
  - intros Hnd Hin. subst entries. unfold other_entries.
    rewrite length_app, length_fmap, <- (length_fmap snd rs). cbn [length].
    rewrite Nat.add_1_r. by apply (length_filter_unique identity).
  - exact Htext.
Qed.

End generate_theorems.

(** ** The model on concrete key files *)

Lemma two_keys_loaded :
  load_file two_keys_file = (GPG_ERR_NO_ERROR, one_file key_path two_keys_file, two_keys_memory).
Proof. vm_compute. reflexivity. Qed.

Lemma two_keys_registry : registry two_keys_memory two_keys_records.
Proof.
  assert (Hnodes : nodes two_keys_memory =
            <[2%positive := MkPrivKey "bob" "irc" (key_of "#34#") (pubkey_of "#34#")
                              (Some 1%positive) RootSlot]>
              (<[1%positive := MkPrivKey "alice" "xmpp" (key_of "#12#") (pubkey_of "#12#") None
                              (NextSlot 2%positive)]> ∅)).
  { vm_compute. reflexivity. }
  split_and!.
  - rewrite Hnodes. cbn [chain two_keys_records]. split; [vm_compute; reflexivity |].
    eexists. split; [apply lookup_insert_eq |]. split_and!; try reflexivity.
    eexists. split; [rewrite lookup_insert_ne by done; apply lookup_insert_eq |].
    by split_and!.
  - cbn. apply NoDup_cons. split; [set_solver |]. apply NoDup_singleton.
  - intros l. rewrite Hnodes, !lookup_insert_is_Some, lookup_empty. cbn.
    rewrite !elem_of_cons, elem_of_nil. split.
    + intros [-> | [_ [-> | [_ [? [=]]]]]]; tauto.
    + intros [-> | [-> | []]]; [by left | right; split; [done | by left]].
Qed.

(** C1 as stated fails: the second entry of [bad_second_file] has no
    key, the load fails, and alice's key, loaded before, is still found. *)
Lemma failed_load_leaves_keys :
  ∃ w' m',
    load_file bad_second_file = (GPG_ERR_UNUSABLE_SECKEY, w', m') ∧
    otrl_privkey_find m' (Some "alice") (Some "xmpp") = Some 1%positive.
Proof. eexists _, _. split; vm_compute; reflexivity. Qed.

Lemma failed_load_keeps_prefix_witness :
  ∃ rs, registry (load_file bad_second_file).2 rs ∧
        rs.*2 = reverse (loaded_records (G := RefGcrypt.gcrypt)
                           (one_file key_path bad_second_file) key_path).
Proof.
  destruct (failed_load_keeps_prefix (G := RefGcrypt.gcrypt)
              (one_file key_path bad_second_file) (Memory None ∅) [] key_path
              (load_file bad_second_file).1.1 (load_file bad_second_file).1.2
              (load_file bad_second_file).2) as (rs & Hreg & Hrs & _).
  - apply registry_empty_memory.
  - vm_compute. reflexivity.
  - vm_compute. discriminate.
  - exists rs. split; assumption.
Defined.

(** C5 as stated fails.  In [valueless_name_file] the text parses, the
    outer token is "privkeys", the entry's token is "account" and its
    name, protocol and private-key elements are all present, yet the load
    fails, because the name element has no value.  [unusable_key_file]
    is well formed throughout, and its load fails because no public key
    can be derived from the key.  And when the load of [bad_second_file]
    fails, the record of its first entry stays. *)
Lemma load_fails_on_valueless_name :
  (∃ allkeys w' m',
     RefGcrypt.sexp_new valueless_name_file = Done allkeys ∧
     gcry_sexp_nth_data (Some allkeys) 0 = Some "privkeys" ∧
     gcry_sexp_length (Some allkeys) = 2 ∧
     gcry_sexp_nth_data (gcry_sexp_nth (Some allkeys) 1) 0 = Some "account" ∧
     is_Some (gcry_sexp_find_token (gcry_sexp_nth (Some allkeys) 1) "name") ∧
     is_Some (gcry_sexp_find_token (gcry_sexp_nth (Some allkeys) 1) "protocol") ∧
     is_Some (gcry_sexp_find_token (gcry_sexp_nth (Some allkeys) 1) "private-key") ∧
     load_file valueless_name_file = (GPG_ERR_UNUSABLE_SECKEY, w', m')) ∧
  (∃ allkeys w' m',
     RefGcrypt.sexp_new unusable_key_file = Done allkeys ∧
     gcry_sexp_nth_data (Some allkeys) 0 = Some "privkeys" ∧
     gcry_sexp_length (Some allkeys) = 2 ∧
     account_entry (gcry_sexp_nth (Some allkeys) 1) =
       Some ("alice", "xmpp",
             Some (SList [Data "private-key";
                          SList [Data "dsa"; SList [Data "p"; Data "#00F1#"]]])) ∧
     load_file unusable_key_file = (GPG_ERR_UNUSABLE_SECKEY, w', m')) ∧
  (∃ w' m' k,
     load_file bad_second_file = (GPG_ERR_UNUSABLE_SECKEY, w', m') ∧
     privkey_root m' = Some 1%positive ∧ nodes m' !! 1%positive = Some k ∧
     payload k = alice_data).
Proof.
  split_and!.
  - eexists _, _, _. split; [vm_compute; reflexivity |].
    split_and!; try (vm_compute; reflexivity); vm_compute; eauto.
  - eexists _, _, _. split; [vm_compute; reflexivity |].
    split_and!; vm_compute; reflexivity.
  - eexists _, _, _. split; [vm_compute; reflexivity |].
    split_and!; vm_compute; reflexivity.
Qed.

Lemma read_fails_exactly_when_witness :
  (load_file bad_second_file).1.1 ≠ GPG_ERR_NO_ERROR ↔
  (∃ code, RefGcrypt.sexp_new bad_second_file = Failed code) ∨
  (∃ allkeys, RefGcrypt.sexp_new bad_second_file = Done allkeys ∧
     (gcry_sexp_nth_data (Some allkeys) 0 ≠ Some "privkeys" ∨
      ∃ i, 1 ≤ i < gcry_sexp_length (Some allkeys) ∧
           ¬ entry_usable (G := RefGcrypt.gcrypt) (gcry_sexp_nth (Some allkeys) i))).
Proof.
  refine (proj1 (read_fails_exactly_when (G := RefGcrypt.gcrypt)
           (one_file key_path bad_second_file) (Memory None ∅) [] key_path
           bad_second_file (one_file key_path bad_second_file)
           (load_file bad_second_file).1.1 (load_file bad_second_file).1.2
           (load_file bad_second_file).2 _ _ _ _)).
  - apply registry_empty_memory.
  - vm_compute. reflexivity.
  - discriminate.
  - vm_compute. reflexivity.
Defined.

(** C4 as stated fails: both entries of [duplicates_file] are loaded,
    and the two records share alice's identity. *)
Lemma duplicate_entries_both_loaded :
  ∃ w' m' k1 k2,
    load_file duplicates_file = (GPG_ERR_NO_ERROR, w', m') ∧
    privkey_root m' = Some 2%positive ∧
    nodes m' !! 2%positive = Some k2 ∧ next k2 = Some 1%positive ∧
    nodes m' !! 1%positive = Some k1 ∧ next k1 = None ∧
    identity (payload k1) = ("alice", "xmpp") ∧
    identity (payload k2) = ("alice", "xmpp").
Proof.
  eexists _, _, _, _. split; [vm_compute; reflexivity |].
  split_and!; vm_compute; reflexivity.
Qed.

Lemma registry_identities_follow_file_witness :
  registry (otrl_privkey_forget 2%positive two_keys_memory)
    (filter (λ r, r.1 ≠ 2%positive) two_keys_records) ∧
  NoDup (identity <$> (filter (λ r, r.1 ≠ 2%positive) two_keys_records).*2).
Proof.
  destruct (registry_identities_follow_file (G := RefGcrypt.gcrypt)
              two_keys_memory two_keys_records two_keys_registry) as (_ & Hforget & _).
  apply (Hforget 2%positive bob_data).
  - left.
  - vm_compute. apply NoDup_cons. split; [set_solver |]. apply NoDup_singleton.
Defined.

(** C9 as stated fails: after [duplicates_file] is loaded, the search
    for alice finds the record at address 2; once that record is
    forgotten, the same search finds the record at address 1. *)
Lemma forget_leaves_duplicate :
  ∃ w' m',
    load_file duplicates_file = (GPG_ERR_NO_ERROR, w', m') ∧
    otrl_privkey_find m' (Some "alice") (Some "xmpp") = Some 2%positive ∧
    otrl_privkey_find (otrl_privkey_forget 2%positive m') (Some "alice") (Some "xmpp")
      = Some 1%positive.
Proof. eexists _, _. split_and!; vm_compute; reflexivity. Qed.

Lemma forget_removes_record_witness :
  registry (otrl_privkey_forget 2%positive two_keys_memory) [(1%positive, alice_data)] ∧
  otrl_privkey_find (otrl_privkey_forget 2%positive two_keys_memory)
    (Some "bob") (Some "irc") = None.
Proof.
  destruct (forget_removes_record two_keys_memory two_keys_records 2%positive bob_data)
    as (Hreg & _ & _ & Hnone & _).
  - exact two_keys_registry.
  - left.
  - split; [exact Hreg |]. apply Hnone.
    intros r [-> | [-> | []%elem_of_nil]%elem_of_cons]%elem_of_cons; [done |].
    intros _. discriminate.
Defined.

(** C2 as stated fails.  On a full device alice's key file is loaded
    and a key for bob is generated: the file is truncated when it is
    opened, the text that does not fit in the room so released is lost,
    the load of what was written fails, and the call fails with the key
    file no longer the old one and no longer parsable. *)
Lemma generate_failure_truncates :
  ∃ w1 m1 w' m' f,
    otrl_privkey_read (G := RefGcrypt.gcrypt) full_disk (Memory None ∅) key_path
      = (GPG_ERR_NO_ERROR, w1, m1) ∧
    w_files w1 !! key_path = Some (File ("(privkeys " +:+ alice_account +:+ ")") true true) ∧
    generate_in w1 m1 "bob" "irc" = (GPG_ERR_LIBRARY 1, w', m') ∧
    w_files w' !! key_path = Some f ∧
    f_data f ≠ "(privkeys " +:+ alice_account +:+ ")" ∧
    RefGcrypt.sexp_new (f_data f) = Failed 1.
Proof.
  eexists _, _, _, _, _. split; [vm_compute; reflexivity |].
  split; [vm_compute; reflexivity |]. split; [vm_compute; reflexivity |].
  split; [vm_compute; reflexivity |]. split; [vm_compute; discriminate |].
  vm_compute. reflexivity.
Qed.

Lemma generate_rewrites_in_place_witness :
  w_files (generate_in (one_file key_path two_keys_file) two_keys_memory
             "alice" "xmpp").1.2 !! "otr.fingerprints"
  = w_files (one_file key_path two_keys_file) !! "otr.fingerprints".
Proof.
  destruct (generate_rewrites_in_place (G := RefGcrypt.gcrypt)
           (one_file key_path two_keys_file) two_keys_memory two_keys_records
           key_path "alice" "xmpp"
           (generate_in (one_file key_path two_keys_file) two_keys_memory "alice" "xmpp").1.1
           (generate_in (one_file key_path two_keys_file) two_keys_memory "alice" "xmpp").1.2
           (generate_in (one_file key_path two_keys_file) two_keys_memory "alice" "xmpp").2)
    as (Hother & _).
  - exact two_keys_registry.
  - vm_compute. reflexivity.
  - apply Hother. discriminate.
Defined.

(** C6 as stated fails: with both records of [duplicates_file] in the
    registry, generating a key for alice leaves a key file with the new
    entry alone; two prior entries are gone, not one. *)
Lemma generate_drops_all_duplicates :
  ∃ w1 m1 w' m' f,
    load_file duplicates_file = (GPG_ERR_NO_ERROR, w1, m1) ∧
    generate_in w1 m1 "alice" "xmpp" = (GPG_ERR_NO_ERROR, w', m') ∧
    w_files w' !! key_path = Some f ∧
    key_file_entries (G := RefGcrypt.gcrypt) (f_data f)
      = Some [("alice", "xmpp", key_of "#7C#")].
Proof.
  eexists _, _, _, _, _. split; [vm_compute; reflexivity |].
  split; [vm_compute; reflexivity |]. split; vm_compute; reflexivity.
Qed.

Lemma generate_key_file_entries_witness :
  ∃ f, w_files (generate_in (one_file key_path two_keys_file) two_keys_memory
                  "alice" "xmpp").1.2 !! key_path = Some f ∧
       key_file_entries (G := RefGcrypt.gcrypt) (f_data f) =
         Some [("bob", "irc", key_of "#34#");
               ("alice", "xmpp", key_of "#7C#")].
Proof.
  destruct (generate_key_file_entries (G := RefGcrypt.gcrypt)
           (one_file key_path two_keys_file) two_keys_memory two_keys_records
           key_path "alice" "xmpp" genkey_parms new_key
           (SList [Data "private-key"; RefGcrypt.dsa_key "#7C#" true])
           (generate_in (one_file key_path two_keys_file) two_keys_memory "alice" "xmpp").1.1
           (generate_in (one_file key_path two_keys_file) two_keys_memory "alice" "xmpp").1.2
           (generate_in (one_file key_path two_keys_file) two_keys_memory "alice" "xmpp").2)
    as ((f & Hfile & _ & Hentries) & _).
  - exact two_keys_registry.
  - repeat constructor; cbn; eauto; apply (bool_decide_eq_false_1 _); reflexivity.
  - apply (bool_decide_eq_false_1 _). reflexivity.
  - apply (bool_decide_eq_false_1 _). reflexivity.
  - vm_compute. reflexivity.
  - vm_compute. reflexivity.
  - vm_compute. reflexivity.
  - vm_compute. reflexivity.
  - vm_compute. reflexivity.
  - intros _. vm_compute. reflexivity.
  - vm_compute. reflexivity.
  - exists f. split; [exact Hfile | exact Hentries].
Defined.

(** * Further properties *)

(** ** The fingerprint formats, further *)

Lemma hi_lo_digits_inj b1 b2 :
  hi_digit true b1 = hi_digit true b2 → lo_digit true b1 = lo_digit true b2 → b1 = b2.
Proof.
  intros Hhi Hlo. rewrite <- (hex_pair_digits true b1), <- (hex_pair_digits true b2).
  by rewrite Hhi, Hlo.
Qed.

(** X1.  The text [otrl_privkey_hash_to_human] leaves depends on the
    hash alone, not on what the buffer held, and two 20-byte hashes with
    the same text are the same hash. *)
Theorem hash_to_human_injective (human1 human2 : list ascii) (hash1 hash2 : list byte) :
  length human1 = 45 → length human2 = 45 →
  length hash1 = 20 → length hash2 = 20 →
  (hash1 = hash2 →
   otrl_privkey_hash_to_human human1 hash1 = otrl_privkey_hash_to_human human2 hash2) ∧
  (cstring (otrl_privkey_hash_to_human human1 hash1) =
   cstring (otrl_privkey_hash_to_human human2 hash2) → hash1 = hash2).
Proof.
  intros Hh1 Hh2 Hl1 Hl2.
  destruct (hash_to_human_buffer human1 hash1 Hh1 Hl1)
    as (a0 & a1 & a2 & a3 & a4 & a5 & a6 & a7 & a8 & a9 & a10 & a11 & a12
        & a13 & a14 & a15 & a16 & a17 & a18 & a19 & -> & ->).
  destruct (hash_to_human_buffer human2 hash2 Hh2 Hl2)
    as (b0 & b1 & b2 & b3 & b4 & b5 & b6 & b7 & b8 & b9 & b10 & b11 & b12
        & b13 & b14 & b15 & b16 & b17 & b18 & b19 & -> & ->).
  split.
  - intros [= -> -> -> -> -> -> -> -> -> -> -> -> -> -> -> -> -> -> -> ->]. reflexivity.
  - cbv beta zeta. cbn [app].
    repeat first [ rewrite cstring_hi | rewrite cstring_lo
                 | rewrite (cstring_cons SPACE) by done ].
    cbn [cstring]. intros Heq. injection Heq as Heq.
    repeat match goal with
           | H : hi_digit true ?x = hi_digit true ?y,
             H' : lo_digit true ?x = lo_digit true ?y |- _ =>
               pose proof (hi_lo_digits_inj x y H H'); subst x; clear H H'
           end.
    reflexivity.
Qed.

Lemma hash_to_human_injective_witness :
  otrl_privkey_hash_to_human (replicate 45 "?"%char) (replicate 19 x00 ++ [x01]) =
  otrl_privkey_hash_to_human (replicate 45 "!"%char) (replicate 19 x00 ++ [x01]).
Proof.
  apply (hash_to_human_injective (replicate 45 "?"%char) (replicate 45 "!"%char)
           (replicate 19 x00 ++ [x01]) (replicate 19 x00 ++ [x01]));
    reflexivity.
Defined.

Lemma ctoh_range c : (0 ≤ ctoh c ≤ 15)%Z.
Proof. destruct c as [[] [] [] [] [] [] [] []]; vm_compute; split; discriminate. Qed.

Lemma to_uchar_small z : (0 ≤ z < 256)%Z → Z.of_N (Byte.to_N (to_uchar z)) = z.
Proof.
  intros Hz. unfold to_uchar. rewrite Z.mod_small by done.
  destruct (Byte.of_N (Z.to_N z)) as [b |] eqn:Hb.
  - apply Byte.to_of_N in Hb. cbn [default from_option id]. rewrite Hb. lia.
  - apply Byte.of_N_None_iff in Hb. lia.
Qed.

(** X2.  [ctoh] yields a value from 0 to 15 for every character, so the
    byte stored for two characters is sixteen times the first value
    plus the second: nothing is lost in the store to an unsigned char,
    whatever the characters are. *)
Theorem hex_pair_value (hi lo : ascii) :
  (0 ≤ ctoh hi ≤ 15)%Z ∧ (0 ≤ ctoh lo ≤ 15)%Z ∧
  Z.of_N (Byte.to_N (hex_pair hi lo)) = (16 * ctoh hi + ctoh lo)%Z.
Proof.
  pose proof (ctoh_range hi) as Hhi. pose proof (ctoh_range lo) as Hlo.
  split; [exact Hhi |]. split; [exact Hlo |]. unfold hex_pair.
  rewrite Z.shiftl_mul_pow2 by lia. change (2 ^ 4)%Z with 16%Z.
  rewrite to_uchar_small; lia.
Qed.

(** ** The store loader and its buffer *)

Lemma hex_to_bytes_spec n fingerprint hex :
  n ≤ length fingerprint →
  hex_to_bytes n fingerprint hex =
  ((λ j, hex_pair (char_at hex (2 * j)) (char_at hex (2 * j + 1))) <$> seq 0 n)
    ++ drop n fingerprint.
Proof.
  unfold hex_to_bytes. induction n as [| n IH]; intros Hn; [done |].
  cbn [for_upto]. rewrite IH by lia.
  rewrite seq_S, fmap_app. cbn [fmap list_fmap Nat.add].
  destruct (lookup_lt_is_Some_2 fingerprint n) as [x Hx]; [lia |].
  rewrite (drop_S _ _ _ Hx).
  rewrite insert_app_r_alt; rewrite length_fmap, length_seq; [| lia].
  rewrite Nat.sub_diag. cbn [insert list_insert]. by rewrite <- app_assoc.
Qed.

Lemma hex_to_bytes_length n fingerprint hex :
  length (hex_to_bytes n fingerprint hex) = length fingerprint.
Proof.
  unfold hex_to_bytes. induction n as [| n IH]; [done |].
  cbn [for_upto]. by rewrite length_insert.
Qed.

Lemma hex_to_bytes_whole fingerprint1 fingerprint2 hex :
  length fingerprint1 = 20 → length fingerprint2 = 20 →
  hex_to_bytes 20 fingerprint1 hex = hex_to_bytes 20 fingerprint2 hex.
Proof.
  intros H1 H2. rewrite !hex_to_bytes_spec by lia.
  by rewrite !drop_ge by lia.
Qed.

Lemma read_fingerprint_line_buffer fingerprint1 fingerprint2 storeline :
  length fingerprint1 = 20 → length fingerprint2 = 20 →
  (read_fingerprint_line fingerprint1 storeline).1 =
    (read_fingerprint_line fingerprint2 storeline).1 ∧
  length (read_fingerprint_line fingerprint1 storeline).2 = 20 ∧
  length (read_fingerprint_line fingerprint2 storeline).2 = 20 ∧
  (is_Some (read_fingerprint_line fingerprint1 storeline).1 →
   (read_fingerprint_line fingerprint1 storeline).2 =
   (read_fingerprint_line fingerprint2 storeline).2).
Proof.
  intros H1 H2. unfold read_fingerprint_line.
  repeat match goal with
         | |- context [match ?x with _ => _ end] =>
             destruct x;
               try (cbn [fst snd]; split; [| split; [| split]];
                    [done | done | done | by intros ?%is_Some_None])
         end.
  cbn [fst snd]. rewrite !hex_to_bytes_length.
  rewrite (hex_to_bytes_whole fingerprint1 fingerprint2) by done. done.
Qed.

Lemma read_fingerprint_lines_buffer fuel fingerprint1 fingerprint2 stream :
  length fingerprint1 = 20 → length fingerprint2 = 20 →
  read_fingerprint_lines fuel fingerprint1 stream =
  read_fingerprint_lines fuel fingerprint2 stream.
Proof.
  revert fingerprint1 fingerprint2 stream.
  induction fuel as [| fuel IH]; intros fingerprint1 fingerprint2 stream H1 H2; [done |].
  cbn [read_fingerprint_lines].
  destruct (fgets 1000 stream) as [[storeline stream'] |]; [| done].
  destruct (read_fingerprint_line_buffer fingerprint1 fingerprint2 storeline H1 H2)
    as (He & Hl1 & Hl2 & _).
  destruct (read_fingerprint_line fingerprint1 storeline) as [e1 fp1].
  destruct (read_fingerprint_line fingerprint2 storeline) as [e2 fp2].
  cbn [fst snd] in *. subst e2. destruct e1; [f_equal |]; by apply IH.
Qed.

(** X3.  The 20-byte [fingerprint] buffer of
    [otrl_privkey_read_fingerprints] is a local array that is never
    initialised; what the function returns and hands to the context
    module does not depend on what the array held. *)
Theorem read_fingerprints_buffer_independent (w : world) (filename : string)
    (fingerprint1 fingerprint2 : list byte) :
  length fingerprint1 = 20 → length fingerprint2 = 20 →
  otrl_privkey_read_fingerprints w filename fingerprint1 =
  otrl_privkey_read_fingerprints w filename fingerprint2.
Proof.
  intros H1 H2. unfold otrl_privkey_read_fingerprints.
  destruct (fopen_read w filename) as [[stream |] w']; [| done].
  by rewrite (read_fingerprint_lines_buffer _ fingerprint1 fingerprint2).
Qed.

Lemma read_fingerprints_buffer_independent_witness :
  otrl_privkey_read_fingerprints (one_file "fp" (non_hex_line +:+ short_line +:+ alice_line))
    "fp" (replicate 20 x00) =
  otrl_privkey_read_fingerprints (one_file "fp" (non_hex_line +:+ short_line +:+ alice_line))
    "fp" (replicate 20 xff).
Proof.
  apply (read_fingerprints_buffer_independent
           (one_file "fp" (non_hex_line +:+ short_line +:+ alice_line)) "fp"
           (replicate 20 x00) (replicate 20 xff)); reflexivity.
Defined.

(** What [fgets] stores has no newline except as its last character. *)
Lemma fgets_chars_lf room stream line rest pre c post :
  fgets_chars room stream = (line, rest) →
  line = pre +:+ String c post → post ≠ EmptyString → ¬ has_char LF pre ∧ c ≠ LF.
Proof.
  revert stream line rest pre.
  induction room as [| room IH]; intros [| d s] line rest pre; cbn [fgets_chars];
    try (intros [= <- <-]; by destruct pre).
  destruct (decide (d = LF)) as [-> | Hd].
  - intros [= <- <-]. destruct pre as [| ? [| ? ?]]; simpl; intros [=]; subst; done.
  - destruct (fgets_chars room s) as [l r] eqn:Hs. intros [= <- <-].
    destruct pre as [| e pre].
    + change (EmptyString +:+ String c post) with (String c post).
      intros [= <- ->] Hpost. split; [apply has_char_nil | done].
    + rewrite string_app_cons. intros [= <- ->] Hpost.
      destruct (IH s _ r pre Hs eq_refl Hpost) as [Hpre Hc].
      split; [| done]. rewrite has_char_cons. intros [? | ?]; done.
Qed.

Lemma cstring_prefix s : ∃ t, s = cstring (chars_of_string s) +:+ t.
Proof.
  induction s as [| c s [t IH]]; [by exists EmptyString |].
  cbn [chars_of_string cstring]. destruct (decide (c = NUL)).
  - by exists (String c s).
  - exists t. rewrite string_app_cons. by f_equal.
Qed.

Lemma read_fingerprint_line_fields room stream storeline rest fingerprint e :
  fgets_chars room stream = (storeline, rest) →
  (read_fingerprint_line fingerprint storeline).1 = Some e →
  length (se_fingerprint e) = length fingerprint ∧
  field_clean (se_username e) ∧ field_clean (se_accountname e) ∧
  field_clean (se_protocol e).
Proof.
  intros Hg He.
  apply read_fingerprint_line_accepted in He
    as (u & a & p & hex & eol & tail & Hline & Hu & Ha & Hp & _ & _ & _ & ->).
  cbn [se_fingerprint se_username se_accountname se_protocol].
  split; [apply hex_to_bytes_length |].
  pose proof (cstring_has_no_nul (chars_of_string storeline)) as Hnul.
  rewrite Hline in Hnul. unfold tab_line in Hnul.
  rewrite has_char_app, has_char_cons, has_char_app, has_char_cons,
    has_char_app, has_char_cons in Hnul.
  destruct (cstring_prefix storeline) as [t Ht]. rewrite Hline in Ht.
  assert (Hsplit : storeline =
            (u +:+ String TAB (a +:+ String TAB p)) +:+
            String TAB ((hex +:+ String eol tail) +:+ t)).
  { rewrite Ht at 1. unfold tab_line.
    repeat first [rewrite string_app_assoc | rewrite string_app_cons]. done. }
  destruct (fgets_chars_lf _ _ _ _ _ _ _ Hg Hsplit) as [Hlf _].
  { destruct hex; discriminate. }
  rewrite has_char_app, has_char_cons, has_char_app, has_char_cons in Hlf.
  unfold field_clean. tauto.
Qed.

Lemma read_fingerprint_lines_fields fuel fingerprint stream e :
  length fingerprint = 20 →
  e ∈ read_fingerprint_lines fuel fingerprint stream →
  length (se_fingerprint e) = 20 ∧
  field_clean (se_username e) ∧ field_clean (se_accountname e) ∧
  field_clean (se_protocol e).
Proof.
  revert fingerprint stream.
  induction fuel as [| fuel IH]; intros fingerprint stream Hlen; cbn [read_fingerprint_lines];
    [by intros ?%elem_of_nil |].
  destruct (fgets 1000 stream) as [[storeline stream'] |] eqn:Hg;
    [| by intros ?%elem_of_nil].
  assert (Hchars : fgets_chars (1000 - 1) stream = (storeline, stream')).
  { destruct stream; [done |]. unfold fgets in Hg. by injection Hg. }
  destruct (read_fingerprint_line_buffer fingerprint fingerprint storeline Hlen Hlen)
    as (_ & Hl & _ & _).
  pose proof (λ e', read_fingerprint_line_fields _ _ _ _ fingerprint e' Hchars) as Hf.
  destruct (read_fingerprint_line fingerprint storeline) as [[e' |] fp'];
    cbn [fst snd] in *; [| by apply IH].
  intros [-> | Hin]%elem_of_cons; [| by apply (IH fp' stream')].
  rewrite <- Hlen. by apply Hf.
Qed.

(** X4.  Every fingerprint [otrl_privkey_read_fingerprints] hands to
    the context module has 20 bytes, and its username, accountname and
    protocol contain no tab, no NUL and no newline, whatever the file
    holds. *)
Theorem store_entries_wellformed (w : world) (filename : string)
    (fingerprint : list byte) (e : store_entry) :
  length fingerprint = 20 →
  e ∈ (otrl_privkey_read_fingerprints w filename fingerprint).1.2 →
  length (se_fingerprint e) = 20 ∧
  field_clean (se_username e) ∧ field_clean (se_accountname e) ∧
  field_clean (se_protocol e).
Proof.
  intros Hlen. unfold otrl_privkey_read_fingerprints.
  destruct (fopen_read w filename) as [[stream |] w']; cbn [fst snd];
    [| by intros ?%elem_of_nil].
  by apply read_fingerprint_lines_fields.
Qed.

Lemma store_entries_wellformed_witness :
  length (se_fingerprint (StoreEntry "alice" "bob" "xmpp" (replicate 20 x00))) = 20 ∧
  field_clean "alice" ∧ field_clean "bob" ∧ field_clean "xmpp".
Proof.
  apply (store_entries_wellformed (one_file "fp" (short_line +:+ non_hex_line)) "fp"
           (replicate 20 xff) (StoreEntry "alice" "bob" "xmpp" (replicate 20 x00)));
    [reflexivity |].
  vm_compute. apply list_elem_of_here.
Defined.

Lemma has_char_tab_line c u a p rest :
  has_char c (tab_line u a p rest) ↔
  has_char c u ∨ c = TAB ∨ has_char c a ∨ has_char c p ∨ has_char c rest.
Proof.
  unfold tab_line.
  rewrite has_char_app, has_char_cons, has_char_app, has_char_cons,
    has_char_app, has_char_cons. tauto.
Qed.

(** X5.  Within the string that one [fgets] read leaves in the line
    buffer, a fingerprint field ended by a carriage return is decoded as
    the same fields ended by a newline, whatever follows the carriage
    return in that string: the fingerprint field stops at the first
    carriage return. *)
Theorem carriage_return_ends_line (fingerprint : list byte) (u a p hex tail : string) :
  ¬ has_char TAB u → ¬ has_char TAB a → ¬ has_char TAB p →
  ¬ has_char CR hex → ¬ has_char LF hex →
  ¬ has_char NUL (tab_line u a p (hex +:+ String CR tail)) →
  read_fingerprint_line fingerprint (tab_line u a p (hex +:+ String CR tail)) =
  read_fingerprint_line fingerprint (tab_line u a p (hex +:+ String LF EmptyString)).
Proof.
  intros Hu Ha Hp Hcr Hlf Hnul.
  rewrite (read_fingerprint_line_accepts fingerprint u a p hex CR tail)
    by (done || by left).
  rewrite (read_fingerprint_line_accepts fingerprint u a p hex LF EmptyString); [done ..| |].
  - right. split_and!; [done | done | apply has_char_nil].
  - rewrite has_char_tab_line, has_char_app, has_char_cons in *.
    intros [? | [? | [? | [? | [? | [[=] | ?%has_char_nil]]]]]]; tauto.
Qed.

Lemma carriage_return_ends_line_witness :
  read_fingerprint_line (replicate 20 x00)
    (tab_line "alice" "bob" "xmpp"
       ("0102030405060708090a0b0c0d0e0f1011121314" +:+ String CR (String LF EmptyString))) =
  read_fingerprint_line (replicate 20 x00) alice_line.
Proof.
  apply (carriage_return_ends_line (replicate 20 x00) "alice" "bob" "xmpp"
           "0102030405060708090a0b0c0d0e0f1011121314" (String LF EmptyString));
    apply (bool_decide_eq_false_1 _); reflexivity.
Defined.

(** ** Writing the fingerprint store *)

Lemma for_upto_fputs n (text_of : nat → string) w path r wr text :
  for_upto n (λ i w, fputs w path (text_of i)) (written w path r wr text) =
  written w path r wr
    (text +:+ for_upto n (λ i out, out +:+ text_of i) EmptyString).
Proof.
  induction n as [| n IH]; cbn [for_upto].
  - by rewrite string_app_nil_r.
  - by rewrite IH, fputs_written, string_app_assoc.
Qed.

Lemma write_fingerprint_written w path r wr text context fprint :
  write_fingerprint (written w path r wr text) path context fprint =
  written w path r wr (text +:+ store_line context fprint).
Proof.
  unfold write_fingerprint, store_line, tab_line, bytes_to_hex.
  rewrite fputs_written, for_upto_fputs, fputs_written. f_equal.
  repeat first [rewrite string_app_assoc | rewrite string_app_cons].
  done.
Qed.

Lemma write_context_fingerprints_written w path r wr text context fprints :
  write_context_fingerprints (written w path r wr text) path context fprints =
  written w path r wr (text +:+ texts (store_line context <$> fprints)).
Proof.
  revert text. induction fprints as [| fprint fprints IH]; intros text;
    cbn [write_context_fingerprints fmap list_fmap texts].
  - by rewrite string_app_nil_r.
  - by rewrite write_fingerprint_written, IH, string_app_assoc.
Qed.

Lemma write_contexts_written w path r wr text contexts :
  write_contexts (written w path r wr text) path contexts =
  written w path r wr (text +:+ store_text contexts).
Proof.
  unfold store_text. revert text.
  induction contexts as [| context contexts IH]; intros text; cbn [write_contexts].
  - cbn. by rewrite string_app_nil_r.
  - rewrite write_context_fingerprints_written, IH, string_app_assoc.
    by rewrite bind_cons, texts_app.
Qed.

Lemma fopen_write_readable w path w1 :
  fopen_write w path = (true, w1) →
  w1 = written w path (readable_once_open w path) true EmptyString.
Proof.
  intros Hopen. destruct (fopen_write_written _ _ _ Hopen) as [r ->].
  f_equal. revert Hopen. unfold fopen_write, readable_once_open, written.
  destruct (w_files w !! path) as [f |]; cbn [from_option].
  - destruct (f_writable f); [| done]. intros [= Hf _].
    apply (f_equal (.!! path)) in Hf. rewrite !lookup_insert_eq in Hf. by injection Hf.
  - destruct (w_dir_writable w); [| done]. intros [= Hf _].
    apply (f_equal (.!! path)) in Hf. rewrite !lookup_insert_eq in Hf. by injection Hf.
Qed.

(** X6.  [otrl_privkey_write_fingerprints] reports an error only when
    the file cannot be opened, and then changes nothing but [errno].
    Once the file is open it returns success whatever becomes of the
    writes: the file holds the lines of all fingerprints of all
    contexts, in order, or as much of that text as the device had room
    for, and no other file is touched. *)
Theorem write_fingerprints_file (w : world) (contexts : list ConnContext.t)
    (filename : string) :
  if (fopen_write w filename).1 then
    (otrl_privkey_write_fingerprints w contexts filename).1 = GPG_ERR_NO_ERROR ∧
    w_files (otrl_privkey_write_fingerprints w contexts filename).2 =
      <[filename:=File (fit (room_once_open w filename) (store_text contexts))
                    (readable_once_open w filename) true]> (w_files w)
  else
    otrl_privkey_write_fingerprints w contexts filename =
      (GPG_ERR_SYSTEM EACCES, set_errno w EACCES).
Proof.
  unfold otrl_privkey_write_fingerprints.
  destruct (fopen_write w filename) as [[] w1] eqn:Hopen; cbn [fst snd].
  - apply fopen_write_readable in Hopen as ->.
    by rewrite write_contexts_written.
  - by apply fopen_write_failed in Hopen as ->.
Qed.

(** ** Writing the store and reading it back *)

Lemma fgets_chars_line room body rest :
  ¬ has_char LF body → String.length body < room →
  fgets_chars room (body +:+ String LF rest) = (body +:+ String LF EmptyString, rest).
Proof.
  revert room. induction body as [| c body IH]; intros room Hlf Hlen.
  - destruct room as [| room]; [simpl in Hlen; lia |].
    change (EmptyString +:+ String LF rest) with (String LF rest).
    cbn [fgets_chars]. by rewrite decide_True.
  - destruct room as [| room]; [simpl in Hlen; lia |].
    rewrite !string_app_cons. cbn [fgets_chars].
    rewrite has_char_cons in Hlf.
    rewrite decide_False by (intros ->; tauto).
    rewrite IH; [done | tauto | simpl in Hlen; lia].
Qed.

Lemma lower_hex_plain c :
  is_lower_hex c = true → c ≠ NUL ∧ c ≠ TAB ∧ c ≠ CR ∧ c ≠ LF.
Proof.
  intros Hc. split_and!; intros ->; discriminate Hc.
Qed.

Lemma bytes_to_hex_text h :
  length h = 20 →
  String.length (bytes_to_hex 20 h) = 40 ∧
  Forall (λ c, is_lower_hex c = true) (chars_of_string (bytes_to_hex 20 h)) ∧
  ∀ fingerprint, length fingerprint = 20 →
    hex_to_bytes 20 fingerprint (bytes_to_hex 20 h) = h.
Proof.
  intros Hh.
  do 20 (destruct h as [| ? h]; [discriminate |]). destruct h; [| discriminate].
  rewrite bytes_to_hex_20. cbn [fmap list_fmap concat app string_of_chars].
  split; [reflexivity |]. split.
  - cbn [chars_of_string]. repeat constructor; auto using hi_digit_lower, lo_digit_lower.
  - intros fingerprint Hfp. rewrite hex_to_bytes_spec by lia.
    rewrite drop_ge by lia. unfold char_at.
    cbn [seq fmap list_fmap String.get default Nat.mul Nat.add from_option id].
    rewrite !hex_pair_digits. reflexivity.
Qed.

Lemma has_char_lower_hex c s :
  Forall (λ c, is_lower_hex c = true) (chars_of_string s) →
  is_lower_hex c = false → ¬ has_char c s.
Proof.
  intros Hall Hc Hin. rewrite Forall_forall in Hall.
  apply Hall in Hin. congruence.
Qed.

Lemma read_store_line fuel fingerprint context fprint rest :
  plain_name (ConnContext.username context) →
  plain_name (ConnContext.accountname context) →
  plain_name (ConnContext.protocol context) →
  String.length (ConnContext.username context) +
  String.length (ConnContext.accountname context) +
  String.length (ConnContext.protocol context) + 44 ≤ 999 →
  length fprint = 20 → length fingerprint = 20 →
  String.length (store_line context fprint +:+ rest) ≤ fuel →
  read_fingerprint_lines fuel fingerprint (store_line context fprint +:+ rest) =
  StoreEntry (ConnContext.username context) (ConnContext.accountname context)
    (ConnContext.protocol context) fprint
  :: read_fingerprint_lines fuel fprint rest.
Proof.
  intros (Hu1 & Hu2 & Hu3 & Hu4) (Ha1 & Ha2 & Ha3 & Ha4) (Hp1 & Hp2 & Hp3 & Hp4)
    Hfit Hfprint Hfp Hfuel.
  destruct (bytes_to_hex_text fprint Hfprint) as (Hlen & Hhex & Hback).
  set (u := ConnContext.username context) in *.
  set (a := ConnContext.accountname context) in *.
  set (p := ConnContext.protocol context) in *.
  set (hex := bytes_to_hex 20 fprint) in *.
  set (body := u +:+ String TAB (a +:+ String TAB (p +:+ String TAB hex))).
  assert (Hline : store_line context fprint = body +:+ String LF EmptyString).
  { unfold store_line, tab_line, body. fold u a p hex.
    repeat first [rewrite string_app_assoc | rewrite string_app_cons]. done. }
  assert (Hbody_lf : ¬ has_char LF body).
  { unfold body.
    rewrite has_char_app, has_char_cons, has_char_app, has_char_cons,
      has_char_app, has_char_cons.
    pose proof (has_char_lower_hex LF hex Hhex eq_refl).
    intros [? | [[=] | [? | [[=] | [? | [[=] | ?]]]]]]; done. }
  assert (Hbody_len : String.length body < 999).
  { unfold body. rewrite string_length_app. cbn [String.length].
    rewrite string_length_app. cbn [String.length].
    rewrite string_length_app. cbn [String.length]. lia. }
  assert (Hg : fgets 1000 (store_line context fprint +:+ rest) =
               Some (store_line context fprint, rest)).
  { rewrite Hline, string_app_assoc, string_app_cons.
    change (EmptyString +:+ rest) with rest.
    unfold fgets.
    destruct (body +:+ String LF rest) as [| c s] eqn:Hs.
    { destruct body; discriminate Hs. }
    rewrite <- Hs. change (1000 - 1) with 999.
    by rewrite fgets_chars_line. }
  pose proof (fgets_shorter _ _ _ Hg) as Hshort.
  remember (read_fingerprint_lines fuel fprint rest) as entries eqn:Hentries.
  destruct fuel as [| fuel]; [lia |].
  cbn [read_fingerprint_lines]. rewrite Hg.
  assert (Hread : read_fingerprint_line fingerprint (store_line context fprint) =
                  (Some (StoreEntry u a p fprint), fprint)).
  { unfold store_line. fold u a p hex.
    rewrite (read_fingerprint_line_accepts fingerprint u a p hex LF EmptyString);
      [| done | done | done | | |].
    - rewrite decide_False by lia. by rewrite Hback.
    - by apply has_char_lower_hex.
    - right. split_and!; [done | by apply has_char_lower_hex | apply has_char_nil].
    - rewrite has_char_tab_line, has_char_app, has_char_cons.
      pose proof (has_char_lower_hex NUL hex Hhex eq_refl).
      intros [? | [[=] | [? | [? | [? | [[=] | ?%has_char_nil]]]]]]; done. }
  rewrite Hread. cbv beta iota. f_equal. subst entries.
  apply read_fingerprint_lines_fuel; lia.
Qed.

Lemma read_store_lines fuel fingerprint context fprints rest :
  plain_name (ConnContext.username context) →
  plain_name (ConnContext.accountname context) →
  plain_name (ConnContext.protocol context) →
  String.length (ConnContext.username context) +
  String.length (ConnContext.accountname context) +
  String.length (ConnContext.protocol context) + 44 ≤ 999 →
  Forall (λ fprint, length fprint = 20) fprints →
  length fingerprint = 20 →
  String.length (texts (store_line context <$> fprints) +:+ rest) ≤ fuel →
  read_fingerprint_lines fuel fingerprint (texts (store_line context <$> fprints) +:+ rest) =
  (StoreEntry (ConnContext.username context) (ConnContext.accountname context)
     (ConnContext.protocol context) <$> fprints)
  ++ read_fingerprint_lines fuel (last_default fingerprint fprints) rest.
Proof.
  intros Hu Ha Hp Hfit Hall. revert fingerprint.
  induction Hall as [| fprint fprints Hfprint Hall IH]; intros fingerprint Hfp Hfuel;
    cbn [fmap list_fmap texts app].
  - done.
  - cbn [fmap list_fmap texts] in Hfuel. rewrite string_app_assoc in Hfuel |- *.
    rewrite (read_store_line fuel fingerprint context fprint) by done.
    f_equal. rewrite string_length_app in Hfuel.
    rewrite IH; [| done | lia].
    unfold last_default. destruct fprints as [| fprint' fprints]; [done |].
    rewrite last_cons_cons.
    destruct (last (fprint' :: fprints)) eqn:Hlast; [done |].
    by apply last_None in Hlast.
Qed.

Lemma last_default_length fingerprint fprints :
  Forall (λ fprint, length fprint = 20) fprints → length fingerprint = 20 →
  length (last_default fingerprint fprints) = 20.
Proof.
  intros Hall Hfp. unfold last_default.
  destruct (last fprints) as [fprint |] eqn:Hlast; [| done].
  rewrite Forall_forall in Hall. apply Hall. by eapply last_Some_elem_of.
Qed.

Lemma read_store_text fuel fingerprint contexts :
  Forall context_storable contexts → length fingerprint = 20 →
  String.length (store_text contexts) ≤ fuel →
  read_fingerprint_lines fuel fingerprint (store_text contexts) = store_entries contexts.
Proof.
  unfold store_text, store_entries. intros Hall. revert fingerprint.
  induction Hall as [| context contexts (Hu & Ha & Hp & Hfprints & Hfit) Hall IH];
    intros fingerprint Hfp Hfuel.
  - by destruct fuel.
  - rewrite !bind_cons. rewrite bind_cons, texts_app in Hfuel. rewrite texts_app.
    rewrite read_store_lines by done. f_equal.
    rewrite string_length_app in Hfuel.
    apply IH; [by apply last_default_length | lia].
Qed.

(** X7.  A store written by [otrl_privkey_write_fingerprints] is read
    back by [otrl_privkey_read_fingerprints] as exactly the
    fingerprints written, context by context and in order, when the
    names contain no tab, line end or NUL, the fingerprints have 20
    bytes, each line fits the 1000-byte line buffer, the device has
    room for the text and the file can be read. *)
Theorem store_round_trip (w : world) (contexts : list ConnContext.t)
    (filename : string) (fingerprint : list byte) :
  Forall context_storable contexts →
  length fingerprint = 20 →
  (fopen_write w filename).1 = true →
  readable_once_open w filename = true →
  fit (room_once_open w filename) (store_text contexts) = store_text contexts →
  (otrl_privkey_read_fingerprints
     (otrl_privkey_write_fingerprints w contexts filename).2 filename fingerprint).1 =
  (GPG_ERR_NO_ERROR, store_entries contexts).
Proof.
  intros Hall Hfp Hopen Hread Hroom.
  unfold otrl_privkey_write_fingerprints.
  destruct (fopen_write w filename) as [[] w1] eqn:Hw; [| done]. cbn [snd].
  apply fopen_write_readable in Hw as ->.
  rewrite write_contexts_written.
  change (EmptyString +:+ store_text contexts) with (store_text contexts).
  unfold otrl_privkey_read_fingerprints, fopen_read, written. cbn [w_files].
  rewrite lookup_insert_eq. cbn [f_readable f_data]. rewrite Hread, Hroom. cbn [fst].
  f_equal. by apply read_store_text.
Qed.

Lemma store_round_trip_witness :
  (otrl_privkey_read_fingerprints
     (otrl_privkey_write_fingerprints (one_file "fp" "old") two_contexts "fp").2
     "fp" (replicate 20 xff)).1 =
  (GPG_ERR_NO_ERROR, store_entries two_contexts).
Proof.
  apply (store_round_trip (one_file "fp" "old") two_contexts "fp" (replicate 20 xff));
    try reflexivity.
  repeat constructor; apply (bool_decide_eq_false_1 _); reflexivity.
Defined.

(** ** Lines longer than the line buffer *)

Lemma fgets_chars_full junk more :
  ¬ has_char LF junk →
  fgets_chars (String.length junk) (junk +:+ more) = (junk, more).
Proof.
  induction junk as [| c junk IH]; intros Hlf.
  - by destruct more.
  - rewrite string_app_cons. cbn [String.length fgets_chars].
    rewrite has_char_cons in Hlf.
    rewrite decide_False by (intros ->; tauto).
    rewrite IH; [done | tauto].
Qed.

Lemma fgets_cut junk more :
  String.length junk = 999 → ¬ has_char LF junk →
  fgets 1000 (junk +:+ more) = Some (junk, more).
Proof.
  intros Hjunk Hlf. unfold fgets.
  destruct (junk +:+ more) eqn:Hs.
  { destruct junk; discriminate. }
  rewrite <- Hs. replace (1000 - 1) with (String.length junk) by (rewrite Hjunk; reflexivity).
  by rewrite fgets_chars_full.
Qed.

Lemma read_fingerprint_lines_cut fuel fingerprint junk more :
  String.length junk = 999 → ¬ has_char LF junk → ¬ has_char CR junk →
  read_fingerprint_lines (S fuel) fingerprint (junk +:+ more) =
  read_fingerprint_lines fuel fingerprint more.
Proof.
  intros Hjunk Hlf Hcr. cbn [read_fingerprint_lines].
  rewrite fgets_cut by done. by rewrite line_without_eol_skipped.
Qed.

(** X8.  A line is read in pieces of at most 999 characters, and
    each piece is decoded as a line of its own: when 999 characters
    without a line end are followed, on the same line, by the text of a
    well-formed store line, the loader hands over the fingerprint of
    that text, with the username that starts after the 999th
    character. *)
Theorem long_line_is_cut (fingerprint : list byte) (filename junk u a p : string)
    (fprint : list byte) :
  String.length junk = 999 → ¬ has_char LF junk → ¬ has_char CR junk →
  plain_name u → plain_name a → plain_name p →
  String.length u + String.length a + String.length p + 44 ≤ 999 →
  length fprint = 20 → length fingerprint = 20 →
  (otrl_privkey_read_fingerprints
     (one_file filename
        (junk +:+ tab_line u a p (bytes_to_hex 20 fprint +:+ String LF EmptyString)))
     filename fingerprint).1 =
  (GPG_ERR_NO_ERROR, [StoreEntry u a p fprint]).
Proof.
  intros Hjunk Hlf Hcr Hu Ha Hp Hfit Hfprint Hfp.
  set (context := ConnContext.Make u a p []).
  change (tab_line u a p (bytes_to_hex 20 fprint +:+ String LF EmptyString))
    with (store_line context fprint).
  unfold otrl_privkey_read_fingerprints, fopen_read, one_file. cbn [w_files].
  rewrite lookup_singleton_eq. cbn [f_readable f_data fst]. f_equal.
  rewrite string_length_app.
  destruct (String.length junk) as [| n] eqn:Hn; [discriminate |].
  rewrite Nat.add_succ_l.
  rewrite read_fingerprint_lines_cut by (done || congruence).
  rewrite <- (string_app_nil_r (store_line context fprint)) at 2.
  rewrite (read_store_line _ fingerprint context fprint EmptyString Hu Ha Hp Hfit
             Hfprint Hfp).
  - f_equal. by destruct (n + _).
  - rewrite string_app_nil_r. lia.
Qed.

Lemma long_line_is_cut_witness :
  (otrl_privkey_read_fingerprints
     (one_file "fp"
        (string_of_chars (replicate 999 "x"%char) +:+
         tab_line "alice" "bob" "xmpp"
           (bytes_to_hex 20 (replicate 20 x2a) +:+ String LF EmptyString)))
     "fp" (replicate 20 x00)).1 =
  (GPG_ERR_NO_ERROR, [StoreEntry "alice" "bob" "xmpp" (replicate 20 x2a)]).
Proof.
  apply (long_line_is_cut (replicate 20 x00) "fp" (string_of_chars (replicate 999 "x"%char))
           "alice" "bob" "xmpp" (replicate 20 x2a)).
  - vm_compute. reflexivity.
  - apply (bool_decide_eq_false_1 _). vm_compute. reflexivity.
  - apply (bool_decide_eq_false_1 _). vm_compute. reflexivity.
  - split_and!; apply (bool_decide_eq_false_1 _); reflexivity.
  - split_and!; apply (bool_decide_eq_false_1 _); reflexivity.
  - split_and!; apply (bool_decide_eq_false_1 _); reflexivity.
  - apply Nat.leb_le. vm_compute. reflexivity.
  - reflexivity.
  - reflexivity.
Defined.

(** ** The loops over the list *)

Lemma registry_count m rs : registry m rs → size (nodes m) = length rs.
Proof.
  intros (_ & Hnd & Hdom).
  rewrite <- (length_fmap fst), <- (size_list_to_set (C := gset loc)) by done.
  rewrite <- size_dom. f_equal. apply set_eq. intros l.
  by rewrite elem_of_dom, elem_of_list_to_set.
Qed.

(** X9.  The loops over the list end by their own test: on a
    well-formed list [otrl_privkey_forget_all] and [otrl_privkey_find]
    give the same result under any bound on the number of iterations
    that is at least the number of keys, and every live structure is on
    the list. *)
Theorem list_loops_end (m : memory) (rs : list (loc * key_data)) (fuel : nat)
    (acc proto : string) :
  registry m rs → length rs ≤ fuel →
  forget_all_loop fuel m = otrl_privkey_forget_all m ∧
  find_loop fuel (nodes m) (privkey_root m) acc proto =
    otrl_privkey_find m (Some acc) (Some proto) ∧
  size (nodes m) = length rs.
Proof.
  intros Hreg Hfuel. split_and!.
  - rewrite (forget_all_registry m rs Hreg).
    by apply registry_empty, (forget_all_loop_registry fuel m rs).
  - rewrite (find_registry _ _ _ _ Hreg).
    apply (find_loop_chain _ _ RootSlot); [apply Hreg | done].
  - by apply registry_count.
Qed.

Lemma list_loops_end_witness :
  forget_all_loop 7 two_keys_memory = otrl_privkey_forget_all two_keys_memory ∧
  find_loop 7 (nodes two_keys_memory) (privkey_root two_keys_memory) "alice" "xmpp" =
    otrl_privkey_find two_keys_memory (Some "alice") (Some "xmpp") ∧
  size (nodes two_keys_memory) = length two_keys_records.
Proof.
  apply (list_loops_end two_keys_memory two_keys_records 7 "alice" "xmpp").
  - exact two_keys_registry.
  - cbn. lia.
Defined.

(** ** The linked list *)

Lemma chain_head h t p rs : chain h t p rs → p = head rs.*1.
Proof. destruct rs as [| [l d] rs]; simpl; [done | by intros [-> _]]. Qed.

Lemma chain_nodes h h' t p p' rs l :
  chain h t p rs → chain h' t p' rs → l ∈ rs.*1 → h !! l = h' !! l.
Proof.
  revert t p p'. induction rs as [| [l0 d] rs IH]; intros t p p'; simpl.
  - by intros _ _ ?%elem_of_nil.
  - intros (_ & k & Hk & Ht & Hd & Hc) (_ & k' & Hk' & Ht' & Hd' & Hc')
      [-> | Hin]%elem_of_cons.
    + rewrite Hk, Hk'. f_equal.
      apply chain_head in Hc, Hc'. rewrite <- Hc' in Hc.
      destruct k, k'. unfold payload in *. simpl in *. congruence.
    + by apply (IH _ _ _ Hc Hc').
Qed.

(** A memory is determined by the list it represents. *)
Lemma registry_unique m m' rs : registry m rs → registry m' rs → m = m'.
Proof.
  intros (Hc & _ & Hdom) (Hc' & _ & Hdom'). destruct m as [root h], m' as [root' h'].
  cbn [privkey_root nodes] in *. f_equal.
  - apply chain_head in Hc, Hc'. congruence.
  - apply map_eq. intros l. destruct (decide (l ∈ rs.*1)) as [Hin | Hout].
    + by apply (chain_nodes _ _ _ _ _ _ _ Hc Hc').
    + assert (h !! l = None) as -> by (apply eq_None_not_Some; by rewrite Hdom).
      symmetry. apply eq_None_not_Some. by rewrite Hdom'.
Qed.

Lemma chain_back h t p rs l k :
  chain h t p rs → NoDup rs.*1 → l ∈ rs.*1 → h !! l = Some k →
  (tous k = t ∧ p = Some l) ∨
  (∃ q kq, tous k = NextSlot q ∧ h !! q = Some kq ∧ next kq = Some l).
Proof.
  revert t p. induction rs as [| [l0 d] rs IH]; intros t p; simpl.
  - by intros _ _ ?%elem_of_nil.
  - intros (-> & k0 & Hk0 & Ht & _ & Hc) [Hl0 Hnd]%NoDup_cons [-> | Hin]%elem_of_cons Hk.
    + left. by simplify_eq.
    + right. destruct (IH _ _ Hc Hnd Hin Hk) as [[Ht' Hn] | Hprev]; [| done].
      by exists l0, k0.
Qed.

Lemma chain_closed h t p rs l k n :
  chain h t p rs → l ∈ rs.*1 → h !! l = Some k → next k = Some n → n ∈ rs.*1.
Proof.
  revert t p. induction rs as [| [l0 d] rs IH]; intros t p; simpl.
  - by intros _ ?%elem_of_nil.
  - intros (-> & k0 & Hk0 & _ & _ & Hc) Hin Hk Hn.
    destruct (decide (l = l0)) as [-> | Hne].
    + simplify_eq. right. by apply (chain_next_in _ _ _ _ _ Hc).
    + apply elem_of_cons in Hin as [? | Hin]; [done |].
      right. by apply (IH _ _ Hc Hin Hk Hn).
Qed.

Lemma registry_pointers m rs : registry m rs → heap_closed m ∧ back_pointers m.
Proof.
  intros (Hc & Hnd & Hdom). split; [split |].
  - intros p Hp. apply Hdom. by apply (chain_next_in _ _ _ _ _ Hc).
  - intros l k n Hk Hn. apply Hdom.
    apply (chain_closed _ _ _ _ l k n Hc); [| done | done].
    apply Hdom. by rewrite Hk.
  - intros l k Hk.
    assert (Hin : l ∈ rs.*1) by (apply Hdom; by rewrite Hk).
    destruct (chain_back _ _ _ _ _ _ Hc Hnd Hin Hk) as [[-> Hroot] | (q & kq & -> & Hq & Hn)].
    + exact Hroot.
    + cbn [load_slot]. by rewrite Hq.
Qed.

Lemma forget_keeps_registry m rs p :
  registry m rs → ∃ rs', registry (otrl_privkey_forget p m) rs'.
Proof.
  intros Hreg. destruct (nodes m !! p) as [k |] eqn:Hk.
  - assert (Hin : p ∈ rs.*1) by (apply Hreg; by rewrite Hk).
    apply list_elem_of_fmap in Hin as ([p' d] & -> & Hin).
    eexists. by apply (forget_registry _ _ _ _ Hreg Hin).
  - exists rs. unfold otrl_privkey_forget. by rewrite Hk.
Qed.

Lemma filter_other_comm (p q : loc) (rs : list (loc * key_data)) :
  filter (λ r, r.1 ≠ p) (filter (λ r, r.1 ≠ q) rs) =
  filter (λ r, r.1 ≠ q) (filter (λ r, r.1 ≠ p) rs).
Proof.
  rewrite !list_filter_filter. apply list_filter_iff. intros r. tauto.
Qed.

Lemma registry_member m rs p :
  registry m rs → is_Some (nodes m !! p) → ∃ d, (p, d) ∈ rs.
Proof.
  intros Hreg Hp. apply Hreg in Hp.
  apply list_elem_of_fmap in Hp as ([p' d] & -> & Hin). by exists d.
Qed.

(** X10.  The order in which two keys are forgotten does not matter:
    for two distinct structures of the list, unlinking and freeing one
    and then the other leaves the same memory either way. *)
Theorem forget_commutes (m : memory) (rs : list (loc * key_data)) (p q : loc) :
  registry m rs → is_Some (nodes m !! p) → is_Some (nodes m !! q) → p ≠ q →
  otrl_privkey_forget p (otrl_privkey_forget q m) =
  otrl_privkey_forget q (otrl_privkey_forget p m).
Proof.
  intros Hreg Hp Hq Hne.
  destruct (registry_member _ _ _ Hreg Hp) as [dp Hdp].
  destruct (registry_member _ _ _ Hreg Hq) as [dq Hdq].
  pose proof (forget_registry _ _ _ _ Hreg Hdp) as Hrp.
  pose proof (forget_registry _ _ _ _ Hreg Hdq) as Hrq.
  assert (Hdp' : (p, dp) ∈ filter (λ r, r.1 ≠ q) rs) by (by apply list_elem_of_filter).
  assert (Hdq' : (q, dq) ∈ filter (λ r, r.1 ≠ p) rs).
  { apply list_elem_of_filter. split; [| done]. cbn. congruence. }
  pose proof (forget_registry _ _ _ _ Hrq Hdp') as Hpq.
  pose proof (forget_registry _ _ _ _ Hrp Hdq') as Hqp.
  rewrite filter_other_comm in Hpq. exact (registry_unique _ _ _ Hpq Hqp).
Qed.

Lemma forget_commutes_witness :
  otrl_privkey_forget 1%positive (otrl_privkey_forget 2%positive two_keys_memory) =
  otrl_privkey_forget 2%positive (otrl_privkey_forget 1%positive two_keys_memory).
Proof.
  apply (forget_commutes two_keys_memory two_keys_records 1%positive 2%positive).
  - exact two_keys_registry.
  - vm_compute. eauto.
  - vm_compute. eauto.
  - discriminate.
Defined.

(** X11.  [otrl_privkey_find] returns the first structure of the list
    whose accountname and protocol both equal the arguments, and NULL
    only when no live structure has them; with a NULL accountname or
    protocol it returns NULL. *)
Theorem find_first_match (m : memory) (rs : list (loc * key_data)) (acc proto : string) :
  registry m rs →
  match otrl_privkey_find m (Some acc) (Some proto) with
  | Some p =>
      ∃ k pre d post,
        nodes m !! p = Some k ∧ accountname k = acc ∧ protocol k = proto ∧
        rs = pre ++ (p, d) :: post ∧
        Forall (λ r, identity r.2 ≠ (acc, proto)) pre
  | None =>
      ∀ l k, nodes m !! l = Some k → (accountname k, protocol k) ≠ (acc, proto)
  end ∧
  otrl_privkey_find m None (Some proto) = None ∧
  otrl_privkey_find m (Some acc) None = None.
Proof.
  intros Hreg. split; [| done].
  rewrite (find_registry _ _ _ _ Hreg).
  destruct Hreg as (Hchain & _ & Hdom).
  assert (Hlist : match first_with acc proto rs with
                  | Some p => ∃ pre d post, rs = pre ++ (p, d) :: post ∧ identity d = (acc, proto) ∧
                                Forall (λ r, identity r.2 ≠ (acc, proto)) pre
                  | None => Forall (λ r, identity r.2 ≠ (acc, proto)) rs
                  end).
  { clear. induction rs as [| [l d] rs IH]; cbn [first_with]; [done |].
    case_bool_decide as Hid.
    - by exists [], d, rs.
    - destruct (first_with acc proto rs) as [p |].
      + destruct IH as (pre & d' & post & -> & Hd' & Hpre).
        exists ((l, d) :: pre), d', post. split_and!; try done. by constructor.
      + by constructor. }
  destruct (first_with acc proto rs) as [p |].
  - destruct Hlist as (pre & d & post & -> & Hd & Hpre).
    destruct (chain_lookup _ _ _ _ p d Hchain) as (k & Hk & <-);
      [apply elem_of_app; right; left |].
    exists k, pre, (payload k), post. by injection Hd as -> ->.
  - intros l k Hk Hid.
    assert (Hin : l ∈ rs.*1) by (apply Hdom; by rewrite Hk).
    apply list_elem_of_fmap in Hin as ([l' d] & -> & Hin).
    destruct (chain_lookup _ _ _ _ _ _ Hchain Hin) as (k' & Hk' & <-).
    rewrite Forall_forall in Hlist. apply (Hlist _ Hin).
    cbn [fst] in Hk. rewrite Hk in Hk'. by injection Hk' as <-.
Qed.

Lemma find_first_match_witness :
  ∃ k pre d post,
    nodes two_keys_memory !! 1%positive = Some k ∧
    accountname k = "alice" ∧ protocol k = "xmpp" ∧
    two_keys_records = pre ++ (1%positive, d) :: post ∧
    Forall (λ r, identity r.2 ≠ ("alice", "xmpp")) pre.
Proof.
  exact (proj1 (find_first_match two_keys_memory two_keys_records "alice" "xmpp"
                  two_keys_registry)).
Defined.

(** ** Loading and generating, further *)

Section more_key_files.
Context {G : Gcrypt}.

Lemma generate_keeps_registry w m rs filename acc proto :
  registry m rs →
  ∃ rs', registry (otrl_privkey_generate w m filename acc proto).2 rs'.
Proof.
  intros Hreg. unfold otrl_privkey_generate.
  destruct (gcry_sexp_new parmstr) as [parms |]; [| by exists rs].
  destruct (gcry_pk_genkey parms) as [key |]; [| by exists rs].
  destruct (fopen_write w filename) as [[] w1]; [| by exists rs].
  match goal with
  | |- ∃ rs', registry (otrl_privkey_read ?w2 m filename).2 rs' =>
      destruct (read_registry w2 m rs filename Hreg)
        as (err & w' & m' & rs' & -> & Hreg' & _)
  end.
  by exists rs'.
Qed.

(** X12.  The pointers of the list stay valid through every operation
    of this file: [us->privkey_root] and every [next] are NULL or the
    address of a live structure, and the [tous] of every live structure
    designates the pointer that holds its address. *)
Theorem pointers_stay_valid (m : memory) (rs : list (loc * key_data)) :
  registry m rs →
  let valid := λ m, heap_closed m ∧ back_pointers m in
  valid m ∧
  (∀ p, is_Some (nodes m !! p) → valid (otrl_privkey_forget p m)) ∧
  valid (otrl_privkey_forget_all m) ∧
  (∀ w filename, valid (otrl_privkey_read w m filename).2) ∧
  (∀ w filename acc proto, valid (otrl_privkey_generate w m filename acc proto).2).
Proof.
  intros Hreg valid. subst valid. cbv beta.
  split; [| split; [| split; [| split]]].
  - by apply (registry_pointers m rs).
  - intros p _. destruct (forget_keeps_registry m rs p Hreg) as [rs' Hreg'].
    by apply (registry_pointers _ rs').
  - rewrite (forget_all_registry m rs Hreg).
    apply (registry_pointers _ []), registry_empty_memory.
  - intros w filename.
    destruct (read_registry w m rs filename Hreg) as (err & w' & m' & rs' & -> & Hreg' & _).
    by apply (registry_pointers _ rs').
  - intros w filename acc proto.
    destruct (generate_keeps_registry w m rs filename acc proto Hreg) as [rs' Hreg'].
    by apply (registry_pointers _ rs').
Qed.

(** X13.  An entry the loop body rejects leaves no trace: whether it
    is rejected before a structure is allocated or after the structure
    has been linked (the public key cannot be derived), the memory is
    afterwards exactly what it was before the entry, and the error is
    [GPG_ERR_UNUSABLE_SECKEY]. *)
Theorem rejected_entry_leaves_no_trace (accounts : option sexp) (m : memory)
    (rs : list (loc * key_data)) (err : gcry_error) (m' : memory) :
  registry m rs →
  read_account accounts m = (err, m') →
  err ≠ GPG_ERR_NO_ERROR →
  m' = m ∧ err = GPG_ERR_UNUSABLE_SECKEY.
Proof.
  intros Hreg Hread Herr.
  destruct (read_account_registry accounts m rs Hreg) as [m1 Hstep].
  destruct (account_record accounts).
  - destruct Hstep as [Hok _]. rewrite Hok in Hread. by injection Hread as <- _.
  - destruct Hstep as [Hbad Hreg1]. rewrite Hbad in Hread. injection Hread as <- <-.
    split; [| done]. exact (registry_unique _ _ _ Hreg1 Hreg).
Qed.

Lemma chain_first_with h t s rs acc proto :
  chain h t s rs →
  (p ← first_with acc proto rs; payload <$> h !! p) =
  head (filter (λ d, identity d = (acc, proto)) rs.*2).
Proof.
  revert t s. induction rs as [| [l d] rs IH]; intros t s; [done |].
  intros (-> & k & Hk & _ & Hd & Hc). cbn [first_with fmap list_fmap snd].
  case_bool_decide as Hid.
  - rewrite filter_cons_True by done. cbn. by rewrite Hk, <- Hd.
  - rewrite filter_cons_False by done. by apply (IH _ _ Hc).
Qed.

Lemma registry_find_payload m rs acc proto :
  registry m rs →
  (p ← otrl_privkey_find m (Some acc) (Some proto); payload <$> nodes m !! p) =
  head (filter (λ d, identity d = (acc, proto)) rs.*2).
Proof.
  intros Hreg. rewrite (find_registry _ _ _ _ Hreg).
  apply (chain_first_with _ RootSlot (privkey_root m)), Hreg.
Qed.

(** X14.  After a load, successful or not, a search finds for an
    identity the record of the last entry with that identity among the
    entries that were loaded: a later entry of the key file hides an
    earlier one with the same accountname and protocol. *)
Theorem load_last_entry_wins (w : world) (m : memory) (rs0 : list (loc * key_data))
    (filename acc proto : string) :
  registry m rs0 →
  let m' := (otrl_privkey_read w m filename).2 in
  (p ← otrl_privkey_find m' (Some acc) (Some proto); payload <$> nodes m' !! p) =
  last (filter (λ d, identity d = (acc, proto)) (loaded_records w filename)).
Proof.
  intros Hreg.
  destruct (read_registry w m rs0 filename Hreg)
    as (err & w' & m' & rs & -> & Hreg' & Hrs & _).
  cbn [snd]. rewrite (registry_find_payload _ _ _ _ Hreg').
  by rewrite Hrs, filter_reverse, head_reverse.
Qed.

(** X15.  Without a document the load reports the state of the file
    and leaves the registry empty, whatever it held: a file that cannot
    be opened gives the system error of [fopen] (never success); an
    empty file gives the error for whatever [errno] held before the
    call, which is success when it held 0, and the parser is not
    consulted.  A load of a file that opens leaves the files, the room
    on the device and [errno] as they were. *)
Theorem load_without_document (w : world) (m : memory) (rs : list (loc * key_data))
    (filename : string) :
  registry m rs →
  match fopen_read w filename with
  | (None, w') =>
      otrl_privkey_read w m filename = (GPG_ERR_SYSTEM (w_errno w'), w', Memory None ∅) ∧
      w_files w' = w_files w ∧
      (w_errno w' = ENOENT ∨ w_errno w' = EACCES)
  | (Some buf, _) =>
      (otrl_privkey_read w m filename).1.2 = w ∧
      (buf = EmptyString →
       otrl_privkey_read w m filename =
         (gcry_error_from_errno (w_errno w), w, Memory None ∅))
  end.
Proof.
  intros Hreg. unfold otrl_privkey_read. rewrite (forget_all_registry m rs Hreg).
  unfold fopen_read.
  destruct (w_files w !! filename) as [f |]; [destruct (f_readable f) |].
  - split; [| intros ->; by rewrite decide_True].
    destruct (decide (f_data f = EmptyString)); [done |].
    destruct (gcry_sexp_new (f_data f)); [| done].
    destruct (decide _); [done |].
    by destruct (read_accounts _ _ _ _).
  - split_and!; [done | done | by right].
  - split_and!; [done | done | by left].
Qed.

Lemma account_record_consistent accounts d :
  account_record accounts = Some d → record_consistent d.
Proof.
  unfold account_record. destruct (account_entry accounts) as [[[name proto] privs] |];
    cbn [mbind option_bind]; [| done].
  destruct (otrl_proto_make_pubkey privs) as [pub |] eqn:Hpub; [| done].
  intros [= <-]. by exists pub.
Qed.

Lemma loaded_records_consistent w filename :
  Forall record_consistent (loaded_records w filename).
Proof.
  unfold loaded_records. destruct (key_file_sexp w filename); [| constructor].
  destruct (decide _); [| constructor].
  induction (accounts_of (Some s)) as [| entry entries IH]; cbn [usable_prefix];
    [constructor |].
  destruct (account_record entry) eqn:Hentry; [| constructor].
  constructor; [by apply (account_record_consistent entry) | exact IH].
Qed.

(** X16.  After a load, successful or not, every structure in memory
    has its public key filled in, and it is the public key derived from
    the private key of the same structure; the key is a "private-key"
    list and the names hold no NUL. *)
Theorem loaded_keys_have_public_key (w : world) (m : memory) (rs0 : list (loc * key_data))
    (filename : string) (l : loc) (k : PrivKey) :
  registry m rs0 →
  nodes (otrl_privkey_read w m filename).2 !! l = Some k →
  (∃ pub, pubkey_data k = Some pub ∧ otrl_proto_make_pubkey (privkey k) = Done pub) ∧
  (∃ elements, privkey k = Some (SList (Data "private-key" :: elements))) ∧
  ¬ has_char NUL (accountname k) ∧ ¬ has_char NUL (protocol k).
Proof.
  intros Hreg.
  destruct (read_registry w m rs0 filename Hreg)
    as (err & w' & m' & rs & -> & Hreg' & Hrs & _).
  cbn [snd]. intros Hk.
  destruct (registry_member m' rs l Hreg') as [d Hd]; [by rewrite Hk |].
  destruct (chain_lookup _ _ _ _ _ _ (proj1 Hreg') Hd) as (k' & Hk' & Hpay).
  rewrite Hk in Hk'. injection Hk' as <-.
  assert (Hin : d ∈ loaded_records w filename).
  { apply elem_of_reverse. rewrite <- Hrs. apply list_elem_of_fmap. by exists (l, d). }
  pose proof (proj1 (Forall_forall _ _) (loaded_records_consistent w filename) d Hin) as Hc.
  pose proof (proj1 (Forall_forall _ _) (loaded_records_wellformed w filename) d Hin) as Hw.
  subst d. split; [exact Hc | exact Hw].
Qed.

Lemma unique_identity_head_last (ds : list key_data) (acc proto : string) :
  NoDup (identity <$> ds) →
  head (filter (λ d, identity d = (acc, proto)) ds) =
  last (filter (λ d, identity d = (acc, proto)) ds).
Proof.
  intros Hnd.
  assert (Hlen : length (filter (λ d, identity d = (acc, proto)) ds) ≤ 1).
  { induction ds as [| d ds IH]; [cbn; lia |].
    cbn [fmap list_fmap] in Hnd. apply NoDup_cons in Hnd as [Hd Hnd].
    destruct (decide (identity d = (acc, proto))) as [Hid | Hid].
    - rewrite filter_cons_True by done.
      rewrite (filter_nil_all _ ds); [cbn; lia |].
      apply Forall_forall. intros d' Hd' Hid'. apply Hd.
      apply list_elem_of_fmap. exists d'. split; [congruence | done].
    - rewrite filter_cons_False by done. by apply IH. }
  destruct (filter _ ds) as [| d [| d' l]]; [done | done | cbn in Hlen; lia].
Qed.

Lemma generate_written_readable w m rs filename acc proto parms key :
  registry m rs →
  gcry_sexp_new parmstr = Done parms → gcry_pk_genkey parms = Done key →
  (fopen_write w filename).1 = true →
  otrl_privkey_generate w m filename acc proto =
  otrl_privkey_read
    (written w filename (readable_once_open w filename) true
       (key_file_text (other_entries acc proto rs ++
          [(acc, proto, gcry_sexp_find_token (Some key) "private-key")])))
    m filename.
Proof.
  intros Hreg Hparms Hkey Hopen. unfold otrl_privkey_generate.
  rewrite Hparms, Hkey.
  destruct (fopen_write w filename) as [[] w1] eqn:Hw; [| done].
  apply fopen_write_readable in Hw as ->.
  rewrite fputs_written.
  rewrite (write_other_keys_written _ _ RootSlot _ rs);
    [| apply Hreg | by apply registry_size].
  rewrite account_write_written, fputs_written. f_equal. f_equal.
  unfold key_file_text. rewrite fmap_app, texts_app. cbn [fmap list_fmap texts].
  change (EmptyString +:+ ("(privkeys" +:+ String LF EmptyString))
    with ("(privkeys" +:+ String LF EmptyString).
  by rewrite string_app_nil_r, !string_app_assoc.
Qed.

Lemma usable_prefix_all (l : list (option sexp)) (ds : list key_data) :
  account_entry <$> l = Some <$> (entry_of <$> ds) →
  Forall record_consistent ds →
  usable_prefix l = ds ∧ Forall entry_usable l.
Proof.
  revert ds. induction l as [| e l IH]; intros [| d ds]; try done.
  cbn [fmap list_fmap]. intros [= He Hl] [Hd Hds]%Forall_cons.
  destruct (IH ds Hl Hds) as [Hprefix Husable].
  assert (Hrec : account_record e = Some d).
  { unfold account_record. rewrite He. unfold entry_of. cbn [mbind option_bind].
    destruct Hd as (pub & Hpub & ->). destruct d. cbn in *. by subst. }
  split.
  - cbn [usable_prefix]. by rewrite Hrec, Hprefix.
  - constructor; [| done]. apply account_record_usable. by rewrite Hrec.
Qed.

(** A generation that goes through ends with the registry of the file
    it wrote: the other records, then the new key. *)
Lemma generate_loads_entries w m rs filename acc proto parms key newkey pub :
  registry m rs →
  Forall record_wellformed rs.*2 → Forall record_consistent rs.*2 →
  ¬ has_char NUL acc → ¬ has_char NUL proto →
  gcry_sexp_new parmstr = Done parms → gcry_pk_genkey parms = Done key →
  find_token key "private-key" = Some newkey →
  otrl_proto_make_pubkey (Some newkey) = Done pub →
  (fopen_write w filename).1 = true →
  readable_once_open w filename = true →
  let entries := other_entries acc proto rs ++ [(acc, proto, Some newkey)] in
  fit (room_once_open w filename) (key_file_text entries) = key_file_text entries →
  gcry_sexp_new (key_file_text entries) = Done (key_file_tree entries) →
  ∃ w' m' rs1,
    otrl_privkey_generate w m filename acc proto = (GPG_ERR_NO_ERROR, w', m') ∧
    registry m' rs1 ∧
    rs1.*2 = reverse (filter (λ d, identity d ≠ (acc, proto)) rs.*2 ++
                      [KeyData acc proto (Some newkey) (Some pub)]).
Proof.
  intros Hreg Hwf Hcons Ha Hp Hparms Hkey Hpriv Hpub Hopen Hreadable entries Hroom Hparse.
  rewrite (generate_written_readable w m rs filename acc proto parms key) by done.
  cbn [gcry_sexp_find_token mbind option_bind]. rewrite Hpriv. fold entries.
  rewrite Hreadable.
  set (w1 := written w filename true true (key_file_text entries)).
  set (new := KeyData acc proto (Some newkey) (Some pub)).
  set (others := filter (λ d, identity d ≠ (acc, proto)) rs.*2).
  assert (Hentries : entries = entry_of <$> (others ++ [new])).
  { subst entries others new. unfold other_entries. by rewrite fmap_app. }
  assert (Hothers : Forall record_consistent (others ++ [new])).
  { apply Forall_app. split.
    - apply Forall_forall. intros d [_ Hd]%list_elem_of_filter.
      by apply (proj1 (Forall_forall _ _) Hcons).
    - repeat constructor. by exists pub. }
  destruct (find_token_headed _ _ _ Hpriv) as [elements Helements].
  destruct (key_file_tree_entries entries) as [Htok Htree].
  { subst entries. unfold other_entries. apply Forall_app. split.
    - apply Forall_fmap, Forall_forall. intros d [_ Hd]%list_elem_of_filter.
      by apply (proj1 (Forall_forall _ _) Hwf).
    - repeat constructor; cbn; rewrite ?Helements; eauto. }
  rewrite Hentries in Htree at 2.
  destruct (usable_prefix_all _ _ Htree Hothers) as [Hprefix Husable].
  assert (Hsexp : key_file_sexp w1 filename = Some (key_file_tree entries)).
  { unfold key_file_sexp, fopen_read, w1, written. cbn [w_files].
    rewrite lookup_insert_eq. cbn [f_readable f_data]. rewrite Hroom.
    rewrite decide_False by done. by rewrite Hparse. }
  assert (Hloaded : loaded_records w1 filename = others ++ [new]).
  { unfold loaded_records. rewrite Hsexp. by rewrite decide_True. }
  destruct (read_registry w1 m rs filename Hreg)
    as (err & w' & m' & rs1 & Hread & Hreg' & Hrs1 & Herr).
  rewrite Hsexp, decide_True in Herr by done.
  destruct Herr as [[-> _] | [_ Hbad]]; [| done].
  rewrite Hloaded in Hrs1. by exists w', m', rs1.
Qed.

(** X17.  A generation that goes through: when the key is made, the
    file can be opened for writing and read, the device has room for the
    text, the parser reads back the tree that was printed and the public
    key of the new key can be derived, [otrl_privkey_generate] succeeds
    and the registry then holds the new key for the requested identity,
    found by a search for it, followed by the data of the records of
    the other identities, unchanged, in reverse order; every record
    that had the requested identity is gone. *)
Theorem generate_succeeds (w : world) (m : memory) (rs : list (loc * key_data))
    (filename acc proto : string) (parms key newkey : sexp) (pub : list byte) :
  registry m rs →
  Forall record_wellformed rs.*2 → Forall record_consistent rs.*2 →
  ¬ has_char NUL acc → ¬ has_char NUL proto →
  gcry_sexp_new parmstr = Done parms → gcry_pk_genkey parms = Done key →
  find_token key "private-key" = Some newkey →
  otrl_proto_make_pubkey (Some newkey) = Done pub →
  (fopen_write w filename).1 = true →
  readable_once_open w filename = true →
  let entries := other_entries acc proto rs ++ [(acc, proto, Some newkey)] in
  fit (room_once_open w filename) (key_file_text entries) = key_file_text entries →
  gcry_sexp_new (key_file_text entries) = Done (key_file_tree entries) →
  ∃ w' m' p rs',
    otrl_privkey_generate w m filename acc proto = (GPG_ERR_NO_ERROR, w', m') ∧
    registry m' ((p, KeyData acc proto (Some newkey) (Some pub)) :: rs') ∧
    rs'.*2 = reverse (filter (λ d, identity d ≠ (acc, proto)) rs.*2) ∧
    otrl_privkey_find m' (Some acc) (Some proto) = Some p.
Proof.
  intros Hreg Hwf Hcons Ha Hp Hparms Hkey Hpriv Hpub Hopen Hreadable entries Hroom Hparse.
  destruct (generate_loads_entries w m rs filename acc proto parms key newkey pub)
    as (w' & m' & rs1 & Hgen & Hreg' & Hrs1); try done.
  rewrite reverse_app in Hrs1. cbn [reverse rev_append app] in Hrs1.
  destruct rs1 as [| [p d] rs']; [done |]. cbn [fmap list_fmap snd] in Hrs1.
  injection Hrs1 as -> Hrs'.
  exists w', m', p, rs'. split_and!; try done.
  rewrite (find_registry _ _ _ _ Hreg'). cbn [first_with].
  by rewrite bool_decide_eq_true_2.
Qed.

(** X18.  A generation that goes through leaves the keys of the other
    accounts: a search for another identity then returns a record with
    the data of the last record of that identity in the old list, which
    is the data the search returned before when no two records shared an
    identity. *)
Theorem generate_keeps_other_keys (w : world) (m : memory) (rs : list (loc * key_data))
    (filename acc proto : string) (parms key newkey : sexp) (pub : list byte)
    (acc' proto' : string) :
  registry m rs →
  Forall record_wellformed rs.*2 → Forall record_consistent rs.*2 →
  ¬ has_char NUL acc → ¬ has_char NUL proto →
  gcry_sexp_new parmstr = Done parms → gcry_pk_genkey parms = Done key →
  find_token key "private-key" = Some newkey →
  otrl_proto_make_pubkey (Some newkey) = Done pub →
  (fopen_write w filename).1 = true →
  readable_once_open w filename = true →
  let entries := other_entries acc proto rs ++ [(acc, proto, Some newkey)] in
  fit (room_once_open w filename) (key_file_text entries) = key_file_text entries →
  gcry_sexp_new (key_file_text entries) = Done (key_file_tree entries) →
  (acc', proto') ≠ (acc, proto) →
  let m' := (otrl_privkey_generate w m filename acc proto).2 in
  let found := λ m, p ← otrl_privkey_find m (Some acc') (Some proto');
                    payload <$> nodes m !! p in
  found m' = last (filter (λ d, identity d = (acc', proto')) rs.*2) ∧
  (NoDup (identity <$> rs.*2) → found m' = found m).
Proof.
  intros Hreg Hwf Hcons Ha Hp Hparms Hkey Hpriv Hpub Hopen Hreadable entries Hroom Hparse
    Hother m' found.
  destruct (generate_loads_entries w m rs filename acc proto parms key newkey pub)
    as (w' & m1 & rs1 & Hgen & Hreg' & Hrs1); try done.
  assert (Hfound : found m' = last (filter (λ d, identity d = (acc', proto')) rs.*2)).
  { subst m' found. cbv beta. rewrite Hgen. cbn [snd].
    rewrite (registry_find_payload _ _ _ _ Hreg'), Hrs1.
    rewrite filter_reverse, head_reverse, filter_app.
    rewrite filter_cons_False by (intros Hid; apply Hother; by rewrite <- Hid).
    rewrite filter_nil, app_nil_r, list_filter_filter. f_equal. apply list_filter_iff.
    intros d. split; [tauto |]. intros Hd. split; [done | congruence]. }
  split; [exact Hfound |].
  intros Hnd. rewrite Hfound. subst found. cbv beta.
  rewrite (registry_find_payload _ _ _ _ Hreg).
  symmetry. apply unique_identity_head_last, Hnd.
Qed.

(** X19.  The fingerprint of an account after a load is the human
    form of the digest of the public key derived from the key of the
    last loaded entry with that accountname and protocol; when no loaded
    entry has them, or a name is NULL, [otrl_privkey_fingerprint]
    returns NULL and leaves the buffer as it was. *)
Theorem fingerprint_after_load {Md : GcryptMd} (w : world) (m : memory)
    (rs0 : list (loc * key_data)) (filename : string) (fingerprint : list ascii)
    (acc proto : string) :
  registry m rs0 →
  let m' := (otrl_privkey_read w m filename).2 in
  match last (filter (λ d, identity d = (acc, proto)) (loaded_records w filename)) with
  | Some d =>
      ∃ pub, otrl_proto_make_pubkey (kd_privkey d) = Done pub ∧
        otrl_privkey_fingerprint m' fingerprint (Some acc) (Some proto) =
          (Some (otrl_privkey_hash_to_human fingerprint (gcry_md_hash_buffer pub)),
           otrl_privkey_hash_to_human fingerprint (gcry_md_hash_buffer pub))
  | None =>
      otrl_privkey_fingerprint m' fingerprint (Some acc) (Some proto) = (None, fingerprint)
  end ∧
  otrl_privkey_fingerprint m' fingerprint None (Some proto) = (None, fingerprint) ∧
  otrl_privkey_fingerprint m' fingerprint (Some acc) None = (None, fingerprint).
Proof.
  intros Hreg m'. split; [| done].
  assert (Hfind : (p ← otrl_privkey_find m' (Some acc) (Some proto);
                   payload <$> nodes m' !! p) =
                  last (filter (λ d, identity d = (acc, proto))
                          (loaded_records w filename))).
  { subst m'.
    destruct (read_registry w m rs0 filename Hreg)
      as (err & w' & m1 & rs & -> & Hreg' & Hrs & _).
    cbn [snd]. rewrite (registry_find_payload _ _ _ _ Hreg').
    by rewrite Hrs, filter_reverse, head_reverse. }
  destruct (last _) as [d |] eqn:Hlast.
  - apply last_Some_elem_of, list_elem_of_filter in Hlast as [_ Hin].
    pose proof (proj1 (Forall_forall _ _) (loaded_records_consistent w filename) d Hin)
      as (pub & Hpub & Hmake).
    exists pub. split; [done |]. unfold otrl_privkey_fingerprint.
    destruct (otrl_privkey_find m' (Some acc) (Some proto)) as [p |]; [| done].
    cbn [mbind option_bind] in Hfind.
    destruct (nodes m' !! p) as [k |]; [| done].
    injection Hfind as <-. cbn [payload kd_pubkey] in Hpub. by rewrite Hpub.
  - unfold otrl_privkey_fingerprint.
    destruct (otrl_privkey_find m' (Some acc) (Some proto)) as [p |]; [| done].
    cbn [mbind option_bind] in Hfind. by destruct (nodes m' !! p).
Qed.

End more_key_files.

(** ** The further properties on the example key files *)

Lemma pointers_stay_valid_witness :
  heap_closed two_keys_memory ∧ back_pointers two_keys_memory.
Proof.
  exact (proj1 (pointers_stay_valid (G := RefGcrypt.gcrypt) two_keys_memory two_keys_records
                  two_keys_registry)).
Defined.

Lemma rejected_entry_leaves_no_trace_witness :
  (read_account (G := RefGcrypt.gcrypt) keyless_entry two_keys_memory).2 = two_keys_memory ∧
  (read_account (G := RefGcrypt.gcrypt) keyless_entry two_keys_memory).1 =
    GPG_ERR_UNUSABLE_SECKEY.
Proof.
  apply (rejected_entry_leaves_no_trace (G := RefGcrypt.gcrypt) keyless_entry two_keys_memory
           two_keys_records).
  - exact two_keys_registry.
  - apply surjective_pairing.
  - vm_compute. discriminate.
Defined.

Lemma load_last_entry_wins_witness :
  (p ← otrl_privkey_find (load_file duplicates_file).2 (Some "alice") (Some "xmpp");
   payload <$> nodes (load_file duplicates_file).2 !! p) =
  last (filter (λ d, identity d = ("alice", "xmpp"))
          (loaded_records (G := RefGcrypt.gcrypt) (one_file key_path duplicates_file)
             key_path)).
Proof.
  apply (load_last_entry_wins (G := RefGcrypt.gcrypt) (one_file key_path duplicates_file)
           (Memory None ∅) [] key_path "alice" "xmpp").
  exact registry_empty_memory.
Defined.

Lemma load_without_document_witness :
  otrl_privkey_read (G := RefGcrypt.gcrypt) (one_file "elsewhere" "text") two_keys_memory
    key_path =
  (GPG_ERR_SYSTEM ENOENT, set_errno (one_file "elsewhere" "text") ENOENT, Memory None ∅).
Proof.
  exact (proj1 (load_without_document (G := RefGcrypt.gcrypt) (one_file "elsewhere" "text")
                  two_keys_memory two_keys_records key_path two_keys_registry)).
Defined.

Lemma loaded_keys_have_public_key_witness :
  ∃ pub, pubkey_of "#12#" = Some pub ∧ RefGcrypt.make_pubkey (key_of "#12#") = Done pub.
Proof.
  exact (proj1 (loaded_keys_have_public_key (G := RefGcrypt.gcrypt)
                  (one_file key_path two_keys_file) (Memory None ∅) [] key_path 1%positive
                  (MkPrivKey "alice" "xmpp" (key_of "#12#") (pubkey_of "#12#") None
                     (NextSlot 2%positive))
                  registry_empty_memory ltac:(vm_compute; reflexivity))).
Defined.

Lemma generate_succeeds_witness :
  ∃ w' m' p rs',
    generate_in (one_file key_path two_keys_file) two_keys_memory "alice" "xmpp" =
      (GPG_ERR_NO_ERROR, w', m') ∧
    registry m' ((p, KeyData "alice" "xmpp" (key_of "#7C#") (pubkey_of "#7C#")) :: rs') ∧
    rs'.*2 = reverse (filter (λ d, identity d ≠ ("alice", "xmpp")) two_keys_records.*2) ∧
    otrl_privkey_find m' (Some "alice") (Some "xmpp") = Some p.
Proof.
  apply (generate_succeeds (G := RefGcrypt.gcrypt)
           (one_file key_path two_keys_file) two_keys_memory two_keys_records
           key_path "alice" "xmpp" genkey_parms new_key
           (SList [Data "private-key"; RefGcrypt.dsa_key "#7C#" true])
           (RefGcrypt.bytes_of_string ("#00F1#" +:+ "#00E3#" +:+ "#5A#" +:+ "#7C#"))).
  - exact two_keys_registry.
  - repeat constructor; cbn; eauto; apply (bool_decide_eq_false_1 _); reflexivity.
  - repeat constructor; eexists; split; vm_compute; reflexivity.
  - apply (bool_decide_eq_false_1 _). reflexivity.
  - apply (bool_decide_eq_false_1 _). reflexivity.
  - vm_compute. reflexivity.
  - vm_compute. reflexivity.
  - vm_compute. reflexivity.
  - vm_compute. reflexivity.
  - vm_compute. reflexivity.
  - vm_compute. reflexivity.
  - vm_compute. reflexivity.
  - vm_compute. reflexivity.
Defined.

Lemma generate_keeps_other_keys_witness :
  (p ← otrl_privkey_find
         (generate_in (one_file key_path two_keys_file) two_keys_memory "alice" "xmpp").2
         (Some "bob") (Some "irc");
   payload <$> nodes (generate_in (one_file key_path two_keys_file) two_keys_memory
                        "alice" "xmpp").2 !! p) =
  last (filter (λ d, identity d = ("bob", "irc")) two_keys_records.*2).
Proof.
  refine (proj1 (generate_keeps_other_keys (G := RefGcrypt.gcrypt)
           (one_file key_path two_keys_file) two_keys_memory two_keys_records
           key_path "alice" "xmpp" genkey_parms new_key
           (SList [Data "private-key"; RefGcrypt.dsa_key "#7C#" true])
           (RefGcrypt.bytes_of_string ("#00F1#" +:+ "#00E3#" +:+ "#5A#" +:+ "#7C#"))
           "bob" "irc" _ _ _ _ _ _ _ _ _ _ _ _ _ _)).
  - exact two_keys_registry.
  - repeat constructor; cbn; eauto; apply (bool_decide_eq_false_1 _); reflexivity.
  - repeat constructor; eexists; split; vm_compute; reflexivity.
  - apply (bool_decide_eq_false_1 _). reflexivity.
  - apply (bool_decide_eq_false_1 _). reflexivity.
  - vm_compute. reflexivity.
  - vm_compute. reflexivity.
  - vm_compute. reflexivity.
  - vm_compute. reflexivity.
  - vm_compute. reflexivity.
  - vm_compute. reflexivity.
  - vm_compute. reflexivity.
  - vm_compute. reflexivity.
  - discriminate.
Defined.

Lemma fingerprint_after_load_witness :
  ∃ pub, RefGcrypt.make_pubkey (key_of "#12#") = Done pub ∧
    otrl_privkey_fingerprint (Md := ref_md) (load_file two_keys_file).2
      (replicate 45 "?"%char) (Some "alice") (Some "xmpp") =
    (Some (otrl_privkey_hash_to_human (replicate 45 "?"%char)
             (gcry_md_hash_buffer (GcryptMd := ref_md) pub)),
     otrl_privkey_hash_to_human (replicate 45 "?"%char)
       (gcry_md_hash_buffer (GcryptMd := ref_md) pub)).
Proof.
  exact (proj1 (fingerprint_after_load (G := RefGcrypt.gcrypt) (Md := ref_md)
                  (one_file key_path two_keys_file) (Memory None ∅) [] key_path
                  (replicate 45 "?"%char) "alice" "xmpp" registry_empty_memory)).
Defined.
